(** * cpp_di: a header-only dependency-injection container

    Shallow embedding of [cpp_di.hpp].  The header has two halves:

    - a compile-time half ([refl], [type_registry], the [static_assert] in
      [di::fail_type]) that runs inside the C++ compiler while templates are
      instantiated; it is embedded as functions over an explicit
      instantiation state (the friend functions defined so far);
    - a run-time half ([di::registry], [di::add], [di::get]) that mutates
      static storage; it is embedded with explicit state passing over the
      family of [registry<T>] statics and the heap of objects built by
      [std::make_shared]. *)

From Stdlib Require Import String.
From Stdlib Require Import List ZArith Bool Arith Lia Permutation.
Import ListNotations.
Local Open Scope list_scope.

(** ** C++ types *)

Inductive ty : Type :=
| TInt
| TClass (name : string)
| TSharedPtr (element_type : ty)
| TConst (t : ty)
| TVolatile (t : ty)
| TLRef (t : ty)
| TRRef (t : ty).

Definition ty_eq_dec : forall a b : ty, {a = b} + {a <> b}.
Proof. decide equality. apply string_dec. Defined.

(** [std::is_same_v] *)
Definition is_same (a b : ty) : bool :=
  if ty_eq_dec a b then true else false.

(** [std::remove_reference_t] *)
Definition remove_reference (t : ty) : ty :=
  match t with
  | TLRef u | TRRef u => u
  | _ => t
  end.

(** [std::remove_cv_t]: strips the top-level const and volatile. *)
Fixpoint remove_cv (t : ty) : ty :=
  match t with
  | TConst u | TVolatile u => remove_cv u
  | _ => t
  end.

(** Top-level cv-qualification. *)
Fixpoint is_const (t : ty) : bool :=
  match t with
  | TConst _ => true
  | TVolatile u => is_const u
  | _ => false
  end.

Fixpoint is_volatile (t : ty) : bool :=
  match t with
  | TVolatile _ => true
  | TConst u => is_volatile u
  | _ => false
  end.

Definition is_reference (t : ty) : bool :=
  match t with
  | TLRef _ | TRRef _ => true
  | _ => false
  end.

(** [a] is no more cv-qualified than [b]; strictly less. *)
Definition cv_le (a b : ty) : bool :=
  implb (is_const a) (is_const b) && implb (is_volatile a) (is_volatile b).

Definition cv_lt (a b : ty) : bool := cv_le a b && negb (cv_le b a).

(** ** Class declarations seen by the compiler

    What the header asks the compiler about a user class: its bases
    ([std::is_base_of_v], aggregate initialisation), its user-provided
    constructors (overload resolution of [T(args...)]) and its data members
    (aggregate initialisation [T{args...}], the implicit default
    constructor).  The language is C++17.  A class of the model has public,
    non-virtual bases, public data members without default member
    initialiser, and public constructors that are neither explicit nor
    templates and take no default argument; it declares no copy or move
    constructor, no destructor, no conversion function and no virtual
    function. *)

Record class_decl : Type := {
  bases : list string;          (* direct bases, declaration order *)
  ctors : list (list ty);       (* parameter lists of the user-provided constructors *)
  fields : list ty              (* non-static data members, declaration order *)
}.

(** The classes of the translation unit, the most recent declaration first:
    a base, or a member held by value, is a complete type, hence a class
    declared earlier. *)
Definition class_table : Type := list (string * class_decl).

Fixpoint find_class (ct : class_table) (c : string) : option class_decl :=
  match ct with
  | [] => None
  | (c', d) :: earlier => if String.eqb c c' then Some d else find_class earlier c
  end.

(** What initialising an object of a class without arguments comes to. *)
Record class_facts : Type := {
  default_init : bool;          (* [T x;], [T()]: a default constructor that is not deleted *)
  const_default_init : bool;    (* [const T x;]: const-default-constructible *)
  empty_init : bool;            (* [T x = {};], [T{}] *)
  all_bases : list string       (* every base class subobject, direct or indirect *)
}.

Section class_facts.

(** The facts of the classes declared before. *)
Variable known : string -> option class_facts.

Definition known_as (p : class_facts -> bool) (c : string) : bool :=
  match known c with
  | Some f => p f
  | None => false
  end.

(** A member [M m;] in the implicit default constructor: a reference has no
    default initialisation, a const scalar neither, a const class needs to be
    const-default-constructible. *)
Definition member_default (M : ty) : bool :=
  negb (is_reference M)
  && match remove_cv M with
     | TInt => negb (is_const M)
     | TSharedPtr _ => true
     | TClass c => known_as (if is_const M then const_default_init else default_init) c
     | _ => false
     end.

(** A member that leaves its class const-default-constructible: a member of
    class type that is so itself. *)
Definition member_const_default (M : ty) : bool :=
  negb (is_reference M)
  && match remove_cv M with
     | TSharedPtr _ => true
     | TClass c => known_as const_default_init c
     | _ => false
     end.

(** [M m = {};]: value-initialisation of a scalar, the default constructor of
    [std::shared_ptr], aggregate initialisation or the default constructor
    of a class; ill-formed for a reference. *)
Definition empty_initializable_in (M : ty) : bool :=
  negb (is_reference M)
  && match remove_cv M with
     | TInt | TSharedPtr _ => true
     | TClass c => known_as empty_init c
     | _ => false
     end.

Definition no_parameter (ps : list ty) : bool :=
  match ps with
  | [] => true
  | _ => false
  end.

Definition bases_of (c : string) : list string :=
  match known c with
  | Some f => all_bases f
  | None => []
  end.

(** A class that declares constructors is initialised by them; a class that
    declares none is an aggregate with an implicit default constructor,
    deleted when a base or a member cannot be default-initialised. *)
Definition facts_of (d : class_decl) : class_facts :=
  let ancestors := flat_map (fun b => b :: bases_of b) (bases d) in
  match ctors d with
  | [] =>
      let dflt := forallb (known_as default_init) (bases d)
                  && forallb member_default (fields d) in
      {| default_init := dflt;
         const_default_init :=
           dflt && forallb (known_as const_default_init) (bases d)
           && forallb member_const_default (fields d);
         empty_init :=
           forallb (known_as empty_init) (bases d)
           && forallb empty_initializable_in (fields d);
         all_bases := ancestors |}
  | cs =>
      let dflt := existsb no_parameter cs in
      {| default_init := dflt;
         const_default_init := dflt;
         empty_init := dflt;
         all_bases := ancestors |}
  end.

End class_facts.

Fixpoint facts (ct : class_table) (c : string) : option class_facts :=
  match ct with
  | [] => None
  | (c', d) :: earlier =>
      if String.eqb c c' then Some (facts_of (facts earlier) d) else facts earlier c
  end.

Section type_traits.

Variable ct : class_table.

(** [std::is_default_constructible_v]: [T()] is well-formed. *)
Fixpoint is_default_constructible (T : ty) : bool :=
  match T with
  | TInt | TSharedPtr _ => true
  | TClass c => known_as (facts ct) default_init c
  | TConst t | TVolatile t => is_default_constructible t
  | TLRef _ | TRRef _ => false
  end.

(** [U{}], [U x = {};] *)
Definition empty_initializable (U : ty) : bool := empty_initializable_in (facts ct) U.

(** [Base] is [Derived] or one of its bases. *)
Definition derives (Base Derived : string) : bool :=
  match facts ct Derived with
  | Some f => String.eqb Base Derived || existsb (String.eqb Base) (all_bases f)
  | None => false
  end.

(** [std::is_base_of_v<Base, Derived>]; cv-qualifiers are ignored. *)
Definition is_base_of (Base Derived : ty) : bool :=
  match remove_cv Base, remove_cv Derived with
  | TClass b, TClass d => derives b d
  | _, _ => false
  end.

(** [static_cast] from a pointer to [Derived] to a pointer to [Base]: the
    base class subobject is found, and there is only one. *)
Definition unambiguous_base (Base Derived : string) : bool :=
  String.eqb Base Derived
  || match facts ct Derived with
     | Some f => Nat.eqb (count_occ string_dec (all_bases f) Base) 1
     | None => false
     end.

End type_traits.

(** ** Overload resolution: the best viable candidate

    A candidate is a list with one entry per argument, saying how that
    argument is converted; [better] compares two conversions of one
    argument. *)

Section ranking.

Variable A : Type.
Variable better : A -> A -> bool.

Fixpoint none_worse (F G : list A) : bool :=
  match F, G with
  | a :: F', b :: G' => negb (better b a) && none_worse F' G'
  | _, _ => true
  end.

Fixpoint some_better (F G : list A) : bool :=
  match F, G with
  | a :: F', b :: G' => better a b || some_better F' G'
  | _, _ => false
  end.

(** [F] is a better candidate than [G]: no argument converts worse, and one
    converts better. *)
Definition better_candidate (F G : list A) : bool :=
  none_worse F G && some_better F G.

(** The viable candidate that is better than every other, if there is one;
    without it the call is ambiguous, or has no viable candidate at all. *)
Fixpoint best_of (before vs : list (list A)) : option (list A) :=
  match vs with
  | [] => None
  | F :: after =>
      if forallb (better_candidate F) before && forallb (better_candidate F) after
      then Some F
      else best_of (before ++ [F]) after
  end.

End ranking.

Arguments none_worse {A} better F G.
Arguments some_better {A} better F G.
Arguments better_candidate {A} better F G.
Arguments best_of {A} better before vs.

(** ** namespace refl *)

Module refl.

(** [tag<T, N>]: the key of one pair of friend functions. *)
Definition tag : Type := (ty * nat)%type.

Definition tag_eq_dec : forall a b : tag, {a = b} + {a <> b}.
Proof. decide equality. apply Nat.eq_dec. apply ty_eq_dec. Defined.

(** The friend functions defined so far in the translation unit:
    [loophole(tag<T, N>)] has a body returning [U{}] exactly for the
    entries of this list, in the order they were instantiated. *)
Definition loopholes : Type := list (tag * ty).

(** [decltype(loophole(tag<T, N>{}))]: the return type of the definition, if
    one has been instantiated. *)
Fixpoint loophole (st : loopholes) (t : tag) : option ty :=
  match st with
  | [] => None
  | (t', U) :: st' => if tag_eq_dec t t' then Some U else loophole st' t
  end.

(** [cloophole(tag<T, N>{})] is a constant expression iff it is defined. *)
Definition cloophole (st : loopholes) (t : tag) : bool :=
  match loophole st t with Some _ => true | None => false end.

(** The [enable_if] of the primary template [fn_def]. *)
Definition fn_def_enabled (T U : ty) : bool :=
  negb (is_same (remove_cv (remove_reference T)) (remove_cv (remove_reference U))).

(** Instantiating [fn_def<T, U, N, B>].  [None]: substitution failure of the
    defaulted fifth argument.  With [B = true] the empty specialisation is
    chosen and nothing is defined; with [B = false] the two friends of
    [tag<T, N>] get their bodies. *)
Definition fn_def (T U : ty) (N : nat) (B : bool) (st : loopholes) : option loopholes :=
  if fn_def_enabled T U then
    Some (if B then st else st ++ [((T, N), U)])
  else None.

(** [sizeof(ins<U, M>(0)) == sizeof(char)] in [c_op<T, N>]: the [int]
    overload is viable iff [cloophole(tag<T, M>{})] can be evaluated. *)
Definition ins (T U : ty) (M : nat) (st : loopholes) : bool :=
  cloophole st (T, M).

(** [c_op<T, N>::operator U()]: the conversion exists iff its defaulted
    template argument [sizeof(fn_def<T, U, N, ...>)] can be formed. *)
Definition c_op (T : ty) (N : nat) (U : ty) (st : loopholes) : option loopholes :=
  fn_def T U N (ins T U N st) st.


(** The SFINAE conditions of [fields_number] and [fields_number_ctor] ask
    the compiler whether [T{probes...}] and [T(probes...)] are well-formed.
    The answer is computed from the class table as overload resolution
    computes it: the candidates are taken in declaration order, a candidate
    of another arity is dropped before any probe is converted, and the
    probes are converted from left to right up to the first that fails.
    Every conversion of a probe goes through [c_op] above. *)

Section Discovery.

Variable ct : class_table.

(** The prvalue returned by a conversion function binds to a by-value
    parameter, to [const U&] and to [U&&], not to a non-const lvalue
    reference. *)
Definition binds_prvalue (P : ty) : bool :=
  match P with
  | TLRef (TConst (TVolatile _)) => false
  | TLRef (TConst _) => true
  | TLRef _ => false
  | _ => true
  end.

(** Implicit conversion of the probe [c_op<T, N>{}] to a parameter or member
    of type [P]: [U] of [operator U()] is deduced from [P] without its
    reference; the friend it defines returns [U] without cv-qualifiers.
    [None]: no specialisation of [operator U()] can be formed, and nothing
    is instantiated.  Otherwise the specialisation is instantiated, which
    defines the friend, and the flag tells whether its result binds to
    [P]. *)
Definition convert_probe (T : ty) (N : nat) (P : ty) (st : loopholes)
  : option (bool * loopholes) :=
  match c_op T N (remove_cv (remove_reference P)) st with
  | Some st' => Some (binds_prvalue P, st')
  | None => None
  end.

(** The probes [c_op<T, Ns>{}...] against one parameter list of the same
    length, left to right.  The conversions after one that fails are not
    attempted. *)
Fixpoint convert_args (T : ty) (Ns : list nat) (ps : list ty) (st : loopholes)
  : bool * loopholes :=
  match Ns, ps with
  | [], [] => (true, st)
  | N :: Ns', P :: ps' =>
      match convert_probe T N P st with
      | Some (true, st') => convert_args T Ns' ps' st'
      | Some (false, st') => (false, st')
      | None => (false, st)
      end
  | _, _ => (false, st)
  end.

(** Candidate constructors of [T(args...)]: the user-provided ones in
    declaration order, and the implicit copy and move constructors. *)
Definition candidates (T : ty) (d : class_decl) : list (list ty) :=
  ctors d ++ [[TLRef (TConst T)]; [TRRef T]].

(** The viable candidates, in order. *)
Fixpoint viable (T : ty) (Ns : list nat) (cands : list (list ty)) (st : loopholes)
  : list (list ty) * loopholes :=
  match cands with
  | [] => ([], st)
  | ps :: cands' =>
      if Nat.eqb (length ps) (length Ns) then
        let '(ok, st1) := convert_args T Ns ps st in
        let '(vs, st2) := viable T Ns cands' st1 in
        (if ok then ps :: vs else vs, st2)
      else viable T Ns cands' st
  end.

(** Ranking of two conversions of one probe.  Each is a user-defined
    conversion; one is better than the other only when both convert to the
    same type and bind a reference: an rvalue reference is better than an
    lvalue reference, and of two references of one kind the less
    cv-qualified is better. *)
Definition better_binding (P1 P2 : ty) : bool :=
  is_same (remove_cv (remove_reference P1)) (remove_cv (remove_reference P2))
  && match P1, P2 with
     | TRRef _, TLRef _ => true
     | TRRef R1, TRRef R2 => cv_lt R1 R2
     | TLRef R1, TLRef R2 => cv_lt R1 R2
     | _, _ => false
     end.

(** Is [T(c_op<T, Ns>{}...)] well-formed?  (the SFINAE condition of
    [fields_number_ctor(int)]) *)
Definition direct_init (T : ty) (Ns : list nat) (st : loopholes) : bool * loopholes :=
  match Ns with
  | [] => (is_default_constructible ct T, st)
  | _ =>
      match T with
      | TClass c =>
          match find_class ct c with
          | Some d =>
              let '(vs, st') := viable T Ns (candidates T d) st in
              (match best_of better_binding [] vs with
               | Some _ => true
               | None => false
               end, st')
          | None => (false, st)
          end
      | _ => (false, st)
      end
  end.

(** The elements of an aggregate: its direct bases, then its members. *)
Definition elements (d : class_decl) : list ty :=
  map TClass (bases d) ++ fields d.

(** Is [T{c_op<T, Ns>{}...}] well-formed?  (the SFINAE condition of
    [fields_number(int)]).  A class without user-provided constructors is an
    aggregate: the probes initialise its first elements, one each, and the
    elements left over are initialised from [{}].  Otherwise the constructors
    are tried. *)
Definition list_init (T : ty) (Ns : list nat) (st : loopholes) : bool * loopholes :=
  match T with
  | TClass c =>
      match find_class ct c with
      | Some d =>
          match ctors d with
          | [] =>
              if length Ns <=? length (elements d)
              then
                let '(ok, st') := convert_args T Ns (firstn (length Ns) (elements d)) st in
                (ok && forallb (empty_initializable ct) (skipn (length Ns) (elements d)), st')
              else (false, st)
          | _ => direct_init T Ns st
          end
      | None => (false, st)
      end
  | _ => direct_init T Ns st
  end.

(** [sizeof...(Ns) - 1] is computed in [size_t] and returned as [int]. *)
Definition size_t_sub (a b : Z) : Z := ((a - b) mod 2 ^ 64)%Z.
Definition to_int (z : Z) : Z := ((z + 2 ^ 31) mod 2 ^ 32 - 2 ^ 31)%Z.

(** [fields_number<T, Ns...>(0)].  The [int] overload is preferred when its
    return type can be formed; it recurses with one more probe.  The
    ellipsis overload ends the recursion.  [depth] is the compiler's
    template instantiation depth; [None] when it is exceeded. *)
Fixpoint fields_number (depth : nat) (T : ty) (Ns : list nat) (st : loopholes)
  : option Z * loopholes :=
  match depth with
  | O => (None, st)
  | S depth' =>
      let '(ok, st') := list_init T Ns st in
      if ok then fields_number depth' T (Ns ++ [length Ns]) st'
      else (Some (to_int (size_t_sub (Z.of_nat (length Ns)) 1)), st')
  end.

(** [fields_number_ctor<T, Ns...>(0)].  The [int] overload returns
    [sizeof...(Ns)] when [T(c_op<T, Ns>{}...)] is well-formed; otherwise the
    ellipsis overload recurses with one more probe.  Pack sizes stay far
    below [INT_MAX], so [sizeof...(Ns)] is kept as a [nat]. *)
Fixpoint fields_number_ctor (depth : nat) (T : ty) (Ns : list nat) (st : loopholes)
  : option nat * loopholes :=
  match depth with
  | O => (None, st)
  | S depth' =>
      let '(ok, st') := direct_init T Ns st in
      if ok then (Some (length Ns), st')
      else fields_number_ctor depth' T (Ns ++ [length Ns]) st'
  end.

(** [loophole_tuple<T, std::integer_sequence<int, Ns...>>::type]:
    [std::tuple<decltype(loophole(tag<T, Ns>{}))...>], ill-formed when one of
    the friends has no body yet. *)
Fixpoint loophole_tuple (T : ty) (Ns : list nat) (st : loopholes) : option (list ty) :=
  match Ns with
  | [] => Some []
  | N :: Ns' =>
      match loophole st (T, N), loophole_tuple T Ns' st with
      | Some U, Some Us => Some (U :: Us)
      | _, _ => None
      end
  end.

(** [as_tuple<T>]: [std::make_integer_sequence<int, n>] is [0, ..., n-1]. *)
Definition as_tuple (depth : nat) (T : ty) (st : loopholes) : option (list ty) * loopholes :=
  match fields_number_ctor depth T [] st with
  | (Some n, st') => (loophole_tuple T (seq 0 n) st', st')
  | (None, st') => (None, st')
  end.

(** [decltype(loophole(tag<T, N>{}))] deduces the return type from the body
    [return U{};], which is instantiated for it: forming the tuple is an
    error, outside any SFINAE context, when [U{}] is ill-formed for one of
    its elements. *)
Definition loophole_bodies (sig : list ty) : bool :=
  forallb (empty_initializable ct) sig.

End Discovery.

End refl.

(** ** Construction from handles

    [std::make_shared<T>(args...)] constructs the object by [T(args...)]:
    overload resolution among the constructors of [T].  The arguments the
    header passes are the elements of the tuple, lvalues of type
    [std::shared_ptr<Y>]. *)

Inductive binding : Type :=
| by_value
| to_lvalue_reference
| to_rvalue_reference.

(** An implicit conversion sequence. *)
Record conversion : Type := {
  user_defined : bool;   (* [false]: exact match; [true]: through a converting constructor *)
  target : ty;           (* the parameter type without reference and cv-qualifiers *)
  binds : binding;
  referred : ty;         (* the parameter type without its reference, cv-qualifiers included *)
  well_formed : bool     (* [false]: ambiguous; the call is ill-formed if its candidate is chosen *)
}.

Section handle_arguments.

Variable ct : class_table.

Definition binding_of (P : ty) : binding :=
  match P with
  | TLRef _ => to_lvalue_reference
  | TRRef _ => to_rvalue_reference
  | _ => by_value
  end.

Definition converts_to (P : ty) (user ok : bool) : conversion :=
  {| user_defined := user; target := remove_cv (remove_reference P);
     binds := binding_of P; referred := remove_reference P; well_formed := ok |}.

(** A standard conversion sequence from an lvalue of type
    [std::shared_ptr<Y>]: the parameter has this very type; an lvalue
    reference binds to the argument, a parameter passed by value is copied
    from it, an rvalue reference does not bind to it. *)
Definition standard_conversion (Y P : ty) : option conversion :=
  match P with
  | TRRef _ => None
  | _ =>
      if is_same (remove_cv (remove_reference P)) (TSharedPtr Y)
      then Some (converts_to P false true)
      else None
  end.

(** Two conversion sequences for one argument: an exact match is better
    than a user-defined conversion; two conversions of one kind to the same
    type are told apart by the reference they bind. *)
Definition better_conversion (a b : conversion) : bool :=
  (negb (user_defined a) && user_defined b)
  || Bool.eqb (user_defined a) (user_defined b)
     && is_same (target a) (target b)
     && match binds a, binds b with
        | to_rvalue_reference, to_lvalue_reference => true
        | to_lvalue_reference, to_lvalue_reference
        | to_rvalue_reference, to_rvalue_reference => cv_lt (referred a) (referred b)
        | _, _ => false
        end.

(** A pointer to [Y] converts to a pointer to [T]: then
    [std::shared_ptr<Y>] converts to [std::shared_ptr<T>]. *)
Definition pointer_converts (Y T : ty) : bool :=
  cv_le Y T
  && (is_same (remove_cv Y) (remove_cv T)
      || match remove_cv Y, remove_cv T with
         | TClass d, TClass b => derives ct b d && unambiguous_base ct b d
         | _, _ => false
         end).

(** A user-defined conversion of an lvalue of type [std::shared_ptr<Y>] to
    another type [Q], by a converting constructor of [Q]: whether it is
    unambiguous, when there is one. *)
Definition user_conversion (Y Q : ty) : option bool :=
  match Q with
  | TSharedPtr T => if pointer_converts Y T then Some true else None
  | TClass k =>
      match find_class ct k with
      | Some d =>
          let converting ps :=
            match ps with
            | [P] => match standard_conversion Y P with
                     | Some c => [[c]]
                     | None => []
                     end
            | _ => []
            end in
          match flat_map converting (ctors d) with
          | [] => None
          | cs =>
              Some match best_of better_conversion [] cs with
                   | Some _ => true
                   | None => false
                   end
          end
      | None => None
      end
  | _ => None
  end.

(** The implicit conversion sequence from an lvalue of type
    [std::shared_ptr<Y>] to the parameter type [P]; a user-defined
    conversion makes a temporary, to which [P] has to bind. *)
Definition handle_conversion (Y P : ty) : option conversion :=
  let Q := remove_cv (remove_reference P) in
  if is_same Q (TSharedPtr Y) then standard_conversion Y P
  else if refl.binds_prvalue P then
    match user_conversion Y Q with
    | Some ok => Some (converts_to P true ok)
    | None => None
    end
  else None.

(** One conversion per argument, when the candidate takes as many
    parameters as there are arguments and each argument converts. *)
Fixpoint handle_conversions (Ys ps : list ty) : option (list conversion) :=
  match Ys, ps with
  | [], [] => Some []
  | Y :: Ys', P :: ps' =>
      match handle_conversion Y P, handle_conversions Ys' ps' with
      | Some c, Some cs => Some (c :: cs)
      | _, _ => None
      end
  | _, _ => None
  end.

(** [std::is_constructible_v<T, std::shared_ptr<Ys>&...>] *)
Definition is_constructible_from_handles (T : ty) (Ys : list ty) : bool :=
  match Ys with
  | [] => is_default_constructible ct T
  | _ =>
      match T with
      | TClass c =>
          match find_class ct c with
          | Some d =>
              let viable ps :=
                match handle_conversions Ys ps with
                | Some cs => [cs]
                | None => []
                end in
              match best_of better_conversion [] (flat_map viable (refl.candidates T d)) with
              | Some F => forallb well_formed F
              | None => false
              end
          | None => false
          end
      | _ => false
      end
  end.

End handle_arguments.

(** ** namespace type_registry *)

Module type_registry.

(** The types [T] for which [loophole_t<T>] has been instantiated, that is
    for which [not_detected_in_di_container(tag_t<T>)] has a body. *)
Definition ledger : Type := list ty.

(** [set_type<T>()]: [sizeof(loophole_t<T>)] instantiates the class once. *)
Definition set_type (T : ty) (l : ledger) : ledger :=
  if in_dec ty_eq_dec T l then l else T :: l.

(** [check_type<T>()]: [decltype(not_detected_in_di_container(tag_t<T>()))]
    needs the deduced return type, hence the body. *)
Definition check_type (T : ty) (l : ledger) : bool :=
  if in_dec ty_eq_dec T l then true else false.

End type_registry.

(** ** namespace internal *)

Module internal.

Definition is_shared_ptr (T : ty) : bool :=
  match T with
  | TSharedPtr _ => true
  | _ => false
  end.

End internal.

(** ** class di *)

Module di.

(** *** Compile-time diagnostics *)

Inductive diagnostic : Type :=
| not_detected_in_di_container (T : ty)   (* [check_type<T>]: the friend of [tag_t<T>] has no body *)
| fail_type (CLASS_T ARGUMENT_T : ty)     (* the [static_assert] of [fail_type<CLASS_T, ARGUMENT_T>] *)
| no_matching_add (INTERFACE_T T : ty)    (* neither [enable_if] of [add<INTERFACE_T, T>] holds *)
| no_ctr_type (T : ty)                    (* [refl::as_tuple<T>] cannot be formed *)
| not_constructible (T : ty) (TUPLE_T : list ty)
                                          (* [std::make_shared<T>] finds no constructor for the tuple elements *)
| ambiguous_base (INTERFACE_T T : ty).    (* [std::static_pointer_cast<INTERFACE_T>]: more than one base subobject *)

(** The calls a client makes. *)
Inductive stmt : Type :=
| Add (INTERFACE_T T : ty)
| Add1 (T : ty)
| Get (T : ty).

(** *** Run-time data *)

(** [std::shared_ptr<T>]: null, or the address of an object built by
    [std::make_shared].  [std::static_pointer_cast] keeps the address. *)
Definition handle : Type := option nat.

(** An object on the heap: its most-derived class and the handles its
    constructor received. *)
Record object : Type := {
  class_of : ty;
  ctor_args : list handle
}.

(** [std::once_flag]: no call has returned yet, an active call is running
    the callable, or a call has returned. *)
Inductive once_flag : Type :=
| not_called
| active
| called.

(** The four lambdas [add] stores in [registry<INTERFACE_T>::constructor]. *)
Inductive factory : Type :=
| make_shared_self (T : ty)
| make_shared_cast (INTERFACE_T T : ty)
| from_tuple_self (INTERFACE_T : ty)
| from_tuple_cast (INTERFACE_T T : ty).

(** The class each lambda passes to [std::make_shared]. *)
Definition made_class (f : factory) : ty :=
  match f with
  | make_shared_self T => T
  | make_shared_cast _ T => T
  | from_tuple_self INTERFACE_T => INTERFACE_T
  | from_tuple_cast _ T => T
  end.

(** The static members of [registry<T>]; [constructor] is an empty
    [std::function] when [None]. *)
Record registry : Type := {
  flag : once_flag;
  obj : handle;
  constructor : option factory
}.

(** The whole mutable state: one [registry<T>] per type, and the heap.
    [evaluated] is a ghost log: the types whose stored factory has been
    called and has returned, oldest first. *)
Record state : Type := {
  statics : ty -> registry;
  heap : list object;
  evaluated : list ty
}.

(** Static initialisation. *)
Definition init : state :=
  {| statics := fun _ => {| flag := not_called; obj := None; constructor := None |};
     heap := [];
     evaluated := [] |}.

Definition set_registry (T : ty) (r : registry) (s : state) : state :=
  {| statics := fun X => if ty_eq_dec X T then r else statics s X;
     heap := heap s;
     evaluated := evaluated s |}.

Definition set_flag (T : ty) (fl : once_flag) (s : state) : state :=
  set_registry T {| flag := fl; obj := obj (statics s T);
                    constructor := constructor (statics s T) |} s.

Definition set_obj (T : ty) (p : handle) (s : state) : state :=
  set_registry T {| flag := flag (statics s T); obj := p;
                    constructor := constructor (statics s T) |} s.

Definition set_constructor (T : ty) (f : factory) (s : state) : state :=
  set_registry T {| flag := flag (statics s T); obj := obj (statics s T);
                    constructor := Some f |} s.

Definition log (T : ty) (s : state) : state :=
  {| statics := statics s; heap := heap s; evaluated := evaluated s ++ [T] |}.

(** How a call ends: it returns, it throws [std::bad_function_call] (raised
    by the empty [registry<T>::constructor]), it blocks forever on a
    [std::once_flag] whose callable is still running, or the evaluation
    budget of the model is used up. *)
Inductive outcome (A : Type) : Type :=
| returns (a : A)
| bad_function_call (T : ty)
| deadlock
| out_of_fuel.

Arguments returns {A} a.
Arguments bad_function_call {A} T.
Arguments deadlock {A}.
Arguments out_of_fuel {A}.

Definition comp (A : Type) : Type := state -> outcome A * state.

Definition bind {A B : Type} (c : comp A) (k : A -> comp B) : comp B :=
  fun s =>
    match c s with
    | (returns a, s') => k a s'
    | (bad_function_call T, s') => (bad_function_call T, s')
    | (deadlock, s') => (deadlock, s')
    | (out_of_fuel, s') => (out_of_fuel, s')
    end.

Definition ret {A : Type} (a : A) : comp A := fun s => (returns a, s).

Notation "x <- c ;; k" := (bind c (fun x => k))
  (at level 61, c at next level, right associativity).

(** [std::make_shared<T>(args...)]: a new object at the next address. *)
Definition make_shared (T : ty) (args : list handle) : comp handle :=
  fun s =>
    (returns (Some (length (heap s))),
     {| statics := statics s;
        heap := heap s ++ [{| class_of := T; ctor_args := args |}];
        evaluated := evaluated s |}).

(** Number of objects of class [T] constructed so far. *)
Definition constructed (T : ty) (s : state) : nat :=
  length (filter (fun o => is_same (class_of o) T) (heap s)).

Section Container.

Variable ct : class_table.
Variable depth : nat.       (* template instantiation depth of the compiler *)

(** [using ctr_type = refl::as_tuple<T>]: the alias is formed once per [T],
    and only the probes of [T] define friends of [tag<T, N>].  Forming it
    instantiates the bodies of the friends it reads. *)
Definition ctr_type (T : ty) : option (list ty) :=
  match fst (refl.as_tuple ct depth T []) with
  | Some TUPLE_T => if refl.loophole_bodies ct TUPLE_T then Some TUPLE_T else None
  | None => None
  end.

(** *** Run time *)

Section Resolve.

(** [registry<E>::get] of the enclosing recursion. *)
Variable registry_get : ty -> comp handle.

(** [construct_tuple_assign<BASE_T, N, TUPLE_T>]: the value stored in
    position [N].  The [else] branch does not compile ([fail_type]); the
    element would keep its default null value. *)
Definition construct_tuple_assign (T : ty) : comp handle :=
  match T with
  | TSharedPtr element_type => registry_get element_type
  | _ => ret None
  end.

(** [construct_tuple<BASE_T, 0, tuple_size>]: the braced list evaluates the
    assignments in index order. *)
Fixpoint construct_tuple (TUPLE_T : list ty) : comp (list handle) :=
  match TUPLE_T with
  | [] => ret []
  | T :: rest =>
      h <- construct_tuple_assign T ;;
      hs <- construct_tuple rest ;;
      ret (h :: hs)
  end.

(** [ctr_type args; construct_tuple<BASE_T, 0, size>(args);] then
    [make_shared_from_tuple<T>(args)].  Without a [ctr_type] the lambda does
    not compile. *)
Definition make_from_tuple (T BASE_T : ty) : comp handle :=
  match ctr_type BASE_T with
  | Some TUPLE_T =>
      args <- construct_tuple TUPLE_T ;;
      make_shared T args
  | None => make_shared T []
  end.

(** Calling the stored [std::function]. *)
Definition call (f : factory) : comp handle :=
  match f with
  | make_shared_self T => make_shared T []
  | make_shared_cast _ T => make_shared T []
  | from_tuple_self INTERFACE_T => make_from_tuple INTERFACE_T INTERFACE_T
  | from_tuple_cast _ T => make_from_tuple T T
  end.

(** *** The tuple, index by index

    The same lambdas with the tuple kept as an object that is written in
    place, as [construct_tuple] and [make_shared_from_tuple] are written. *)

(** [ctr_type args;]: every element value-initialised, a null handle. *)
Definition tuple_default (TUPLE_T : list ty) : list handle :=
  repeat None (length TUPLE_T).

(** [std::get<N>(tuple) = v] *)
Fixpoint tuple_set (N : nat) (v : handle) (tuple : list handle) : list handle :=
  match tuple, N with
  | [], _ => []
  | _ :: rest, O => v :: rest
  | x :: rest, S N' => x :: tuple_set N' v rest
  end.

(** [construct_tuple_assign<BASE_T, N, TUPLE_T>] with
    [T = std::tuple_element<N, TUPLE_T>::type], which is ill-formed for an
    index past the tuple: [None].  Otherwise what the call does to the
    tuple; the [else] branch has no effect at run time. *)
Definition construct_tuple_assign_at (TUPLE_T : list ty) (N : nat)
  : option (list handle -> comp (list handle)) :=
  match nth_error TUPLE_T N with
  | Some (TSharedPtr element_type) =>
      Some (fun tuple => h <- registry_get element_type ;; ret (tuple_set N h tuple))
  | Some _ => Some (fun tuple => ret tuple)
  | None => None
  end.

(** [construct_tuple<BASE_T, From>(tuple, std::index_sequence<indices...>)]:
    the braced list runs the assignments from left to right. *)
Fixpoint construct_tuple_indices (TUPLE_T : list ty) (indices : list nat)
  : option (list handle -> comp (list handle)) :=
  match indices with
  | [] => Some (fun tuple => ret tuple)
  | N :: rest =>
      match construct_tuple_assign_at TUPLE_T N, construct_tuple_indices TUPLE_T rest with
      | Some assign, Some go_on => Some (fun tuple => tuple' <- assign tuple ;; go_on tuple')
      | _, _ => None
      end
  end.

(** [To - From] on [std::size_t]: the difference, or, when [From] exceeds
    [To], what wraps around. *)
Definition size_t_difference (To From : nat) : Z :=
  if From <=? To then Z.of_nat (To - From)
  else (2 ^ 64 - Z.of_nat (From - To))%Z.

(** [construct_tuple<BASE_T, From, To>(tuple)]: the indices are those of
    [std::make_index_sequence<To - From>], that is [0, ..., To - From - 1].
    More indices than the tuple has elements do not compile; the header
    calls it with [From = 0] and [To] the size of the tuple. *)
Definition construct_tuple_range (TUPLE_T : list ty) (From To : nat)
  : option (list handle -> comp (list handle)) :=
  let count := size_t_difference To From in
  if (count <=? Z.of_nat (length TUPLE_T))%Z
  then construct_tuple_indices TUPLE_T (seq 0 (Z.to_nat count))
  else None.

(** [make_shared_from_tuple<T>(tuple)]: [std::get<indices>(tuple)...] over
    [std::make_index_sequence<std::tuple_size_v<TUPLE_T>>]. *)
Definition make_shared_from_tuple (T : ty) (tuple : list handle) : comp handle :=
  make_shared T (map (fun i => nth i tuple None) (seq 0 (length tuple))).

(** The body of the two tuple lambdas, statement by statement. *)
Definition from_tuple_body (T BASE_T : ty) : comp handle :=
  match ctr_type BASE_T with
  | Some TUPLE_T =>
      match construct_tuple_range TUPLE_T 0 (length TUPLE_T) with
      | Some fill =>
          args <- fill (tuple_default TUPLE_T) ;;
          make_shared_from_tuple T args
      | None => make_shared T []
      end
  | None => make_shared T []
  end.

End Resolve.

(** [registry<T>::get()]: [std::call_once(flag, []{ obj = constructor(); })]
    then [return obj].  An exception leaves the flag unset. *)
Fixpoint registry_get (fuel : nat) (T : ty) (s : state) : outcome handle * state :=
  match fuel with
  | O => (out_of_fuel, s)
  | S fuel' =>
      match flag (statics s T) with
      | called => (returns (obj (statics s T)), s)
      | active => (deadlock, s)
      | not_called =>
          match constructor (statics s T) with
          | None => (bad_function_call T, s)
          | Some f =>
              match call (registry_get fuel') f (set_flag T active s) with
              | (returns p, s') =>
                  let s'' := log T (set_flag T called (set_obj T p s')) in
                  (returns (obj (statics s'' T)), s'')
              | (bad_function_call E, s') =>
                  (bad_function_call E, set_flag T not_called s')
              | (deadlock, s') => (deadlock, s')
              | (out_of_fuel, s') => (out_of_fuel, s')
              end
          end
      end
  end.

(** [di::get<T>()] at run time ([check_type] has no run-time part). *)
Definition get (fuel : nat) (T : ty) : comp handle := registry_get fuel T.

(** [di::add<INTERFACE_T, T>()], default-constructible [T]. *)
Definition add_default (INTERFACE_T T : ty) (s : state) : state :=
  match constructor (statics s INTERFACE_T) with
  | Some _ => s
  | None =>
      if is_same T INTERFACE_T
      then set_constructor T (make_shared_self T) s
      else set_constructor INTERFACE_T (make_shared_cast INTERFACE_T T) s
  end.

(** [di::add<INTERFACE_T, T>()], [T] not default-constructible. *)
Definition add_discovered (INTERFACE_T T : ty) (s : state) : state :=
  match constructor (statics s INTERFACE_T) with
  | Some _ => s
  | None =>
      if is_same T INTERFACE_T
      then set_constructor INTERFACE_T (from_tuple_self INTERFACE_T) s
      else set_constructor INTERFACE_T (from_tuple_cast INTERFACE_T T) s
  end.

(** The shared part of the two [enable_if] conditions. *)
Definition implements (INTERFACE_T T : ty) : bool :=
  is_same INTERFACE_T T || is_base_of ct INTERFACE_T T.

(** [di::add<INTERFACE_T, T>()]: the overload whose [enable_if] holds.  With
    neither the call does not compile and nothing runs. *)
Definition add (INTERFACE_T T : ty) (s : state) : state :=
  if implements INTERFACE_T T then
    if is_default_constructible ct T
    then add_default INTERFACE_T T s
    else add_discovered INTERFACE_T T s
  else s.

(** [di::add<T>()] *)
Definition add1 (T : ty) (s : state) : state := add T T s.

(** *** Compile time *)

(** Instantiating [construct_tuple_assign<BASE_T, N, TUPLE_T>]: [if
    constexpr] keeps the [registry] branch or the [fail_type] branch. *)
Definition check_tuple_assign (BASE_T T : ty) : list diagnostic :=
  if internal.is_shared_ptr T then [] else [fail_type BASE_T T].

(** Instantiating [construct_tuple<BASE_T, 0, tuple_size>]. *)
Definition check_tuple (BASE_T : ty) (TUPLE_T : list ty) : list diagnostic :=
  flat_map (check_tuple_assign BASE_T) TUPLE_T.

(** The element types of a tuple of handles. *)
Fixpoint element_types (TUPLE_T : list ty) : option (list ty) :=
  match TUPLE_T with
  | [] => Some []
  | TSharedPtr Y :: rest => option_map (cons Y) (element_types rest)
  | _ => None
  end.

(** Instantiating [make_shared_from_tuple<T>]: [std::get<indices>(tuple)]
    of the lvalue [tuple] are lvalues, from which [std::make_shared<T>]
    constructs the object.  With an element that is not a handle the build
    has failed in [construct_tuple_assign]; what [std::make_shared] makes of
    such an element is left out. *)
Definition check_make_shared (T : ty) (TUPLE_T : list ty) : list diagnostic :=
  match element_types TUPLE_T with
  | Some Ys =>
      if is_constructible_from_handles ct T Ys then [] else [not_constructible T TUPLE_T]
  | None => []
  end.

(** Instantiating [std::static_pointer_cast<INTERFACE_T>] on a
    [std::shared_ptr<T>]; [add] casts when the two types differ. *)
Definition check_pointer_cast (INTERFACE_T T : ty) : list diagnostic :=
  if is_same T INTERFACE_T then []
  else
    match remove_cv INTERFACE_T, remove_cv T with
    | TClass b, TClass d =>
        if unambiguous_base ct b d then [] else [ambiguous_base INTERFACE_T T]
    | _, _ => []
    end.

(** Instantiating [add<INTERFACE_T, T>]: the [enable_if] conditions choose
    the overload, whose body is then instantiated with its lambda. *)
Definition instantiate_add (INTERFACE_T T : ty) (l : type_registry.ledger)
  : list diagnostic * type_registry.ledger :=
  if implements INTERFACE_T T then
    if is_default_constructible ct T
    then (check_pointer_cast INTERFACE_T T, type_registry.set_type INTERFACE_T l)
    else
      (match ctr_type T with
       | Some TUPLE_T =>
           check_tuple T TUPLE_T ++ check_make_shared T TUPLE_T
           ++ check_pointer_cast INTERFACE_T T
       | None => [no_ctr_type T]
       end,
       type_registry.set_type INTERFACE_T l)
  else ([no_matching_add INTERFACE_T T], l).

(** Instantiating [add<T>]. *)
Definition instantiate_add1 (T : ty) (l : type_registry.ledger)
  : list diagnostic * type_registry.ledger :=
  instantiate_add T T (type_registry.set_type T l).

(** Instantiating [get<T>]. *)
Definition instantiate_get (T : ty) (l : type_registry.ledger)
  : list diagnostic * type_registry.ledger :=
  (if type_registry.check_type T l then [] else [not_detected_in_di_container T], l).

Definition instantiate (c : stmt) (l : type_registry.ledger)
  : list diagnostic * type_registry.ledger :=
  match c with
  | Add INTERFACE_T T => instantiate_add INTERFACE_T T l
  | Add1 T => instantiate_add1 T l
  | Get T => instantiate_get T l
  end.

(** The diagnostics of a translation unit that instantiates the calls of
    [p] in order. *)
Fixpoint translate (p : list stmt) (l : type_registry.ledger) : list diagnostic :=
  match p with
  | [] => []
  | c :: p' =>
      let '(d, l') := instantiate c l in
      d ++ translate p' l'
  end.

(** *** Programs at run time *)

Definition exec (fuel : nat) (c : stmt) : comp unit :=
  match c with
  | Add INTERFACE_T T => fun s => (returns tt, add INTERFACE_T T s)
  | Add1 T => fun s => (returns tt, add1 T s)
  | Get T => _ <- get fuel T ;; ret tt
  end.

(** The calls of [p] in order; an exception or a deadlock ends the run. *)
Fixpoint run (fuel : nat) (p : list stmt) : comp unit :=
  match p with
  | [] => ret tt
  | c :: p' => _ <- exec fuel c ;; run fuel p'
  end.

End Container.

End di.

(** ** A sample client

    [struct Logger {};]
    [struct IService {};  struct Service : IService { Service(std::shared_ptr<Logger>); };]
    [struct Pair { std::shared_ptr<Logger> first; std::shared_ptr<Service> second; };]
    [struct Counter { Counter(int); };]
    [struct IShape {};  struct Circle : IShape {};  struct Square : IShape {};]
    [struct Ping { Ping(std::shared_ptr<Pong>); };  struct Pong { Pong(std::shared_ptr<Ping>); };]
    [struct Widget { Widget(std::shared_ptr<Logger>);
                     Widget(std::shared_ptr<Logger>, std::shared_ptr<Service>); };]
    [struct Holder { Service service; };]
    [struct Wide { Wide(std::shared_ptr<Service>, std::shared_ptr<Logger>);
                   Wide(std::shared_ptr<Logger>); };]
    [struct Keeper { Keeper(std::shared_ptr<Logger>&);  Keeper(std::shared_ptr<Service>); };]
    [struct Owner { Owner(Service); };]
    [struct Taker { Taker(std::shared_ptr<Logger>&&); };] *)

Module sample.

Definition Logger : ty := TClass "Logger".
Definition IService : ty := TClass "IService".
Definition Service : ty := TClass "Service".
Definition Pair : ty := TClass "Pair".
Definition Counter : ty := TClass "Counter".
Definition IShape : ty := TClass "IShape".
Definition Circle : ty := TClass "Circle".
Definition Ping : ty := TClass "Ping".
Definition Pong : ty := TClass "Pong".
Definition Widget : ty := TClass "Widget".
Definition Holder : ty := TClass "Holder".
Definition Wide : ty := TClass "Wide".
Definition Keeper : ty := TClass "Keeper".
Definition Owner : ty := TClass "Owner".
Definition Taker : ty := TClass "Taker".

Definition plain : class_decl := {| bases := []; ctors := []; fields := [] |}.

Definition with_ctors (cs : list (list ty)) : class_decl :=
  {| bases := []; ctors := cs; fields := [] |}.

(** The declarations, the last one first. *)
Definition classes : class_table :=
  [ ("Taker", with_ctors [[TRRef (TSharedPtr Logger)]]);
    ("Owner", with_ctors [[Service]]);
    ("Keeper", with_ctors [[TLRef (TSharedPtr Logger)]; [TSharedPtr Service]]);
    ("Wide", with_ctors [[TSharedPtr Service; TSharedPtr Logger]; [TSharedPtr Logger]]);
    ("Holder", {| bases := []; ctors := []; fields := [Service] |});
    ("Widget", with_ctors [[TSharedPtr Logger]; [TSharedPtr Logger; TSharedPtr Service]]);
    ("Pong", with_ctors [[TSharedPtr Ping]]);
    ("Ping", with_ctors [[TSharedPtr Pong]]);
    ("Square", {| bases := ["IShape"]; ctors := []; fields := [] |});
    ("Circle", {| bases := ["IShape"]; ctors := []; fields := [] |});
    ("IShape", plain);
    ("Counter", with_ctors [[TInt]]);
    ("Pair", {| bases := []; ctors := [];
                fields := [TSharedPtr Logger; TSharedPtr Service] |});
    ("Service", {| bases := ["IService"]; ctors := [[TSharedPtr Logger]]; fields := [] |});
    ("IService", plain);
    ("Logger", plain) ]%string.

(** Template instantiation depth used for the sample. *)
Definition template_depth : nat := 16.

End sample.
(** * Specification vocabulary *)

(** ** The registry: how a state evolves *)

(** Unfolds the state updates and decides the type comparisons they made. *)
Ltac st_simpl :=
  intros;
  unfold di.log, di.set_flag, di.set_obj, di.set_constructor, di.set_registry;
  simpl;
  repeat match goal with
         | |- context [ty_eq_dec ?a ?b] => destruct (ty_eq_dec a b); subst; simpl
         end;
  try congruence; try reflexivity.

Ltac st_full :=
  intros;
  unfold di.log, di.set_flag, di.set_obj, di.set_constructor, di.set_registry in *;
  simpl in *;
  repeat match goal with
         | |- context [ty_eq_dec ?a ?b] => destruct (ty_eq_dec a b); subst; simpl in *
         | H : context [ty_eq_dec ?a ?b] |- _ => destruct (ty_eq_dec a b); subst; simpl in *
         end;
  try congruence; try reflexivity.

Ltac st_simpl_in H :=
  unfold di.log, di.set_flag, di.set_obj, di.set_constructor, di.set_registry in H;
  simpl in H;
  repeat match type of H with
         | context [ty_eq_dec ?a ?b] => destruct (ty_eq_dec a b); subst; simpl in H
         end;
  try congruence.

(** What no call of [registry<T>::get] ever undoes. *)
Record extends (s s' : di.state) : Prop := {
  ext_heap : exists l, di.heap s' = di.heap s ++ l;
  ext_log : exists l, di.evaluated s' = di.evaluated s ++ l;
  ext_constructor :
    forall X, di.constructor (di.statics s' X) = di.constructor (di.statics s X);
  ext_called :
    forall X, di.flag (di.statics s X) = di.called ->
              di.flag (di.statics s' X) = di.called
              /\ di.obj (di.statics s' X) = di.obj (di.statics s X);
  ext_active :
    forall X, di.flag (di.statics s X) = di.active ->
              di.flag (di.statics s' X) = di.active
}.

(** The value of an outcome forgotten. *)
Definition forget {A : Type} (r : di.outcome A) : di.outcome unit :=
  match r with
  | di.returns _ => di.returns tt
  | di.bad_function_call T => di.bad_function_call T
  | di.deadlock => di.deadlock
  | di.out_of_fuel => di.out_of_fuel
  end.

(** The tuple a stored lambda fills before it calls [std::make_shared]. *)
Definition tuple_of (ct : class_table) (depth : nat) (f : di.factory) : list ty :=
  match f with
  | di.make_shared_self _ | di.make_shared_cast _ _ => []
  | di.from_tuple_self T | di.from_tuple_cast _ T =>
      match di.ctr_type ct depth T with
      | Some l => l
      | None => []
      end
  end.

(** The outcomes after which the caller goes on: a return, or an exception
    it may catch. *)
Definition settled {A : Type} (r : di.outcome A) : Prop :=
  match r with
  | di.returns _ | di.bad_function_call _ => True
  | di.deadlock | di.out_of_fuel => False
  end.

(** What holds of every state the container can be in: a set flag comes
    with a stored object of the class its factory makes, no two registries
    share their object, and the log has each type at most once. *)
Record consistent (s : di.state) : Prop := {
  cons_obj :
    forall X, di.flag (di.statics s X) = di.called ->
      exists a f o,
        di.obj (di.statics s X) = Some a
        /\ di.constructor (di.statics s X) = Some f
        /\ nth_error (di.heap s) a = Some o
        /\ di.class_of o = di.made_class f;
  cons_inj :
    forall X Y, di.flag (di.statics s X) = di.called ->
                di.flag (di.statics s Y) = di.called ->
                di.obj (di.statics s X) = di.obj (di.statics s Y) -> X = Y;
  cons_nodup : NoDup (di.evaluated s);
  cons_log : forall X, In X (di.evaluated s) -> di.flag (di.statics s X) = di.called
}.

(** [registry<X>::get] would call the stored factory of [X]. *)
Definition pending (s : di.state) (X : ty) : bool :=
  match di.flag (di.statics s X), di.constructor (di.statics s X) with
  | di.not_called, Some _ => true
  | _, _ => false
  end.

(** Every type with a stored factory is listed in [ks]. *)
Definition bound_within (ks : list ty) (s : di.state) : Prop :=
  forall X, di.constructor (di.statics s X) <> None -> In X ks.

(** [needs s T X]: resolving [T] may resolve [X], through the tuples of the
    factories stored in [s]. *)
Inductive needs (ct : class_table) (depth : nat) (s : di.state) : ty -> ty -> Prop :=
| needs_refl (T : ty) : needs ct depth s T T
| needs_step (T E X : ty) (f : di.factory) :
    di.constructor (di.statics s T) = Some f ->
    In (TSharedPtr E) (tuple_of ct depth f) ->
    needs ct depth s E X ->
    needs ct depth s T X.

(** [later s s']: the client reaches [s'] from [s] by calls of [add] and
    [get], in any order and number.  It goes on after a call of [get] that
    returned or threw; after one that blocks there is no later. *)
Inductive later (ct : class_table) (depth : nat) (s : di.state) : di.state -> Prop :=
| later_refl : later ct depth s s
| later_add (s' : di.state) (INTERFACE_T T : ty) :
    later ct depth s s' -> later ct depth s (di.add ct INTERFACE_T T s')
| later_get (s' : di.state) (fuel : nat) (T : ty) :
    later ct depth s s' ->
    settled (fst (di.get ct depth fuel T s')) ->
    later ct depth s (snd (di.get ct depth fuel T s')).

(** "No run-time error path", as it is tested against the code: the calls
    of a program are instantiated in the order [text] and run in the order
    [order]; if the program compiles, a call of [get<T>] made after the calls
    before it have returned does not throw and does not return null. *)
Definition no_runtime_error (ct : class_table) (depth : nat) : Prop :=
  forall (text order pre post : list di.stmt) (T : ty) (fuel : nat) (s : di.state),
    di.translate ct depth text [] = [] ->
    Permutation text order ->
    order = pre ++ di.Get T :: post ->
    di.run ct depth fuel pre di.init = (di.returns tt, s) ->
    match fst (di.get ct depth fuel T s) with
    | di.returns (Some _) => True
    | di.returns None => False
    | di.bad_function_call _ => False
    | di.deadlock => True
    | di.out_of_fuel => True
    end.

(** [X] is on a dependency cycle: a type in the tuple of its factory needs
    [X] again. *)
Definition cyclic (ct : class_table) (depth : nat) (s : di.state) (X : ty) : Prop :=
  exists f E,
    di.constructor (di.statics s X) = Some f
    /\ In (TSharedPtr E) (tuple_of ct depth f)
    /\ needs ct depth s E X.

(** The lambda [add] stores for a class is chosen by
    [std::is_default_constructible_v]. *)
Definition kind_ok (ct : class_table) (f : di.factory) : bool :=
  match f with
  | di.make_shared_self T | di.make_shared_cast _ T => is_default_constructible ct T
  | di.from_tuple_self T | di.from_tuple_cast _ T => negb (is_default_constructible ct T)
  end.

Definition well_kinded (ct : class_table) (s : di.state) : Prop :=
  forall X f, di.constructor (di.statics s X) = Some f -> kind_ok ct f = true.

(** A call of [add]. *)
Definition is_add (c : di.stmt) : Prop :=
  match c with
  | di.Get _ => False
  | _ => True
  end.

(** The call instantiates an [add] that marks [T] in the ledger. *)
Definition registers (c : di.stmt) (T : ty) : Prop :=
  match c with
  | di.Add INTERFACE_T _ => INTERFACE_T = T
  | di.Add1 T' => T' = T
  | di.Get _ => False
  end.

(** The compiler's verdict on [T(c_op<T, 0>{}, ..., c_op<T, n-1>{})]. *)
Definition constructible (ct : class_table) (T : ty) (n : nat) : bool :=
  fst (refl.direct_init ct T (seq 0 n) []).

(** The compiler's verdict on [T{c_op<T, 0>{}, ..., c_op<T, n-1>{}}]. *)
Definition brace_initializable (ct : class_table) (T : ty) (n : nat) : bool :=
  fst (refl.list_init ct T (seq 0 n) []).

(** Every friend defined so far returns a type that passed the [enable_if]
    of [fn_def]. *)
Definition sound (st : refl.loopholes) : Prop :=
  forall T N U, In ((T, N), U) st -> refl.fn_def_enabled T U = true.

(** C7 as it is worded: the result of [fields_number] is the largest probe
    count at which list-initialisation succeeds, minus one. *)
Definition fields_number_as_stated (ct : class_table) (depth : nat) (T : ty) : Prop :=
  forall r st' m,
    refl.fields_number ct depth T [] [] = (Some r, st') ->
    brace_initializable ct T m = true ->
    (forall j, m < j -> brace_initializable ct T j = false) ->
    r = (Z.of_nat m - 1)%Z.

(** C8 as it is worded: a handle parameter is resolved by
    [get<ElementType>()], the call whose instantiation checks the ledger; so
    an element type that the ledger lacks when the factory is instantiated
    fails the build. *)
Definition resolved_through_get (ct : class_table) (depth : nat) : Prop :=
  forall (Interface T : ty) (l : type_registry.ledger) (sig : list ty) (E : ty),
    di.implements ct Interface T = true ->
    di.ctr_type ct depth T = Some sig ->
    In (TSharedPtr E) sig ->
    type_registry.check_type E (snd (di.instantiate_add ct depth Interface T l)) = false ->
    In (di.not_detected_in_di_container E)
       (fst (di.instantiate_add ct depth Interface T l)).

(** A friend, once defined, keeps its return type. *)
Definition grows (st st' : refl.loopholes) : Prop :=
  forall t U, refl.loophole st t = Some U -> refl.loophole st' t = Some U.

(** What a filled tuple position holds: for [std::shared_ptr<E>] the cached
    singleton of [E]; any other position keeps its default null value. *)
Definition holds (s : di.state) (P : ty) (h : di.handle) : Prop :=
  match P with
  | TSharedPtr E => di.flag (di.statics s E) = di.called /\ di.obj (di.statics s E) = h
  | _ => h = None
  end.

(** Every handle of the list points below address [a]. *)
Definition below (a : nat) (hs : list di.handle) : Prop :=
  forall h b, In h hs -> h = Some b -> b < a.

(** How the objects on the heap hang together: each cached object was made
    from the singletons of the element types of its class's tuple, which
    were made before it; and every object on the heap is the cached object
    of some registry. *)
Record wired (ct : class_table) (depth : nat) (s : di.state) : Prop := {
  wired_args :
    forall X f a o,
      di.flag (di.statics s X) = di.called ->
      di.constructor (di.statics s X) = Some f ->
      di.obj (di.statics s X) = Some a ->
      nth_error (di.heap s) a = Some o ->
      Forall2 (holds s) (tuple_of ct depth f) (di.ctor_args o)
      /\ below a (di.ctor_args o);
  wired_owned :
    forall a, a < length (di.heap s) ->
      exists X, di.flag (di.statics s X) = di.called
                /\ di.obj (di.statics s X) = Some a
}.

(** A probe converts to a parameter or member of type [P] of class [T]: the
    returned prvalue binds, and the deduced [U] passes the [enable_if]. *)
Definition probe_converts (T P : ty) : bool :=
  refl.binds_prvalue P
  && refl.fn_def_enabled T (remove_cv (remove_reference P)).

(** Two stores define the same friends for the tags of [T]. *)
Definition same_tags (T : ty) (st st0 : refl.loopholes) : Prop :=
  forall N, refl.loophole st (T, N) = refl.loophole st0 (T, N).

(** The friends of the tags of [T] return the listed types, index by index. *)
Definition agrees (T : ty) (Us : list ty) (st : refl.loopholes) : Prop :=
  forall i U, refl.loophole st (T, i) = Some U -> nth_error Us i = Some U.

(** The tuple after the assignments to its first positions: a position of
    type [std::shared_ptr] holds the handle assigned to it, any other
    position what it held before. *)
Fixpoint written (TUPLE_T : list ty) (hs old : list di.handle) : list di.handle :=
  match TUPLE_T, hs, old with
  | P :: TUPLE_T', h :: hs', o :: old' =>
      (if internal.is_shared_ptr P then h else o) :: written TUPLE_T' hs' old'
  | _, _, _ => []
  end.

(** The result of a computation with its value mapped. *)
Definition map_result {A B : Type} (f : A -> B) (r : di.outcome A * di.state)
  : di.outcome B * di.state :=
  match r with
  | (di.returns a, s) => (di.returns (f a), s)
  | (di.bad_function_call T, s) => (di.bad_function_call T, s)
  | (di.deadlock, s) => (di.deadlock, s)
  | (di.out_of_fuel, s) => (di.out_of_fuel, s)
  end.
(** * Verification *)

Lemma is_same_true (a b : ty) : is_same a b = true <-> a = b.
Proof. unfold is_same. destruct (ty_eq_dec a b); split; congruence. Qed.

Lemma is_same_false (a b : ty) : is_same a b = false <-> a <> b.
Proof. unfold is_same. destruct (ty_eq_dec a b); split; congruence. Qed.

Lemma is_same_refl (a : ty) : is_same a a = true.
Proof. now apply is_same_true. Qed.

Lemma extends_refl (s : di.state) : extends s s.
Proof.
  split; auto; exists []; now rewrite app_nil_r.
Qed.

Lemma extends_trans (s1 s2 s3 : di.state) :
  extends s1 s2 -> extends s2 s3 -> extends s1 s3.
Proof.
  intros [[l1 H1] [e1 L1] C1 D1 A1] [[l2 H2] [e2 L2] C2 D2 A2]. split.
  - exists (l1 ++ l2). now rewrite H2, H1, app_assoc.
  - exists (e1 ++ e2). now rewrite L2, L1, app_assoc.
  - intro X. now rewrite C2, C1.
  - intros X HX. destruct (D1 X HX) as [F O].
    destruct (D2 X F) as [F' O']. split; congruence.
  - intros X HX. auto.
Qed.

Lemma make_shared_extends (T : ty) (args : list di.handle) (s : di.state) :
  extends s (snd (di.make_shared T args s)).
Proof.
  split; simpl; auto.
  - eauto.
  - exists []. now rewrite app_nil_r.
Qed.

(** Closing a call of [registry<T>::get] that found the flag unset: whatever
    is then written to [registry<T>] keeps the order. *)
Lemma extends_close (T : ty) (s s' s'' : di.state) :
  di.flag (di.statics s T) = di.not_called ->
  extends (di.set_flag T di.active s) s' ->
  (exists l, di.heap s'' = di.heap s' ++ l) ->
  (exists l, di.evaluated s'' = di.evaluated s' ++ l) ->
  (forall X, X <> T -> di.statics s'' X = di.statics s' X) ->
  di.constructor (di.statics s'' T) = di.constructor (di.statics s' T) ->
  extends s s''.
Proof.
  intros HT [[l H] [e L] C D A] [l' Hh] [e' Hl] Ho Hc. split.
  - exists (l ++ l'). rewrite Hh, H. simpl. now rewrite app_assoc.
  - exists (e ++ e'). rewrite Hl, L. simpl. now rewrite app_assoc.
  - intro X. destruct (ty_eq_dec X T) as [->|n].
    + rewrite Hc, C. st_simpl.
    + rewrite (Ho X n), C. st_simpl.
  - intros X HX. assert (X <> T) by congruence.
    rewrite (Ho X H0). specialize (D X). st_simpl_in D. auto.
  - intros X HX. assert (X <> T) by congruence.
    rewrite (Ho X H0). specialize (A X). st_simpl_in A. auto.
Qed.

Lemma call_unfold ct depth g f s :
  di.call ct depth g f s =
  di.bind (di.construct_tuple g (tuple_of ct depth f))
          (fun args => di.make_shared (di.made_class f) args) s.
Proof.
  destruct f; simpl; try reflexivity;
    unfold di.make_from_tuple; destruct (di.ctr_type ct depth _); reflexivity.
Qed.

Section Tuple.

Variable g : ty -> di.comp di.handle.

(** A postcondition on how filling the tuple ends; the tuple is filled on
    from a state that satisfies it at [returns]. *)
Variable Q : di.outcome unit -> di.state -> Prop.

Lemma construct_tuple_post (l : list ty) :
  (forall E s, In (TSharedPtr E) l -> Q (di.returns tt) s ->
               Q (forget (fst (g E s))) (snd (g E s))) ->
  forall s, Q (di.returns tt) s ->
            Q (forget (fst (di.construct_tuple g l s)))
              (snd (di.construct_tuple g l s)).
Proof.
  induction l as [|P l IH]; intros Hg s H; simpl; auto.
  assert (H1 : Q (forget (fst (di.construct_tuple_assign g P s)))
                 (snd (di.construct_tuple_assign g P s))).
  { destruct P; simpl; auto. apply Hg; simpl; auto. }
  unfold di.bind.
  destruct (di.construct_tuple_assign g P s) as [[h| | |] s1]; simpl in H1 |- *; auto.
  assert (H2 := IH (fun E s0 HE => Hg E s0 (or_intror HE)) s1 H1).
  destruct (di.construct_tuple g l s1) as [[hs| | |] s2]; simpl in H2 |- *; auto.
Qed.

End Tuple.

Lemma settled_forget {A : Type} (r : di.outcome A) : settled (forget r) <-> settled r.
Proof. destruct r; simpl; tauto. Qed.

Lemma consistent_init : consistent di.init.
Proof.
  split; simpl; try discriminate; try contradiction. constructor.
Qed.

Lemma consistent_set_flag (T : ty) (fl : di.once_flag) (s : di.state) :
  consistent s -> di.flag (di.statics s T) <> di.called -> fl <> di.called ->
  consistent (di.set_flag T fl s).
Proof.
  intros [O J N L] HT Hfl. split.
  - intros X. st_full. now apply O.
  - intros X Y. st_full. now apply J.
  - exact N.
  - intros X HX. specialize (L X HX). st_full.
Qed.

Lemma consistent_make_shared (T : ty) (args : list di.handle) (s : di.state) :
  consistent s -> consistent (snd (di.make_shared T args s)).
Proof.
  intros [O J N L]. split; simpl; auto.
  intros X HX. destruct (O X HX) as (a & f & o & H1 & H2 & H3 & H4).
  exists a, f, o. repeat split; auto.
  rewrite nth_error_app1; auto. apply nth_error_Some. congruence.
Qed.

(** Storing the object just made: its address is past every stored one. *)
Lemma consistent_store (T : ty) (f : di.factory) (args : list di.handle) (s : di.state) :
  consistent s ->
  di.flag (di.statics s T) = di.active ->
  di.constructor (di.statics s T) = Some f ->
  consistent
    (di.log T (di.set_flag T di.called
       (di.set_obj T (Some (length (di.heap s)))
          (snd (di.make_shared (di.made_class f) args s))))).
Proof.
  intros [O J N L] F C.
  assert (B : forall X a, di.flag (di.statics s X) = di.called ->
                          di.obj (di.statics s X) = Some a -> a < length (di.heap s)).
  { intros X a HX Ha. destruct (O X HX) as (a' & _ & o & H1 & _ & H3 & _).
    apply nth_error_Some. congruence. }
  split.
  - intros X. st_full.
    + exists (length (di.heap s)), f, {| di.class_of := di.made_class f; di.ctor_args := args |}.
      repeat split; auto.
      rewrite nth_error_app2, Nat.sub_diag; auto.
    + destruct (O X H) as (a & f' & o & H1 & H2 & H3 & H4).
      exists a, f', o. repeat split; auto.
      rewrite nth_error_app1; auto. apply nth_error_Some. congruence.
  - intros X Y. st_full.
    + symmetry in H1. apply B in H1; auto. lia.
    + apply B in H1; auto. lia.
    + now apply J.
  - simpl. apply NoDup_app; auto.
    + constructor; [intros []|constructor].
    + intros X HX [<-|[]]. apply L in HX. congruence.
  - intros X. simpl. rewrite in_app_iff. intros HX. st_simpl.
    destruct HX as [HX|[<-|[]]]; auto; congruence.
Qed.

Section Registry.

Variable ct : class_table.

Variable depth : nat.

Local Abbreviation registry_get := (di.registry_get ct depth).

(** One unfolding of [registry<T>::get] on an unset flag with a stored
    factory. *)
Lemma registry_get_unfold (fuel : nat) (T : ty) (s : di.state) (f : di.factory) :
  di.flag (di.statics s T) = di.not_called ->
  di.constructor (di.statics s T) = Some f ->
  registry_get (S fuel) T s =
  match di.construct_tuple (registry_get fuel) (tuple_of ct depth f)
          (di.set_flag T di.active s) with
  | (di.returns args, s2) =>
      let s' := snd (di.make_shared (di.made_class f) args s2) in
      let p := Some (length (di.heap s2)) in
      (di.returns p, di.log T (di.set_flag T di.called (di.set_obj T p s')))
  | (di.bad_function_call E, s2) =>
      (di.bad_function_call E, di.set_flag T di.not_called s2)
  | (di.deadlock, s2) => (di.deadlock, s2)
  | (di.out_of_fuel, s2) => (di.out_of_fuel, s2)
  end.
Proof.
  intros F C. simpl. rewrite F, C.
  rewrite call_unfold. unfold di.bind.
  destruct (di.construct_tuple _ _ _) as [[args| | |] s2]; simpl; try reflexivity.
  st_simpl.
Qed.

Lemma registry_get_extends (fuel : nat) :
  forall T s, extends s (snd (registry_get fuel T s)).
Proof.
  induction fuel as [|fuel IH]; intros T s.
  - apply extends_refl.
  - destruct (di.flag (di.statics s T)) eqn:F.
    2,3: simpl; rewrite F; apply extends_refl.
    destruct (di.constructor (di.statics s T)) as [f|] eqn:C.
    2: simpl; rewrite F, C; apply extends_refl.
    rewrite (registry_get_unfold fuel T s f F C).
    pose proof (construct_tuple_post (registry_get fuel)
                  (fun _ => extends (di.set_flag T di.active s)) (tuple_of ct depth f)) as H.
    simpl in H. specialize (H (fun E s0 _ H0 => extends_trans _ _ _ H0 (IH E s0))
                              _ (extends_refl _)).
    destruct (di.construct_tuple _ _ _) as [[args| | |] s2]; simpl in H |- *.
    + eapply extends_close; [exact F | exact H | | | | ]; st_simpl.
      * eexists; reflexivity.
      * eexists; reflexivity.
    + eapply extends_close; [exact F | exact H | | | | ]; st_simpl.
      all: exists []; now rewrite app_nil_r.
    + eapply extends_close; [exact F | exact H | | | | ]; st_simpl.
      all: exists []; now rewrite app_nil_r.
    + eapply extends_close; [exact F | exact H | | | | ]; st_simpl.
      all: exists []; now rewrite app_nil_r.
Qed.

Lemma registry_get_called (fuel : nat) (T : ty) (s : di.state) :
  di.flag (di.statics s T) = di.called ->
  registry_get (S fuel) T s = (di.returns (di.obj (di.statics s T)), s).
Proof. intro F. simpl. now rewrite F. Qed.

Lemma registry_get_active (fuel : nat) (T : ty) (s : di.state) :
  di.flag (di.statics s T) = di.active ->
  registry_get (S fuel) T s = (di.deadlock, s).
Proof. intro F. simpl. now rewrite F. Qed.

Lemma registry_get_empty (fuel : nat) (T : ty) (s : di.state) :
  di.flag (di.statics s T) = di.not_called ->
  di.constructor (di.statics s T) = None ->
  registry_get (S fuel) T s = (di.bad_function_call T, s).
Proof. intros F C. simpl. now rewrite F, C. Qed.

Lemma construct_tuple_extends (fuel : nat) (l : list ty) (s : di.state) :
  extends s (snd (di.construct_tuple (registry_get fuel) l s)).
Proof.
  apply (construct_tuple_post (registry_get fuel) (fun _ => extends s) l).
  - intros E s0 _ H0. eapply extends_trans; [exact H0 | apply registry_get_extends].
  - apply extends_refl.
Qed.

(** A call that returns leaves the flag set and returns the stored handle. *)
Lemma registry_get_returns (fuel : nat) (T : ty) (s s' : di.state) (p : di.handle) :
  registry_get fuel T s = (di.returns p, s') ->
  di.flag (di.statics s' T) = di.called /\ di.obj (di.statics s' T) = p.
Proof.
  destruct fuel as [|fuel]; [discriminate|].
  destruct (di.flag (di.statics s T)) eqn:F.
  - destruct (di.constructor (di.statics s T)) as [f|] eqn:C.
    + rewrite (registry_get_unfold fuel T s f F C).
      destruct (di.construct_tuple _ _ _) as [[args| | |] s2]; try discriminate.
      intro H. inversion H; subst. split; st_simpl.
    + rewrite registry_get_empty by assumption. discriminate.
  - rewrite registry_get_active by assumption. discriminate.
  - rewrite registry_get_called by assumption. intro H. inversion H; subst. auto.
Qed.

(** A call that returns or throws leaves no flag active that was not. *)
Lemma registry_get_settles (fuel : nat) :
  forall T s, settled (fst (registry_get fuel T s)) ->
    forall X, di.flag (di.statics (snd (registry_get fuel T s)) X) = di.active ->
              di.flag (di.statics s X) = di.active.
Proof.
  induction fuel as [|fuel IH]; intros T s.
  - simpl. contradiction.
  - destruct (di.flag (di.statics s T)) eqn:F.
    2: rewrite registry_get_active by assumption; simpl; contradiction.
    2: rewrite registry_get_called by assumption; simpl; auto.
    destruct (di.constructor (di.statics s T)) as [f|] eqn:C.
    2: rewrite registry_get_empty by assumption; simpl; auto.
    rewrite (registry_get_unfold fuel T s f F C).
    pose proof (construct_tuple_post (registry_get fuel)
      (fun k s' => settled k ->
         forall X, di.flag (di.statics s' X) = di.active ->
                   di.flag (di.statics (di.set_flag T di.active s) X) = di.active)
      (tuple_of ct depth f)) as H.
    simpl in H.
    assert (H' : forall X,
      settled (fst (di.construct_tuple (registry_get fuel) (tuple_of ct depth f)
                      (di.set_flag T di.active s))) ->
      di.flag (di.statics (snd (di.construct_tuple (registry_get fuel) (tuple_of ct depth f)
                      (di.set_flag T di.active s))) X) = di.active ->
      X <> T -> di.flag (di.statics s X) = di.active).
    { intros X HS HX n.
      assert (HA : di.flag (di.statics (di.set_flag T di.active s) X) = di.active).
      { refine (H _ (di.set_flag T di.active s) (fun _ X0 HX0 => HX0) _ X HX).
        - intros E s0 _ H0 HS0 X0 HX0. apply H0; auto.
          apply IH with (T := E); auto. now apply settled_forget.
        - now apply settled_forget. }
      st_simpl_in HA. }
    destruct (di.construct_tuple _ _ _) as [[args| | |] s2]; simpl in H' |- *;
      try contradiction; intros _ X HX.
    + st_simpl_in HX. apply H'; auto.
    + st_simpl_in HX. apply H'; auto.
Qed.

Lemma registry_get_consistent (fuel : nat) :
  forall T s, consistent s -> consistent (snd (registry_get fuel T s)).
Proof.
  induction fuel as [|fuel IH]; intros T s Hs.
  - exact Hs.
  - destruct (di.flag (di.statics s T)) eqn:F.
    2: rewrite registry_get_active by assumption; exact Hs.
    2: rewrite registry_get_called by assumption; exact Hs.
    destruct (di.constructor (di.statics s T)) as [f|] eqn:C.
    2: rewrite registry_get_empty by assumption; exact Hs.
    rewrite (registry_get_unfold fuel T s f F C).
    assert (H1 : consistent (di.set_flag T di.active s)).
    { apply consistent_set_flag; congruence. }
    pose proof (construct_tuple_post (registry_get fuel) (fun _ => consistent)
                  (tuple_of ct depth f) (fun E s0 _ H0 => IH E s0 H0) _ H1) as H2.
    pose proof (construct_tuple_extends fuel (tuple_of ct depth f)
                  (di.set_flag T di.active s)) as HE.
    assert (FA : di.flag (di.statics (di.set_flag T di.active s) T) = di.active)
      by st_simpl.
    assert (CA : di.constructor (di.statics (di.set_flag T di.active s) T) = Some f)
      by st_simpl.
    apply (ext_active _ _ HE) in FA. rewrite <- (ext_constructor _ _ HE) in CA.
    destruct (di.construct_tuple _ _ _) as [[args| | |] s2]; simpl in H2, FA, CA |- *; auto.
    + now apply consistent_store.
    + apply consistent_set_flag; congruence.
Qed.

End Registry.

(** ** Termination of the resolution *)

Lemma filter_length_change (p q : ty -> bool) (ks : list ty) (T : ty) :
  NoDup ks -> In T ks -> (forall X, X <> T -> q X = p X) ->
  length (filter q ks) + (if p T then 1 else 0)
  = length (filter p ks) + (if q T then 1 else 0).
Proof.
  intros N I E. induction ks as [|k ks IH]; [contradiction|].
  inversion N as [|? ? Hk N']; subst. simpl.
  destruct (ty_eq_dec k T) as [->|n].
  - assert (R : filter q ks = filter p ks).
    { apply filter_ext_in. intros X HX. apply E. intros ->. contradiction. }
    rewrite R. destruct (p T), (q T); simpl; lia.
  - destruct I as [->|I]; [congruence|].
    rewrite (E k n). specialize (IH N' I).
    destruct (p k); simpl; lia.
Qed.

Lemma filter_length_mono (p q : ty -> bool) (ks : list ty) :
  (forall X, q X = true -> p X = true) ->
  length (filter q ks) <= length (filter p ks).
Proof.
  intro E. induction ks as [|k ks IH]; simpl; auto.
  destruct (q k) eqn:Q.
  - rewrite (E k Q). simpl. lia.
  - destruct (p k); simpl; lia.
Qed.

Section Termination.

Variable ct : class_table.
Variable depth : nat.
Variable ks : list ty.
Hypothesis ks_nodup : NoDup ks.

Local Abbreviation registry_get := (di.registry_get ct depth).
Let measure (s : di.state) : nat := length (filter (pending s) ks).

Lemma bound_within_extends (s s' : di.state) :
  extends s s' -> bound_within ks s -> bound_within ks s'.
Proof.
  intros E B X HX. apply B. now rewrite <- (ext_constructor _ _ E).
Qed.

Lemma measure_activate (T : ty) (s : di.state) (f : di.factory) :
  bound_within ks s ->
  di.flag (di.statics s T) = di.not_called ->
  di.constructor (di.statics s T) = Some f ->
  S (measure (di.set_flag T di.active s)) = measure s.
Proof.
  intros B F C. unfold measure.
  assert (I : In T ks) by (apply B; congruence).
  pose proof (filter_length_change (pending s) (pending (di.set_flag T di.active s))
                ks T ks_nodup I) as H.
  assert (P1 : pending s T = true) by (unfold pending; now rewrite F, C).
  assert (P2 : pending (di.set_flag T di.active s) T = false)
    by (unfold pending; st_simpl).
  rewrite P1, P2 in H.
  assert (H' : forall X, X <> T -> pending (di.set_flag T di.active s) X = pending s X)
    by (intros X n; unfold pending; st_simpl).
  specialize (H H'). lia.
Qed.

Lemma registry_get_terminates (fuel : nat) :
  forall T s, bound_within ks s -> measure s < fuel ->
    fst (registry_get fuel T s) <> di.out_of_fuel
    /\ measure (snd (registry_get fuel T s)) <= measure s.
Proof.
  induction fuel as [|fuel IH]; intros T s B M; [lia|].
  destruct (di.flag (di.statics s T)) eqn:F.
  2: rewrite registry_get_active by assumption; simpl; split; [discriminate|lia].
  2: rewrite registry_get_called by assumption; simpl; split; [discriminate|lia].
  destruct (di.constructor (di.statics s T)) as [f|] eqn:C.
  2: rewrite registry_get_empty by assumption; simpl; split; [discriminate|lia].
  rewrite (registry_get_unfold ct depth fuel T s f F C).
  pose proof (measure_activate T s f B F C) as MA.
  set (s1 := di.set_flag T di.active s) in *.
  assert (B1 : bound_within ks s1).
  { intros X HX. apply B. unfold s1 in HX. st_simpl_in HX. }
  pose (Q := fun (k : di.outcome unit) (s' : di.state) =>
    k <> di.out_of_fuel /\ measure s' <= measure s1 /\ bound_within ks s').
  assert (G : forall E s0, In (TSharedPtr E) (tuple_of ct depth f) ->
     Q (di.returns tt) s0 ->
     Q (forget (fst (registry_get fuel E s0))) (snd (registry_get fuel E s0))).
  { intros E s0 _ (_ & M0 & B0).
    destruct (IH E s0 B0 ltac:(lia)) as [N L]. repeat split.
    - destruct (fst (registry_get fuel E s0)); simpl; congruence.
    - lia.
    - eapply bound_within_extends; [apply registry_get_extends | exact B0]. }
  assert (Q1 : Q (di.returns tt) s1).
  { split; [discriminate|]. split; [apply Nat.le_refl | exact B1]. }
  pose proof (construct_tuple_post (registry_get fuel) Q (tuple_of ct depth f) G s1 Q1) as H.
  unfold Q in H. clear G Q1 Q.
  destruct (di.construct_tuple _ _ _) as [[args| | |] s2]; simpl in H |- *;
    destruct H as (N & M2 & B2); try congruence; split; try discriminate.
  - etransitivity; [|apply Nat.le_trans with (m := measure s2); [apply Nat.le_refl|lia]].
    apply filter_length_mono. intros X. unfold pending. clear. st_full.
  - assert (HX : measure (di.set_flag T di.not_called s2) <= S (measure s2)).
    { unfold measure.
      destruct (in_dec ty_eq_dec T ks) as [I|nI].
      - pose proof (filter_length_change (pending s2)
                      (pending (di.set_flag T di.not_called s2)) ks T ks_nodup I) as HC.
        assert (HC' : forall X, X <> T ->
                  pending (di.set_flag T di.not_called s2) X = pending s2 X)
          by (intros X n; unfold pending; st_simpl).
        specialize (HC HC').
        destruct (pending s2 T), (pending (di.set_flag T di.not_called s2) T); lia.
      - assert (R : filter (pending (di.set_flag T di.not_called s2)) ks
                    = filter (pending s2) ks).
        { apply filter_ext_in. intros X HI. unfold pending. st_simpl. }
        rewrite R. lia. }
    lia.
  - lia.
Qed.

End Termination.

(** ** Which call throws *)

Section Throws.

Variable ct : class_table.
Variable depth : nat.

Local Abbreviation registry_get := (di.registry_get ct depth).

Lemma needs_transfer (s s' : di.state) (T X : ty) :
  (forall Y, di.constructor (di.statics s' Y) = di.constructor (di.statics s Y)) ->
  needs ct depth s' T X -> needs ct depth s T X.
Proof.
  intros E H. induction H as [T|T E0 X f C I _ IH].
  - constructor.
  - rewrite E in C. econstructor; eauto.
Qed.

(** [std::bad_function_call] comes from a registry whose [constructor] was
    empty when the call began, and that the requested type needs. *)
Lemma registry_get_throws (fuel : nat) :
  forall T s E s', registry_get fuel T s = (di.bad_function_call E, s') ->
    di.constructor (di.statics s E) = None /\ needs ct depth s T E.
Proof.
  induction fuel as [|fuel IH]; intros T s E s'; [discriminate|].
  destruct (di.flag (di.statics s T)) eqn:F.
  2: rewrite registry_get_active by assumption; discriminate.
  2: rewrite registry_get_called by assumption; discriminate.
  destruct (di.constructor (di.statics s T)) as [f|] eqn:C.
  2: { rewrite registry_get_empty by assumption. intro H. inversion H; subst.
       split; [assumption|constructor]. }
  rewrite (registry_get_unfold ct depth fuel T s f F C).
  set (s1 := di.set_flag T di.active s).
  assert (C1 : forall Y, di.constructor (di.statics s1 Y) = di.constructor (di.statics s Y))
    by (unfold s1; st_simpl).
  pose (Q := fun (k : di.outcome unit) (s2 : di.state) =>
    (forall Y, di.constructor (di.statics s2 Y) = di.constructor (di.statics s Y))
    /\ match k with
       | di.bad_function_call X =>
           di.constructor (di.statics s X) = None
           /\ exists E0, In (TSharedPtr E0) (tuple_of ct depth f) /\ needs ct depth s E0 X
       | _ => True
       end).
  assert (G : forall E0 s0, In (TSharedPtr E0) (tuple_of ct depth f) ->
            Q (di.returns tt) s0 ->
            Q (forget (fst (registry_get fuel E0 s0))) (snd (registry_get fuel E0 s0))).
  { intros E0 s0 I0 [K _]. split.
    - intro Y. rewrite (ext_constructor _ _ (registry_get_extends ct depth fuel E0 s0)).
      apply K.
    - destruct (registry_get fuel E0 s0) as [[p|X| |] s3] eqn:R; simpl; auto.
      destruct (IH _ _ _ _ R) as [N D]. split.
      + now rewrite <- K.
      + exists E0. split; auto. eapply needs_transfer; eauto. }
  pose proof (construct_tuple_post (registry_get fuel) Q (tuple_of ct depth f) G s1
                (conj C1 I)) as H.
  destruct (di.construct_tuple _ _ _) as [[args|X| |] s2]; simpl in H; try discriminate.
  intro H0. inversion H0; subst. destruct H as [_ [N (E0 & I0 & D)]].
  split; auto. econstructor; eauto.
Qed.

End Throws.

(** ** [add] *)

Section Add.

Variable ct : class_table.
Variable depth : nat.

(** [add] writes at most the [constructor] of [registry<INTERFACE_T>]. *)
Lemma add_frame (I T : ty) (s : di.state) :
  di.heap (di.add ct I T s) = di.heap s
  /\ di.evaluated (di.add ct I T s) = di.evaluated s
  /\ (forall X, di.flag (di.statics (di.add ct I T s) X) = di.flag (di.statics s X))
  /\ (forall X, di.obj (di.statics (di.add ct I T s) X) = di.obj (di.statics s X))
  /\ (forall X, X <> I -> di.statics (di.add ct I T s) X = di.statics s X).
Proof.
  unfold di.add, di.add_default, di.add_discovered.
  destruct (di.implements ct I T); [|repeat split; auto].
  destruct (is_default_constructible ct T);
    (destruct (di.constructor (di.statics s I)) eqn:C; [repeat split; auto|]);
    destruct (is_same T I) eqn:E;
    try (apply is_same_true in E; subst T);
    repeat split; st_simpl.
Qed.

(** A stored factory is never replaced. *)
Lemma add_keeps_constructor (I T X : ty) (f : di.factory) (s : di.state) :
  di.constructor (di.statics s X) = Some f ->
  di.constructor (di.statics (di.add ct I T s) X) = Some f.
Proof.
  intro C. unfold di.add, di.add_default, di.add_discovered.
  destruct (di.implements ct I T); auto.
  destruct (is_default_constructible ct T);
    (destruct (di.constructor (di.statics s I)) eqn:CI; auto);
    destruct (is_same T I) eqn:E;
    try (apply is_same_true in E; subst T);
    st_simpl.
Qed.


Lemma add_consistent (I T : ty) (s : di.state) :
  consistent s -> consistent (di.add ct I T s).
Proof.
  intros [O J N L].
  destruct (add_frame I T s) as (Hh & He & Hf & Ho & _).
  split.
  - intros X HX. rewrite Hf in HX.
    destruct (O X HX) as (a & f & o & H1 & H2 & H3 & H4).
    exists a, f, o. rewrite Ho, Hh. repeat split; auto.
    now apply add_keeps_constructor.
  - intros X Y. rewrite !Hf, !Ho. apply J.
  - now rewrite He.
  - intros X. rewrite He, Hf. apply L.
Qed.

Lemma later_called (s s' : di.state) (X : ty) :
  later ct depth s s' ->
  di.flag (di.statics s X) = di.called ->
  di.flag (di.statics s' X) = di.called
  /\ di.obj (di.statics s' X) = di.obj (di.statics s X).
Proof.
  intros H F. induction H as [|s' I T _ [IF IO]|s' fuel T _ [IF IO] _]; auto.
  - destruct (add_frame I T s') as (_ & _ & Hf & Ho & _).
    rewrite Hf, Ho. auto.
  - destruct (ext_called _ _ (registry_get_extends ct depth fuel T s') X IF) as [F' O'].
    unfold di.get. split; congruence.
Qed.

Lemma later_consistent (s s' : di.state) :
  later ct depth s s' -> consistent s -> consistent s'.
Proof.
  intros H C. induction H; auto.
  - now apply add_consistent.
  - unfold di.get. now apply registry_get_consistent.
Qed.

Lemma later_trans (s1 s2 s3 : di.state) :
  later ct depth s1 s2 -> later ct depth s2 s3 -> later ct depth s1 s3.
Proof.
  intros H12 H23. induction H23; auto; now constructor.
Qed.

(** Between two calls of the client no initialisation is running. *)
Lemma later_quiet (s s' : di.state) :
  later ct depth s s' ->
  (forall X, di.flag (di.statics s X) <> di.active) ->
  forall X, di.flag (di.statics s' X) <> di.active.
Proof.
  intros H Q. induction H as [|s' I T _ IH|s' fuel T _ IH St]; auto.
  - intro X. destruct (add_frame I T s') as (_ & _ & Hf & _). rewrite Hf. apply IH.
  - intros X A. apply (IH X). unfold di.get in *.
    now apply (registry_get_settles ct depth fuel T s' St X).
Qed.

End Add.

(** ** The claims about the running container *)

Lemma add_stores (ct : class_table) (I T : ty) (s : di.state) :
  di.constructor (di.statics s I) = None ->
  di.implements ct I T = true ->
  exists f, di.constructor (di.statics (di.add ct I T s) I) = Some f
            /\ di.made_class f = T.
Proof.
  intros C H. unfold di.add, di.add_default, di.add_discovered. rewrite H, C.
  destruct (is_default_constructible ct T); destruct (is_same T I) eqn:E;
    try (apply is_same_true in E; subst T);
    eexists; split; st_simpl.
Qed.

Lemma later_bound (ct : class_table) (depth : nat) (s : di.state) :
  later ct depth di.init s -> exists ks, NoDup ks /\ bound_within ks s.
Proof.
  induction 1 as [|s' I T _ (ks & N & B)|s' fuel T _ (ks & N & B) _].
  - exists []. split; [constructor|]. intros X HX. simpl in HX. congruence.
  - destruct (in_dec ty_eq_dec I ks) as [i|n].
    + exists ks. split; auto. intros X HX.
      destruct (ty_eq_dec X I) as [->|d]; auto.
      apply B. destruct (add_frame ct I T s') as (_ & _ & _ & _ & Fr).
      now rewrite <- (Fr X d).
    + exists (I :: ks). split; [now constructor|]. intros X HX.
      destruct (ty_eq_dec X I) as [->|d]; [now left|right].
      apply B. destruct (add_frame ct I T s') as (_ & _ & _ & _ & Fr).
      now rewrite <- (Fr X d).
  - exists ks. split; auto.
    eapply bound_within_extends; [apply registry_get_extends | exact B].
Qed.

Section Running.

Variable ct : class_table.
Variable depth : nat.

(** C1: once a call of [get<T>()] has returned a handle, every later call of
    [get<T>()], whatever calls of [add] and [get] came in between, returns
    that same handle and leaves the whole state as it found it, so that the
    stored factory is not called again; and the log of factory calls that
    returned never has [T] twice. *)
Theorem C1_singleton_identity
  (s s1 s2 : di.state) (fuel : nat) (T : ty) (p : di.handle) :
  consistent s ->
  di.get ct depth fuel T s = (di.returns p, s1) ->
  later ct depth s1 s2 ->
  (forall fuel', di.get ct depth (S fuel') T s2 = (di.returns p, s2))
  /\ count_occ ty_eq_dec (di.evaluated s2) T <= 1.
Proof.
  intros Hs R L. unfold di.get in *.
  destruct (registry_get_returns ct depth fuel T s s1 p R) as [F O].
  destruct (later_called ct depth s1 s2 T L F) as [F2 O2].
  split.
  - intro fuel'. rewrite registry_get_called by assumption. congruence.
  - assert (C1 : consistent s1).
    { pose proof (registry_get_consistent ct depth fuel T s Hs) as H.
      now rewrite R in H. }
    pose proof (later_consistent ct depth s1 s2 L C1) as C2.
    apply NoDup_count_occ. apply (cons_nodup _ C2).
Qed.



End Running.

(** ** Which call blocks *)

Section Deadlock.

Variable ct : class_table.
Variable depth : nat.

Local Abbreviation registry_get := (di.registry_get ct depth).

(** A call blocks only on a flag that was already active, or on the flag of
    a type that needs itself. *)
Lemma registry_get_deadlocks (fuel : nat) :
  forall T s s', registry_get fuel T s = (di.deadlock, s') ->
    exists X, needs ct depth s T X
              /\ (di.flag (di.statics s X) = di.active \/ cyclic ct depth s X).
Proof.
  induction fuel as [|fuel IH]; intros T s s'; [discriminate|].
  destruct (di.flag (di.statics s T)) eqn:F.
  2: { rewrite registry_get_active by assumption. intros _.
       exists T. split; [constructor|now left]. }
  2: rewrite registry_get_called by assumption; discriminate.
  destruct (di.constructor (di.statics s T)) as [f|] eqn:C.
  2: rewrite registry_get_empty by assumption; discriminate.
  rewrite (registry_get_unfold ct depth fuel T s f F C).
  set (s1 := di.set_flag T di.active s).
  pose (Q := fun (k : di.outcome unit) (s2 : di.state) =>
    match k with
    | di.returns _ =>
        (forall Y, di.constructor (di.statics s2 Y) = di.constructor (di.statics s Y))
        /\ (forall Y, di.flag (di.statics s2 Y) = di.active ->
                      di.flag (di.statics s1 Y) = di.active)
    | di.deadlock =>
        exists E0 X, In (TSharedPtr E0) (tuple_of ct depth f)
                     /\ needs ct depth s E0 X
                     /\ (di.flag (di.statics s1 X) = di.active \/ cyclic ct depth s X)
    | _ => True
    end).
  assert (G : forall E0 s0, In (TSharedPtr E0) (tuple_of ct depth f) ->
            Q (di.returns tt) s0 ->
            Q (forget (fst (registry_get fuel E0 s0))) (snd (registry_get fuel E0 s0))).
  { intros E0 s0 I0 [K A].
    pose proof (registry_get_extends ct depth fuel E0 s0) as Ex.
    pose proof (registry_get_settles ct depth fuel E0 s0) as St.
    destruct (registry_get fuel E0 s0) as [[p|X| |] s3] eqn:R; simpl in *; auto.
    - split.
      + intro Y. rewrite (ext_constructor _ _ Ex). apply K.
      + intros Y HY. apply A. now apply St.
    - destruct (IH _ _ _ R) as (X & N & D).
      exists E0, X. split; auto. split.
      + eapply needs_transfer; eauto.
      + destruct D as [D|(g & E1 & Cg & Ig & Ng)]; [left; auto|right].
        exists g, E1. rewrite K in Cg. repeat split; auto.
        eapply needs_transfer; eauto. }
  assert (Q1 : Q (di.returns tt) s1).
  { split; auto. intro Y. unfold s1. st_simpl. }
  pose proof (construct_tuple_post (registry_get fuel) Q (tuple_of ct depth f) G s1 Q1) as H.
  destruct (di.construct_tuple _ _ _) as [[args|X| |] s2]; simpl in H; try discriminate.
  intros _. destruct H as (E0 & X & I0 & N & D).
  destruct D as [D|D].
  - unfold s1 in D. st_simpl_in D.
    + exists T. split; [constructor|right]. exists f, E0. auto.
    + exists X. split; [econstructor; eauto|now left].
  - exists X. split; [econstructor; eauto|now right].
Qed.

(** C5, as the code has it: from any state the client can reach, a call of
    [get<T>()] with enough budget ends in one of three ways.  It returns a
    handle that is not null and points to a constructed object; or it throws
    [std::bad_function_call], and then some type that [T] needs (possibly
    [T] itself) had no stored factory when the call was made; or it blocks
    forever, and then some type that [T] needs is on a dependency cycle.  So
    it returns whenever every type [T] needs has a stored factory and none
    is on a cycle. *)
Theorem C5_get_outcomes (s : di.state) (T : ty) :
  later ct depth di.init s ->
  exists n, forall fuel, n < fuel ->
    match di.get ct depth fuel T s with
    | (di.returns p, s') =>
        exists a o, p = Some a /\ nth_error (di.heap s') a = Some o
    | (di.bad_function_call E, _) =>
        di.constructor (di.statics s E) = None /\ needs ct depth s T E
    | (di.deadlock, _) =>
        exists X, needs ct depth s T X /\ cyclic ct depth s X
    | (di.out_of_fuel, _) => False
    end
    /\ ((forall E, needs ct depth s T E -> di.constructor (di.statics s E) <> None) ->
        (forall X, needs ct depth s T X -> ~ cyclic ct depth s X) ->
        exists a s', di.get ct depth fuel T s = (di.returns (Some a), s')).
Proof.
  intro L.
  assert (Quiet : forall X, di.flag (di.statics s X) <> di.active).
  { apply (later_quiet ct depth _ _ L). intros X. simpl. discriminate. }
  destruct (later_bound ct depth s L) as (ks & N & B).
  pose proof (later_consistent ct depth _ _ L consistent_init) as K.
  exists (length ks). intros fuel Hf. unfold di.get.
  assert (M : length (filter (pending s) ks) < fuel).
  { eapply Nat.le_lt_trans; [apply List.filter_length_le|exact Hf]. }
  destruct (registry_get_terminates ct depth ks N fuel T s B M) as [NF _].
  pose proof (registry_get_consistent ct depth fuel T s K) as K'.
  destruct (registry_get fuel T s) as [[p|E| |] s'] eqn:R; simpl in *.
  - destruct (registry_get_returns ct depth _ _ _ _ _ R) as [F O].
    destruct (cons_obj _ K' T F) as (a & f & o & H1 & _ & H3 & _).
    split.
    + exists a, o. split; congruence.
    + intros _ _. exists a, s'. replace p with (Some a) by congruence. reflexivity.
  - destruct (registry_get_throws ct depth fuel _ _ _ _ R) as [CE NE].
    split; [split; assumption|].
    intros Bound _. destruct (Bound E NE CE).
  - destruct (registry_get_deadlocks fuel _ _ _ R) as (X & NX & [A|Cy]).
    + destruct (Quiet X A).
    + split; [exists X; auto|].
      intros _ Acyclic. destruct (Acyclic X NX Cy).
  - congruence.
Qed.

End Deadlock.

(** C5, as stated, fails: a program that instantiates [add<Logger>] and
    then [get<Logger>] compiles, the ledger being filled when [add<Logger>]
    is instantiated and not when it runs; run with the call of
    [get<Logger>()] first, that call finds [registry<Logger>::constructor]
    empty and throws [std::bad_function_call]. *)
Lemma C5_counterexample :
  ~ no_runtime_error sample.classes sample.template_depth.
Proof.
  intro H.
  specialize (H [di.Add1 sample.Logger; di.Get sample.Logger]
                [di.Get sample.Logger; di.Add1 sample.Logger]
                [] [di.Add1 sample.Logger] sample.Logger 5 di.init
                eq_refl (perm_swap _ _ _) eq_refl eq_refl).
  exact H.
Qed.

(** The same exception with every call in program order:
    [add<Service>(); get<Service>();] compiles without any [add<Logger>],
    since the factory of [Service] resolves its parameter through
    [registry<Logger>::get()] and not through the checked [get<Logger>()]. *)
Lemma unregistered_dependency_throws :
  di.translate sample.classes sample.template_depth
    [di.Add1 sample.Service; di.Get sample.Service] [] = []
  /\ fst (di.run sample.classes sample.template_depth 5
            [di.Add1 sample.Service; di.Get sample.Service] di.init)
     = di.bad_function_call sample.Logger.
Proof. split; reflexivity. Qed.

(** ** How often a class is constructed *)

Section Counting.

Variable ct : class_table.
Variable depth : nat.

Local Abbreviation registry_get := (di.registry_get ct depth).

Lemma tuple_of_class (f g : di.factory) :
  kind_ok ct f = true -> kind_ok ct g = true ->
  di.made_class f = di.made_class g ->
  tuple_of ct depth f = tuple_of ct depth g.
Proof.
  destruct f, g; simpl; intros Kf Kg E; subst; try reflexivity;
    destruct (is_default_constructible ct _); discriminate.
Qed.

Lemma well_kinded_extends (s s' : di.state) :
  extends s s' -> well_kinded ct s -> well_kinded ct s'.
Proof.
  intros E W X f C. rewrite (ext_constructor _ _ E) in C. eauto.
Qed.

Lemma constructed_make_shared (C T : ty) (args : list di.handle) (s : di.state) :
  di.constructed C (snd (di.make_shared T args s))
  = di.constructed C s + (if is_same T C then 1 else 0).
Proof.
  unfold di.constructed. simpl. rewrite filter_app, length_app. simpl.
  destruct (is_same T C); reflexivity.
Qed.

(** A tuple one of whose element types has its flag active is never filled. *)
Lemma construct_tuple_blocked (fuel : nat) (E : ty) (l : list ty) :
  In (TSharedPtr E) l ->
  forall s, di.flag (di.statics s E) = di.active ->
    forall args s', di.construct_tuple (registry_get fuel) l s <> (di.returns args, s').
Proof.
  induction l as [|P l IH]; intros I s A args s'; [contradiction|].
  simpl. unfold di.bind.
  destruct (ty_eq_dec P (TSharedPtr E)) as [->|n].
  - simpl. destruct fuel as [|fuel]; [simpl; discriminate|].
    rewrite registry_get_active by assumption. discriminate.
  - destruct I as [I|I]; [congruence|].
    assert (X : extends s (snd (di.construct_tuple_assign (registry_get fuel) P s))).
    { destruct P; simpl; try apply extends_refl. apply registry_get_extends. }
    destruct (di.construct_tuple_assign (registry_get fuel) P s) as [[h| | |] s1];
      try discriminate.
    simpl in X. apply (ext_active _ _ X) in A.
    specialize (IH I s1 A).
    destruct (di.construct_tuple (registry_get fuel) l s1) as [[hs| | |] s2];
      try discriminate.
    exfalso. eapply IH. reflexivity.
Qed.

(** Filling a tuple keeps the count of a class when every resolution does. *)
Lemma construct_tuple_count (fuel : nat) (C E : ty) (l : list ty) :
  (forall X s p s', well_kinded ct s -> di.flag (di.statics s E) = di.active ->
     registry_get fuel X s = (di.returns p, s') ->
     di.constructed C s' = di.constructed C s) ->
  forall s args s2,
    well_kinded ct s -> di.flag (di.statics s E) = di.active ->
    di.construct_tuple (registry_get fuel) l s = (di.returns args, s2) ->
    di.constructed C s2 = di.constructed C s.
Proof.
  intros H s args s2 W A R.
  pose (Q := fun (k : di.outcome unit) (s' : di.state) =>
    match k with
    | di.returns _ => well_kinded ct s' /\ di.flag (di.statics s' E) = di.active
                      /\ di.constructed C s' = di.constructed C s
    | _ => True
    end).
  assert (G : forall E0 s0, In (TSharedPtr E0) l -> Q (di.returns tt) s0 ->
            Q (forget (fst (registry_get fuel E0 s0))) (snd (registry_get fuel E0 s0))).
  { intros E0 s0 _ (W0 & A0 & C0).
    pose proof (registry_get_extends ct depth fuel E0 s0) as Ex.
    destruct (registry_get fuel E0 s0) as [[p| | |] s3] eqn:R0; simpl in *; auto.
    repeat split.
    - eapply well_kinded_extends; eauto.
    - now apply (ext_active _ _ Ex).
    - rewrite <- C0. eapply H; eauto. }
  pose proof (construct_tuple_post (registry_get fuel) Q l G s
                (conj W (conj A eq_refl))) as P.
  rewrite R in P. simpl in P. tauto.
Qed.

(** While a type in the tuple of a class is being initialised, no returning
    resolution constructs that class. *)
Lemma registry_get_no_rebuild (f0 : di.factory) (E : ty) :
  kind_ok ct f0 = true ->
  In (TSharedPtr E) (tuple_of ct depth f0) ->
  forall fuel X s p s',
    well_kinded ct s -> di.flag (di.statics s E) = di.active ->
    registry_get fuel X s = (di.returns p, s') ->
    di.constructed (di.made_class f0) s' = di.constructed (di.made_class f0) s.
Proof.
  intros K0 I0. induction fuel as [|fuel IH]; intros X s p s' W A; [discriminate|].
  destruct (di.flag (di.statics s X)) eqn:F.
  2: rewrite registry_get_active by assumption; discriminate.
  2: { rewrite registry_get_called by assumption. intro R. now inversion R. }
  destruct (di.constructor (di.statics s X)) as [f|] eqn:C.
  2: rewrite registry_get_empty by assumption; discriminate.
  rewrite (registry_get_unfold ct depth fuel X s f F C).
  assert (A1 : di.flag (di.statics (di.set_flag X di.active s) E) = di.active)
    by st_simpl.
  assert (W1 : well_kinded ct (di.set_flag X di.active s)).
  { intros Y g HY. st_full; eapply W; eauto. }
  destruct (di.construct_tuple _ _ _) as [[args| | |] s2] eqn:R; try discriminate.
  intro R'. inversion R'; subst. clear R'.
  destruct (ty_eq_dec (di.made_class f) (di.made_class f0)) as [e|n].
  - exfalso. rewrite (tuple_of_class f f0 (W X f C) K0 e) in R.
    eapply construct_tuple_blocked; eauto.
  - unfold di.constructed at 1. simpl. fold (di.constructed (di.made_class f0) s2).
    rewrite filter_app, length_app. simpl.
    apply is_same_false in n. rewrite n. simpl. rewrite Nat.add_0_r.
    fold (di.constructed (di.made_class f0) s2).
    rewrite (construct_tuple_count fuel (di.made_class f0) E _ IH _ _ _ W1 A1 R).
    reflexivity.
Qed.

(** Resolving a type in the tuple of a class does not construct that class. *)
Lemma registry_get_dependency (f0 : di.factory) (E : ty) :
  kind_ok ct f0 = true ->
  In (TSharedPtr E) (tuple_of ct depth f0) ->
  forall fuel s p s',
    well_kinded ct s ->
    registry_get fuel E s = (di.returns p, s') ->
    di.constructed (di.made_class f0) s' = di.constructed (di.made_class f0) s.
Proof.
  intros K0 I0 fuel s p s' W. destruct fuel as [|fuel]; [discriminate|].
  destruct (di.flag (di.statics s E)) eqn:F.
  2: rewrite registry_get_active by assumption; discriminate.
  2: { rewrite registry_get_called by assumption. intro R. now inversion R. }
  destruct (di.constructor (di.statics s E)) as [f|] eqn:C.
  2: rewrite registry_get_empty by assumption; discriminate.
  rewrite (registry_get_unfold ct depth fuel E s f F C).
  assert (A1 : di.flag (di.statics (di.set_flag E di.active s) E) = di.active)
    by st_simpl.
  assert (W1 : well_kinded ct (di.set_flag E di.active s)).
  { intros Y g HY. st_full; eapply W; eauto. }
  destruct (di.construct_tuple _ _ _) as [[args| | |] s2] eqn:R; try discriminate.
  intro R'. inversion R'; subst. clear R'.
  destruct (ty_eq_dec (di.made_class f) (di.made_class f0)) as [e|n].
  - exfalso. rewrite (tuple_of_class f f0 (W E f C) K0 e) in R.
    eapply construct_tuple_blocked; eauto.
  - unfold di.constructed at 1. simpl.
    rewrite filter_app, length_app. simpl.
    apply is_same_false in n. rewrite n. simpl. rewrite Nat.add_0_r.
    fold (di.constructed (di.made_class f0) s2).
    rewrite (construct_tuple_count fuel (di.made_class f0) E _
               (registry_get_no_rebuild f0 E K0 I0 fuel) _ _ _ W1 A1 R).
    reflexivity.
Qed.

(** The first returning resolution of a type constructs its class once. *)
Lemma registry_get_builds_once (fuel : nat) (T : ty) (f : di.factory)
  (s s' : di.state) (p : di.handle) :
  well_kinded ct s ->
  di.flag (di.statics s T) = di.not_called ->
  di.constructor (di.statics s T) = Some f ->
  registry_get fuel T s = (di.returns p, s') ->
  di.constructed (di.made_class f) s' = S (di.constructed (di.made_class f) s).
Proof.
  intros W F C. destruct fuel as [|fuel]; [discriminate|].
  rewrite (registry_get_unfold ct depth fuel T s f F C).
  set (s1 := di.set_flag T di.active s).
  assert (W1 : well_kinded ct s1).
  { intros Y g HY. unfold s1 in HY. st_full; eapply W; eauto. }
  pose (Q := fun (k : di.outcome unit) (s2 : di.state) =>
    match k with
    | di.returns _ => well_kinded ct s2
                      /\ di.constructed (di.made_class f) s2
                         = di.constructed (di.made_class f) s
    | _ => True
    end).
  assert (G : forall E0 s0, In (TSharedPtr E0) (tuple_of ct depth f) ->
            Q (di.returns tt) s0 ->
            Q (forget (fst (registry_get fuel E0 s0))) (snd (registry_get fuel E0 s0))).
  { intros E0 s0 I0 (W0 & C0).
    pose proof (registry_get_extends ct depth fuel E0 s0) as Ex.
    destruct (registry_get fuel E0 s0) as [[q| | |] s3] eqn:R0; simpl in *; auto.
    split.
    - eapply well_kinded_extends; eauto.
    - rewrite <- C0.
      eapply (registry_get_dependency f E0 (W T f C) I0); eauto. }
  pose proof (construct_tuple_post (registry_get fuel) Q (tuple_of ct depth f) G s1
                (conj W1 eq_refl)) as P.
  destruct (di.construct_tuple _ _ _) as [[args| | |] s2]; try discriminate.
  simpl in P. destruct P as [_ P].
  intro R. inversion R; subst. clear R.
  unfold di.constructed at 1. simpl.
  rewrite filter_app, length_app. simpl. rewrite is_same_refl. simpl.
  fold (di.constructed (di.made_class f) s2). rewrite P. lia.
Qed.

Lemma add_well_kinded (I T : ty) (s : di.state) :
  well_kinded ct s -> well_kinded ct (di.add ct I T s).
Proof.
  intros W X f. unfold di.add, di.add_default, di.add_discovered.
  destruct (di.implements ct I T); [|apply W].
  destruct (is_default_constructible ct T) eqn:D;
    (destruct (di.constructor (di.statics s I)) eqn:CI; [apply W|]);
    destruct (is_same T I) eqn:E;
    try (apply is_same_true in E; subst T);
    intro H; st_full; try (now apply (W X f));
    inversion H; subst; simpl; rewrite D; reflexivity.
Qed.

(** Calls of [add] alone return and touch neither heap, nor flags, nor log. *)
Lemma run_adds (fuel : nat) (adds : list di.stmt) :
  Forall is_add adds ->
  forall s, exists s1,
    di.run ct depth fuel adds s = (di.returns tt, s1)
    /\ di.heap s1 = di.heap s
    /\ (forall X, di.flag (di.statics s1 X) = di.flag (di.statics s X))
    /\ (well_kinded ct s -> well_kinded ct s1).
Proof.
  induction 1 as [|c adds Hc _ IH]; intro s.
  - exists s. simpl. auto.
  - destruct c as [I T|T|T]; [| |contradiction]; simpl; unfold di.bind; simpl.
    + destruct (IH (di.add ct I T s)) as (s1 & R & Hh & Hf & Hw).
      destruct (add_frame ct I T s) as (Ah & _ & Af & _).
      exists s1. rewrite R. split; [reflexivity|]. split; [congruence|]. split.
      * intro X. rewrite Hf. apply Af.
      * intro W. now apply Hw, add_well_kinded.
    + unfold di.add1. destruct (IH (di.add ct T T s)) as (s1 & R & Hh & Hf & Hw).
      destruct (add_frame ct T T s) as (Ah & _ & Af & _).
      exists s1. rewrite R. split; [reflexivity|]. split; [congruence|]. split.
      * intro X. rewrite Hf. apply Af.
      * intro W. now apply Hw, add_well_kinded.
Qed.

End Counting.

(** ** The ledger *)

Lemma set_type_spec (T X : ty) (l : type_registry.ledger) :
  In X (type_registry.set_type T l) <-> X = T \/ In X l.
Proof.
  unfold type_registry.set_type. destruct (in_dec ty_eq_dec T l); simpl.
  - split; auto. intros [->|H]; auto.
  - split; intros [H|H]; auto.
Qed.

Lemma check_type_spec (T : ty) (l : type_registry.ledger) :
  type_registry.check_type T l = true <-> In T l.
Proof.
  unfold type_registry.check_type. destruct (in_dec ty_eq_dec T l); split;
    auto; discriminate.
Qed.

(** [mark] is idempotent. *)
Lemma set_type_idempotent (T : ty) (l : type_registry.ledger) :
  type_registry.set_type T (type_registry.set_type T l) = type_registry.set_type T l.
Proof.
  unfold type_registry.set_type at 1.
  destruct (in_dec ty_eq_dec T (type_registry.set_type T l)) as [i|n]; auto.
  exfalso. apply n. apply set_type_spec. now left.
Qed.

Section Ledger.

Variable ct : class_table.
Variable depth : nat.

(** A type enters the ledger only through an [add] that names it. *)
Lemma instantiate_ledger (c : di.stmt) (l : type_registry.ledger) (X : ty) :
  In X (snd (di.instantiate ct depth c l)) -> In X l \/ registers c X.
Proof.
  destruct c as [I T|T|T]; cbn [di.instantiate].
  - unfold di.instantiate_add.
    destruct (di.implements ct I T); [|cbn [snd]; now left].
    destruct (is_default_constructible ct T); cbn [snd];
      rewrite set_type_spec; intros [->|H]; simpl; auto.
  - unfold di.instantiate_add1, di.instantiate_add.
    destruct (di.implements ct T T); [|cbn [snd]; rewrite set_type_spec; intros [->|H]; simpl; auto].
    destruct (is_default_constructible ct T); cbn [snd];
      rewrite !set_type_spec; intros [->|[->|H]]; simpl; auto.
  - now left.
Qed.

Lemma instantiate_ledger_keeps (c : di.stmt) (l : type_registry.ledger) (X : ty) :
  In X l -> In X (snd (di.instantiate ct depth c l)).
Proof.
  intro H. destruct c as [I T|T|T]; cbn [di.instantiate]; auto.
  - unfold di.instantiate_add.
    destruct (di.implements ct I T); auto.
    destruct (is_default_constructible ct T); cbn [snd]; apply set_type_spec; auto.
  - unfold di.instantiate_add1, di.instantiate_add.
    destruct (di.implements ct T T); [|cbn [snd]; apply set_type_spec; auto].
    destruct (is_default_constructible ct T); cbn [snd]; rewrite !set_type_spec; auto.
Qed.

Lemma translate_cons (c : di.stmt) (p : list di.stmt) (l : type_registry.ledger) :
  di.translate ct depth (c :: p) l
  = fst (di.instantiate ct depth c l)
    ++ di.translate ct depth p (snd (di.instantiate ct depth c l)).
Proof. simpl. destruct (di.instantiate ct depth c l). reflexivity. Qed.

Lemma translate_unregistered (p : list di.stmt) (T : ty) :
  forall l, In (di.Get T) p -> ~ In T l ->
    (forall c, In c p -> ~ registers c T) ->
    In (di.not_detected_in_di_container T) (di.translate ct depth p l).
Proof.
  induction p as [|c p IH]; intros l I NL NR; [contradiction|].
  rewrite translate_cons. apply in_or_app.
  destruct I as [->|I].
  - left. simpl. destruct (type_registry.check_type T l) eqn:E.
    + apply check_type_spec in E. contradiction.
    + now left.
  - right. apply IH; auto.
    + intro H. apply instantiate_ledger in H. destruct H as [H|H]; auto.
      apply (NR c); simpl; auto.
    + intros c' Hc'. apply NR. now right.
Qed.

Lemma translate_clean (pre post : list di.stmt) (T : ty) :
  forall l, di.translate ct depth (pre ++ di.Get T :: post) l = [] ->
    In T l \/ exists c, In c pre /\ registers c T.
Proof.
  induction pre as [|c pre IH]; intros l H.
  - left. simpl in H. destruct (type_registry.check_type T l) eqn:E.
    + now apply check_type_spec.
    + discriminate.
  - simpl app in H. rewrite translate_cons in H.
    apply app_eq_nil in H. destruct H as [_ H].
    destruct (IH _ H) as [I|(c' & I & R)].
    + apply instantiate_ledger in I. destruct I as [I|I]; auto.
      right. exists c. simpl. auto.
    + right. exists c'. simpl. auto.
Qed.

(** C4: a translation unit in which [get<T>] is instantiated and no [add]
    names [T] as its interface does not compile, and a diagnostic names [T];
    and in a translation unit that compiles, every [get<T>] comes after an
    [add<T, ...>] or [add<T>]. *)
Theorem C4_unregistered_get_fails_to_compile (p : list di.stmt) (T : ty) :
  (In (di.Get T) p -> (forall c, In c p -> ~ registers c T) ->
   In (di.not_detected_in_di_container T) (di.translate ct depth p []))
  /\ (di.translate ct depth p [] = [] ->
      forall pre post, p = pre ++ di.Get T :: post ->
        exists c, In c pre /\ registers c T).
Proof.
  split.
  - intros I NR. apply translate_unregistered; auto.
  - intros H pre post ->. destruct (translate_clean pre post T [] H) as [[]|R].
    exact R.
Qed.

End Ledger.

(** ** Signature discovery *)

Section Verdicts.

Variable ct : class_table.

Lemma c_op_verdict (T : ty) (N : nat) (U : ty) (st : refl.loopholes) :
  match refl.c_op T N U st with Some _ => true | None => false end = refl.fn_def_enabled T U.
Proof.
  unfold refl.c_op, refl.fn_def. destruct (refl.fn_def_enabled T U); reflexivity.
Qed.

Lemma convert_probe_verdict (T : ty) (N : nat) (P : ty) (st st0 : refl.loopholes) :
  option_map fst (refl.convert_probe T N P st)
  = option_map fst (refl.convert_probe T N P st0).
Proof.
  unfold refl.convert_probe.
  pose proof (c_op_verdict T N (remove_cv (remove_reference P)) st) as H.
  pose proof (c_op_verdict T N (remove_cv (remove_reference P)) st0) as H0.
  destruct (refl.c_op T N (remove_cv (remove_reference P)) st),
           (refl.c_op T N (remove_cv (remove_reference P)) st0);
    simpl; try reflexivity; rewrite <- H in H0; discriminate.
Qed.

Lemma convert_args_verdict (T : ty) (Ns : list nat) (ps : list ty) :
  forall st st0, fst (refl.convert_args T Ns ps st) = fst (refl.convert_args T Ns ps st0).
Proof.
  revert ps. induction Ns as [|N Ns IH]; intros [|P ps] st st0; simpl; auto.
  pose proof (convert_probe_verdict T N P st st0) as H.
  destruct (refl.convert_probe T N P st) as [[[|] st1]|],
           (refl.convert_probe T N P st0) as [[[|] st2]|];
    simpl in H; try discriminate; auto.
Qed.

Lemma viable_verdict (T : ty) (Ns : list nat) (cands : list (list ty)) :
  forall st st0, fst (refl.viable T Ns cands st) = fst (refl.viable T Ns cands st0).
Proof.
  induction cands as [|ps cands IH]; intros st st0; simpl; auto.
  destruct (length ps =? length Ns); auto.
  pose proof (convert_args_verdict T Ns ps st st0) as H.
  destruct (refl.convert_args T Ns ps st) as [ok st1].
  destruct (refl.convert_args T Ns ps st0) as [ok0 st2]. simpl in H. subst ok0.
  specialize (IH st1 st2).
  destruct (refl.viable T Ns cands st1), (refl.viable T Ns cands st2).
  simpl in *. subst. reflexivity.
Qed.

(** Whether a probe list is accepted does not depend on the friends defined
    so far. *)
Lemma direct_init_verdict (T : ty) (Ns : list nat) (st st0 : refl.loopholes) :
  fst (refl.direct_init ct T Ns st) = fst (refl.direct_init ct T Ns st0).
Proof.
  unfold refl.direct_init. destruct Ns as [|N Ns]; auto.
  destruct T; auto. destruct (find_class ct name) as [d|]; auto.
  pose proof (viable_verdict (TClass name) (N :: Ns) (refl.candidates (TClass name) d) st st0) as H.
  destruct (refl.viable _ _ _ st), (refl.viable _ _ _ st0). simpl in *. subst. reflexivity.
Qed.

Lemma list_init_verdict (T : ty) (Ns : list nat) (st st0 : refl.loopholes) :
  fst (refl.list_init ct T Ns st) = fst (refl.list_init ct T Ns st0).
Proof.
  unfold refl.list_init. destruct T; try apply direct_init_verdict.
  destruct (find_class ct name) as [d|]; auto.
  destruct (ctors d); [|apply direct_init_verdict].
  destruct (length Ns <=? length (refl.elements d)); auto.
  pose proof (convert_args_verdict (TClass name) Ns
                (firstn (length Ns) (refl.elements d)) st st0) as H.
  destruct (refl.convert_args _ _ _ st), (refl.convert_args _ _ _ st0).
  simpl in *. subst. reflexivity.
Qed.

Lemma seq_snoc (k : nat) : seq 0 k ++ [length (seq 0 k)] = seq 0 (S k).
Proof. now rewrite length_seq, seq_S. Qed.

Lemma fields_number_ctor_from (T : ty) (depth : nat) :
  forall k st,
    (forall j, j < k -> constructible ct T j = false) ->
    match fst (refl.fields_number_ctor ct depth T (seq 0 k) st) with
    | Some N => k <= N /\ N < k + depth /\ constructible ct T N = true
                /\ forall j, j < N -> constructible ct T j = false
    | None => forall j, j < k + depth -> constructible ct T j = false
    end.
Proof.
  induction depth as [|depth IH]; intros k st Hk; simpl.
  - intros j Hj. apply Hk. lia.
  - pose proof (direct_init_verdict T (seq 0 k) st []) as V.
    destruct (refl.direct_init ct T (seq 0 k) st) as [ok st1]. simpl in V.
    fold (constructible ct T k) in V. destruct ok; simpl.
    + rewrite length_seq. repeat split; auto; lia.
    + rewrite seq_snoc.
      assert (Hk' : forall j, j < S k -> constructible ct T j = false).
      { intros j Hj. destruct (Nat.eq_dec j k) as [->|n]; auto. apply Hk. lia. }
      specialize (IH (S k) st1 Hk').
      destruct (fst (refl.fields_number_ctor ct depth T (seq 0 (S k)) st1)) as [N|].
      * destruct IH as (A & B & C & D). repeat split; auto; lia.
      * intros j Hj. apply IH. lia.
Qed.

(** C6: [fields_number_ctor<T>(0)] returns the least probe count at which
    [T(probes...)] is well-formed, whenever there is one within the
    instantiation depth; a larger count at which the construction would also
    succeed plays no part.  Without such a count the instantiation depth is
    exceeded. *)
Theorem C6_ctor_arity_is_first_success (depth : nat) (T : ty) (st : refl.loopholes) :
  match fst (refl.fields_number_ctor ct depth T [] st) with
  | Some N => N < depth /\ constructible ct T N = true
              /\ forall k, k < N -> constructible ct T k = false
  | None => forall k, k < depth -> constructible ct T k = false
  end.
Proof.
  pose proof (fields_number_ctor_from T depth 0 st) as H. simpl in H.
  assert (H0 : forall j, j < 0 -> constructible ct T j = false) by (intros; lia).
  specialize (H H0).
  destruct (fst (refl.fields_number_ctor ct depth T [] st)) as [N|]; tauto.
Qed.

Lemma to_int_size_t_sub (N : nat) :
  (Z.of_nat N < 2 ^ 31)%Z ->
  refl.to_int (refl.size_t_sub (Z.of_nat N) 1) = (Z.of_nat N - 1)%Z.
Proof.
  intro H. unfold refl.to_int, refl.size_t_sub.
  destruct N as [|N].
  - reflexivity.
  - rewrite (Z.mod_small (Z.of_nat (S N) - 1)) by lia.
    rewrite Z.mod_small by lia. lia.
Qed.

Lemma fields_number_from (T : ty) (depth : nat) :
  forall k st,
    match fst (refl.fields_number ct depth T (seq 0 k) st) with
    | Some r => exists N, k <= N /\ N < k + depth
                          /\ r = refl.to_int (refl.size_t_sub (Z.of_nat N) 1)
                          /\ brace_initializable ct T N = false
                          /\ forall j, k <= j -> j < N -> brace_initializable ct T j = true
    | None => forall j, k <= j -> j < k + depth -> brace_initializable ct T j = true
    end.
Proof.
  induction depth as [|depth IH]; intros k st; simpl.
  - intros j H1 H2. lia.
  - pose proof (list_init_verdict T (seq 0 k) st []) as V.
    destruct (refl.list_init ct T (seq 0 k) st) as [ok st1]. simpl in V.
    fold (brace_initializable ct T k) in V. destruct ok; simpl.
    + rewrite seq_snoc. specialize (IH (S k) st1).
      destruct (fst (refl.fields_number ct depth T (seq 0 (S k)) st1)) as [r|].
      * destruct IH as (N & A & B & C & D & E). exists N.
        repeat split; auto; try lia.
        intros j H1 H2. destruct (Nat.eq_dec j k) as [->|n]; auto. apply E; lia.
      * intros j H1 H2. destruct (Nat.eq_dec j k) as [->|n]; auto. apply IH; lia.
    + exists k. rewrite length_seq. repeat split; auto; try lia.
Qed.

End Verdicts.

(** ** The friends the probes define *)

Lemma loophole_app (st : refl.loopholes) (t t' : refl.tag) (U : ty) :
  refl.loophole (st ++ [(t, U)]) t'
  = match refl.loophole st t' with
    | Some V => Some V
    | None => if refl.tag_eq_dec t' t then Some U else None
    end.
Proof.
  induction st as [|[t0 V] st IH]; simpl.
  - reflexivity.
  - destruct (refl.tag_eq_dec t' t0); auto.
Qed.

Lemma loophole_in (st : refl.loopholes) (t : refl.tag) (U : ty) :
  refl.loophole st t = Some U -> In (t, U) st.
Proof.
  induction st as [|[t0 V] st IH]; simpl; [discriminate|].
  destruct (refl.tag_eq_dec t t0) as [->|n].
  - intro H. inversion H. now left.
  - intro H. right. auto.
Qed.

Lemma grows_refl (st : refl.loopholes) : grows st st.
Proof. intros t U H. exact H. Qed.

Lemma grows_trans (a b c : refl.loopholes) : grows a b -> grows b c -> grows a c.
Proof. intros H1 H2 t U H. auto. Qed.

Lemma grows_defined (st st' : refl.loopholes) (t : refl.tag) :
  grows st st' -> refl.cloophole st t = true -> refl.cloophole st' t = true.
Proof.
  unfold refl.cloophole. intros G H.
  destruct (refl.loophole st t) as [U|] eqn:E; [|discriminate].
  now rewrite (G t U E).
Qed.

Section Friends.

Variable ct : class_table.

(** One conversion of a probe: the friend of its tag is defined afterwards,
    no friend changes, and the store stays sound. *)
Lemma c_op_defines (T : ty) (N : nat) (U : ty) (st st' : refl.loopholes) :
  refl.c_op T N U st = Some st' ->
  grows st st' /\ refl.cloophole st' (T, N) = true /\ (sound st -> sound st')
  /\ refl.fn_def_enabled T U = true.
Proof.
  unfold refl.c_op, refl.fn_def, refl.ins.
  destruct (refl.fn_def_enabled T U) eqn:E; [|discriminate].
  destruct (refl.cloophole st (T, N)) eqn:D; intro H; inversion H; subst.
  - repeat split; auto. apply grows_refl.
  - repeat split.
    + intros t V HV. rewrite loophole_app, HV. reflexivity.
    + unfold refl.cloophole in *. rewrite loophole_app.
      destruct (refl.loophole st (T, N)); auto.
      destruct (refl.tag_eq_dec (T, N) (T, N)); congruence.
    + intros S T0 N0 U0 I. apply in_app_or in I. destruct I as [I|[I|[]]].
      * eapply S; eauto.
      * inversion I; subst. exact E.
Qed.

Lemma convert_probe_defines (T : ty) (N : nat) (P : ty) (ok : bool)
  (st st' : refl.loopholes) :
  refl.convert_probe T N P st = Some (ok, st') ->
  grows st st' /\ refl.cloophole st' (T, N) = true /\ (sound st -> sound st').
Proof.
  unfold refl.convert_probe.
  destruct (refl.c_op T N (remove_cv (remove_reference P)) st) as [st1|] eqn:E;
    [|discriminate].
  intro H. inversion H; subst. apply c_op_defines in E. tauto.
Qed.

Lemma convert_args_defines (T : ty) (Ns : list nat) (ps : list ty) :
  forall st,
    grows st (snd (refl.convert_args T Ns ps st))
    /\ (sound st -> sound (snd (refl.convert_args T Ns ps st)))
    /\ (fst (refl.convert_args T Ns ps st) = true ->
        forall N, In N Ns -> refl.cloophole (snd (refl.convert_args T Ns ps st)) (T, N) = true).
Proof.
  revert ps. induction Ns as [|N Ns IH]; intros [|P ps] st; simpl;
    try (repeat split; auto using grows_refl; try discriminate; contradiction).
  destruct (refl.convert_probe T N P st) as [[[|] st1]|] eqn:E; simpl.
  - destruct (convert_probe_defines _ _ _ _ _ _ E) as (G1 & D1 & S1).
    destruct (IH ps st1) as (G2 & S2 & D2). repeat split; auto.
    + eapply grows_trans; eauto.
    + intros Ok M [<-|I]; auto. eapply grows_defined; eauto.
  - destruct (convert_probe_defines _ _ _ _ _ _ E) as (G1 & D1 & S1).
    split; [assumption|]. split; [assumption|discriminate].
  - split; [apply grows_refl|]. split; [auto|discriminate].
Qed.

Lemma viable_defines (T : ty) (Ns : list nat) (cands : list (list ty)) :
  forall st,
    grows st (snd (refl.viable T Ns cands st))
    /\ (sound st -> sound (snd (refl.viable T Ns cands st)))
    /\ (fst (refl.viable T Ns cands st) <> [] ->
        forall N, In N Ns -> refl.cloophole (snd (refl.viable T Ns cands st)) (T, N) = true).
Proof.
  induction cands as [|ps cands IH]; intro st; simpl.
  - split; [apply grows_refl|]. split; [auto|congruence].
  - destruct (length ps =? length Ns); [|apply IH].
    destruct (convert_args_defines T Ns ps st) as (G1 & S1 & D1).
    destruct (refl.convert_args T Ns ps st) as [ok st1]. simpl in *.
    destruct (IH st1) as (G2 & S2 & D2).
    destruct (refl.viable T Ns cands st1) as [vs st2]. simpl in *.
    repeat split; auto.
    + eapply grows_trans; eauto.
    + intros Pos N I. destruct ok.
      * eapply grows_defined; eauto.
      * apply D2; auto.
Qed.

Lemma best_of_viable {A : Type} (better : A -> A -> bool) (before vs : list (list A))
  (F : list A) :
  best_of better before vs = Some F -> vs <> [].
Proof. destruct vs; simpl; congruence. Qed.

Lemma direct_init_defines (T : ty) (Ns : list nat) (st : refl.loopholes) :
  grows st (snd (refl.direct_init ct T Ns st))
  /\ (sound st -> sound (snd (refl.direct_init ct T Ns st)))
  /\ (fst (refl.direct_init ct T Ns st) = true ->
      forall N, In N Ns -> refl.cloophole (snd (refl.direct_init ct T Ns st)) (T, N) = true).
Proof.
  unfold refl.direct_init. destruct Ns as [|N0 Ns].
  - simpl. repeat split; auto using grows_refl; intros; contradiction.
  - destruct T; simpl; try (repeat split; auto using grows_refl; discriminate).
    destruct (find_class ct name) as [d|]; simpl;
      try (repeat split; auto using grows_refl; discriminate).
    destruct (viable_defines (TClass name) (N0 :: Ns)
                (refl.candidates (TClass name) d) st) as (G & S & D).
    destruct (refl.viable _ _ _ st) as [vs st']. simpl in *.
    repeat split; auto. intro E. apply D.
    destruct (best_of refl.better_binding [] vs) eqn:B; [|discriminate].
    eapply best_of_viable; eauto.
Qed.

Lemma fields_number_ctor_defines (depth : nat) (T : ty) :
  forall k st,
    grows st (snd (refl.fields_number_ctor ct depth T (seq 0 k) st))
    /\ (sound st -> sound (snd (refl.fields_number_ctor ct depth T (seq 0 k) st)))
    /\ (forall n, fst (refl.fields_number_ctor ct depth T (seq 0 k) st) = Some n ->
        forall i, i < n ->
          refl.cloophole (snd (refl.fields_number_ctor ct depth T (seq 0 k) st)) (T, i) = true).
Proof.
  induction depth as [|depth IH]; intros k st; simpl.
  - repeat split; auto using grows_refl. discriminate.
  - destruct (direct_init_defines T (seq 0 k) st) as (G & Snd & D).
    destruct (refl.direct_init ct T (seq 0 k) st) as [ok st1]. simpl in *.
    destruct ok; simpl.
    + repeat split; auto. intros n E i Hi. inversion E; subst.
      rewrite length_seq in Hi. apply D; auto. apply in_seq. lia.
    + rewrite seq_snoc. destruct (IH (S k) st1) as (G' & S' & D').
      repeat split; auto. eapply grows_trans; eauto.
Qed.

Lemma loophole_tuple_defined (T : ty) (Ns : list nat) (st : refl.loopholes) :
  (forall N, In N Ns -> refl.cloophole st (T, N) = true) ->
  exists sig, refl.loophole_tuple T Ns st = Some sig.
Proof.
  induction Ns as [|N Ns IH]; intro H; simpl; eauto.
  destruct IH as [sig E]; [intros; apply H; now right|].
  rewrite E. specialize (H N (or_introl eq_refl)). unfold refl.cloophole in H.
  destruct (refl.loophole st (T, N)); [eauto|discriminate].
Qed.

(** The tuple lists the return types in the order of the indices. *)
Lemma loophole_tuple_nth (T : ty) (st : refl.loopholes) (n : nat) :
  forall a sig,
    refl.loophole_tuple T (seq a n) st = Some sig ->
    length sig = n
    /\ forall i, i < n -> nth_error sig i = refl.loophole st (T, a + i).
Proof.
  induction n as [|n IH]; intros a sig; simpl.
  - intro H. inversion H. split; auto. intros; lia.
  - destruct (refl.loophole st (T, a)) as [U|] eqn:E; [|discriminate].
    destruct (refl.loophole_tuple T (seq (S a) n) st) as [Us|] eqn:R; [|discriminate].
    intro H. inversion H; subst. destruct (IH _ _ R) as [L Nth]. split.
    + simpl. now rewrite L.
    + intros [|i] Hi; simpl.
      * now rewrite Nat.add_0_r.
      * rewrite Nth by lia. f_equal. f_equal. lia.
Qed.

(** [as_tuple<T>] is formed exactly when [fields_number_ctor<T>(0)] has a
    value, and then reads the friends [0 .. n-1] back in index order. *)
Lemma as_tuple_spec (depth : nat) (T : ty) (st : refl.loopholes) :
  match fst (refl.as_tuple ct depth T st) with
  | Some sig =>
      exists n, fst (refl.fields_number_ctor ct depth T [] st) = Some n
                /\ length sig = n
                /\ forall i, i < n ->
                     nth_error sig i
                     = refl.loophole (snd (refl.as_tuple ct depth T st)) (T, i)
  | None => fst (refl.fields_number_ctor ct depth T [] st) = None
  end.
Proof.
  unfold refl.as_tuple.
  destruct (fields_number_ctor_defines depth T 0 st) as (_ & _ & D). simpl in D.
  destruct (refl.fields_number_ctor ct depth T [] st) as [[n|] st'] eqn:E; simpl in *; auto.
  destruct (loophole_tuple_defined T (seq 0 n) st') as [sig R].
  { intros N I. apply D with (n := n); auto. apply in_seq in I. lia. }
  rewrite R. exists n. split; auto. apply (loophole_tuple_nth T st' n 0 sig R).
Qed.

Lemma as_tuple_sound (depth : nat) (T : ty) (st : refl.loopholes) (sig : list ty) :
  sound st ->
  fst (refl.as_tuple ct depth T st) = Some sig ->
  forall U, In U sig -> refl.fn_def_enabled T U = true.
Proof.
  intros S E U I.
  pose proof (as_tuple_spec depth T st) as H. rewrite E in H.
  destruct H as (n & F & L & Nth).
  apply In_nth_error in I. destruct I as [i Hi].
  assert (i < n) by (rewrite <- L; apply nth_error_Some; congruence).
  rewrite Nth in Hi by assumption. apply loophole_in in Hi.
  assert (S' : sound (snd (refl.as_tuple ct depth T st))).
  { unfold refl.as_tuple.
    destruct (fields_number_ctor_defines depth T 0 st) as (_ & S' & _). simpl in S'.
    destruct (refl.fields_number_ctor ct depth T [] st) as [[m|] st']; simpl in *; auto. }
  eapply S'; eauto.
Qed.

(** C7, as the code has it: [fields_number<T>(0)] returns [N - 1] where [N]
    is the first probe count at which list-initialisation fails, every
    smaller count succeeding; and the tuple of [as_tuple<T>] has as many
    elements as [fields_number_ctor<T>(0)] returns (not [fields_number]),
    the recorded types in index order. *)
Theorem C7_fields_number_first_failure (depth : nat) (T : ty) (st : refl.loopholes) :
  (Z.of_nat depth < 2 ^ 31)%Z ->
  match fst (refl.fields_number ct depth T [] st) with
  | Some r =>
      exists N, N < depth /\ r = (Z.of_nat N - 1)%Z
                /\ brace_initializable ct T N = false
                /\ forall j, j < N -> brace_initializable ct T j = true
  | None => forall j, j < depth -> brace_initializable ct T j = true
  end
  /\ match fst (refl.as_tuple ct depth T st) with
     | Some sig =>
         exists n, fst (refl.fields_number_ctor ct depth T [] st) = Some n
                   /\ length sig = n
                   /\ forall i, i < n ->
                        nth_error sig i
                        = refl.loophole (snd (refl.as_tuple ct depth T st)) (T, i)
     | None => fst (refl.fields_number_ctor ct depth T [] st) = None
     end.
Proof.
  intro Hd. split; [|apply as_tuple_spec].
  pose proof (fields_number_from ct T depth 0 st) as H. simpl in H.
  destruct (fst (refl.fields_number ct depth T [] st)) as [r|].
  - destruct H as (N & _ & B & C & D & E). exists N. repeat split; auto.
    + rewrite C. apply to_int_size_t_sub. lia.
    + intros j Hj. apply E; lia.
  - intros j Hj. apply H; lia.
Qed.

(** C9: a probe [c_op<T, N>] converts only to types that differ from [T]
    once references and cv-qualifiers are removed; so for a class [T] the
    parameters [const T&] and [T&&] of its copy and move constructors accept
    no probe, and no element of a discovered tuple equals [T] up to
    references and cv-qualifiers. *)
Theorem C9_probe_never_converts_to_self (depth : nat) (T : ty) :
  (forall N U st st', refl.c_op T N U st = Some st' ->
     remove_cv (remove_reference U) <> remove_cv (remove_reference T))
  /\ (forall c N st, T = TClass c ->
        refl.convert_probe T N (TLRef (TConst T)) st = None
        /\ refl.convert_probe T N (TRRef T) st = None
        /\ refl.convert_probe T N T st = None)
  /\ (forall sig, fst (refl.as_tuple ct depth T []) = Some sig ->
        forall U, In U sig ->
          remove_cv (remove_reference U) <> remove_cv (remove_reference T)).
Proof.
  assert (E : forall U, refl.fn_def_enabled T U = true ->
            remove_cv (remove_reference U) <> remove_cv (remove_reference T)).
  { intros U H. unfold refl.fn_def_enabled in H. apply negb_true_iff in H.
    apply is_same_false in H. congruence. }
  repeat split.
  - intros N U st st' H. apply E. now apply c_op_defines in H.
  - subst T. unfold refl.convert_probe, refl.c_op, refl.fn_def, refl.fn_def_enabled.
    simpl. now rewrite is_same_refl.
  - subst T. unfold refl.convert_probe, refl.c_op, refl.fn_def, refl.fn_def_enabled.
    simpl. now rewrite is_same_refl.
  - subst T. unfold refl.convert_probe, refl.c_op, refl.fn_def, refl.fn_def_enabled.
    simpl. now rewrite is_same_refl.
  - intros sig H U I. apply E. eapply as_tuple_sound; eauto.
    intros T0 N0 U0 [].
Qed.

End Friends.

(** C7, as worded, fails on the aggregate [Pair] with two members:
    list-initialisation succeeds with 0, 1 and 2 probes and with no more, so
    the largest succeeding count minus one is 1, while [fields_number]
    returns 2; and the tuple of [as_tuple<Pair>] is empty, not the two
    recorded member types. *)
Lemma C7_counterexample :
  ~ fields_number_as_stated sample.classes sample.template_depth sample.Pair
  /\ fst (refl.fields_number sample.classes sample.template_depth sample.Pair [] [])
     = Some 2%Z
  /\ fst (refl.as_tuple sample.classes sample.template_depth sample.Pair []) = Some [].
Proof.
  split; [|split; reflexivity].
  intro H.
  specialize (H 2%Z _ 2 eq_refl eq_refl).
  assert (L : forall j, 2 < j ->
            brace_initializable sample.classes sample.Pair j = false).
  { intros j Hj. unfold brace_initializable, refl.list_init. simpl.
    rewrite length_seq.
    destruct (j <=? 2) eqn:E; [apply Nat.leb_le in E; lia|reflexivity]. }
  specialize (H L). discriminate.
Qed.

(** ** Constructor parameters *)

Section Parameters.

Variable ct : class_table.
Variable depth : nat.

Local Abbreviation registry_get := (di.registry_get ct depth).

(** Position by position, the tuple holds the singleton of the element type. *)
Lemma construct_tuple_positional (fuel : nat) (l : list ty) :
  (forall P, In P l -> internal.is_shared_ptr P = true) ->
  forall s args s',
    di.construct_tuple (registry_get fuel) l s = (di.returns args, s') ->
    Forall2 (fun P h => exists E, P = TSharedPtr E
                                  /\ di.flag (di.statics s' E) = di.called
                                  /\ di.obj (di.statics s' E) = h) l args.
Proof.
  induction l as [|P l IH]; intros Hl s args s'; simpl.
  - intro H. inversion H. constructor.
  - unfold di.bind.
    assert (HP := Hl P (or_introl eq_refl)).
    destruct P; try discriminate. simpl.
    destruct (registry_get fuel P s) as [[h| | |] s1] eqn:R1; try discriminate.
    pose proof (construct_tuple_extends ct depth fuel l s1) as Ex.
    destruct (di.construct_tuple (registry_get fuel) l s1) as [[hs| | |] s2] eqn:R2;
      try discriminate.
    intro H. inversion H; subst. simpl in Ex. constructor.
    + destruct (registry_get_returns ct depth _ _ _ _ _ R1) as [F O].
      destruct (ext_called _ _ Ex P F) as [F' O'].
      exists P. repeat split; congruence.
    + eapply IH; eauto. intros Q HQ. apply Hl. now right.
Qed.

(** A default-constructible class has the empty tuple: no probe is needed. *)
Lemma ctr_type_default (T : ty) (sig : list ty) :
  is_default_constructible ct T = true ->
  di.ctr_type ct depth T = Some sig -> sig = [].
Proof.
  intros D. unfold di.ctr_type, refl.as_tuple.
  destruct depth as [|d]; simpl; [discriminate|].
  rewrite D. simpl. congruence.
Qed.

Lemma add_stores_tuple (I T : ty) (sig : list ty) (s : di.state) :
  di.constructor (di.statics s I) = None ->
  di.implements ct I T = true ->
  di.ctr_type ct depth T = Some sig ->
  exists f, di.constructor (di.statics (di.add ct I T s) I) = Some f
            /\ di.made_class f = T
            /\ tuple_of ct depth f = sig.
Proof.
  intros C H Sg. unfold di.add, di.add_default, di.add_discovered. rewrite H, C.
  destruct (is_default_constructible ct T) eqn:D.
  - rewrite (ctr_type_default T sig D Sg).
    destruct (is_same T I) eqn:E;
      try (apply is_same_true in E; subst T);
      eexists; split; st_simpl; split; reflexivity.
  - destruct (is_same T I) eqn:E;
      try (apply is_same_true in E; subst T);
      eexists; split; st_simpl; split; try reflexivity; simpl; now rewrite Sg.
Qed.

End Parameters.

(** ** The claims on the sample client *)

Lemma C1_witness :
  let ct := sample.classes in
  let depth := sample.template_depth in
  let s := di.add1 ct sample.Logger di.init in
  let s1 := snd (di.get ct depth 3 sample.Logger s) in
  let s2 := snd (di.get ct depth 3 sample.IShape
                   (di.add ct sample.IShape sample.Circle s1)) in
  consistent s
  /\ di.get ct depth 3 sample.Logger s = (di.returns (Some 0), s1)
  /\ later ct depth s1 s2
  /\ (forall fuel', di.get ct depth (S fuel') sample.Logger s2 = (di.returns (Some 0), s2))
  /\ count_occ ty_eq_dec (di.evaluated s2) sample.Logger <= 1.
Proof.
  intros ct depth s s1 s2.
  assert (K : consistent s) by (apply add_consistent, consistent_init).
  assert (L : later ct depth s1 s2)
    by (apply later_get; [apply later_add, later_refl | exact I]).
  split; [exact K|]. split; [reflexivity|]. split; [exact L|].
  exact (C1_singleton_identity ct depth s s1 s2 3 sample.Logger (Some 0) K eq_refl L).
Defined.


Lemma C4_witness :
  (In (di.Get sample.Logger) [di.Add1 sample.Service; di.Get sample.Logger]
   /\ In (di.not_detected_in_di_container sample.Logger)
        (di.translate sample.classes sample.template_depth
           [di.Add1 sample.Service; di.Get sample.Logger] []))
  /\ (di.translate sample.classes sample.template_depth
        [di.Add1 sample.Logger; di.Get sample.Logger] [] = []
      /\ exists c, In c [di.Add1 sample.Logger] /\ registers c sample.Logger).
Proof.
  split.
  - assert (I : In (di.Get sample.Logger) [di.Add1 sample.Service; di.Get sample.Logger])
      by (right; left; reflexivity).
    split; [exact I|].
    apply (proj1 (C4_unregistered_get_fails_to_compile sample.classes sample.template_depth
                    [di.Add1 sample.Service; di.Get sample.Logger] sample.Logger) I).
    intros c [<-|[<-|[]]]; simpl; [discriminate|tauto].
  - split; [reflexivity|].
    exact (proj2 (C4_unregistered_get_fails_to_compile sample.classes sample.template_depth
                    [di.Add1 sample.Logger; di.Get sample.Logger] sample.Logger)
             eq_refl [di.Add1 sample.Logger] [] eq_refl).
Defined.

Lemma C5_witness :
  let ct := sample.classes in
  let depth := sample.template_depth in
  let s := di.add1 ct sample.Service (di.add1 ct sample.Logger di.init) in
  later ct depth di.init s
  /\ exists n, forall fuel, n < fuel ->
       match di.get ct depth fuel sample.Service s with
       | (di.returns p, s') =>
           exists a o, p = Some a /\ nth_error (di.heap s') a = Some o
       | (di.bad_function_call E, _) =>
           di.constructor (di.statics s E) = None /\ needs ct depth s sample.Service E
       | (di.deadlock, _) =>
           exists X, needs ct depth s sample.Service X /\ cyclic ct depth s X
       | (di.out_of_fuel, _) => False
       end
       /\ ((forall E, needs ct depth s sample.Service E ->
                      di.constructor (di.statics s E) <> None) ->
           (forall X, needs ct depth s sample.Service X -> ~ cyclic ct depth s X) ->
           exists a s', di.get ct depth fuel sample.Service s = (di.returns (Some a), s')).
Proof.
  intros ct depth s.
  assert (L : later ct depth di.init s) by (apply later_add, later_add, later_refl).
  split; [exact L|].
  exact (C5_get_outcomes ct depth s sample.Service L).
Defined.

Lemma C7_witness :
  (Z.of_nat sample.template_depth < 2 ^ 31)%Z
  /\ match fst (refl.fields_number sample.classes sample.template_depth sample.Pair [] []) with
     | Some r =>
         exists N, N < sample.template_depth /\ r = (Z.of_nat N - 1)%Z
                   /\ brace_initializable sample.classes sample.Pair N = false
                   /\ forall j, j < N -> brace_initializable sample.classes sample.Pair j = true
     | None => forall j, j < sample.template_depth ->
                 brace_initializable sample.classes sample.Pair j = true
     end.
Proof.
  assert (D : (Z.of_nat sample.template_depth < 2 ^ 31)%Z) by reflexivity.
  split; [exact D|].
  exact (proj1 (C7_fields_number_first_failure sample.classes sample.template_depth
                  sample.Pair [] D)).
Defined.

Lemma C9_witness :
  sample.Service = TClass "Service"
  /\ refl.convert_probe sample.Service 0 (TLRef (TConst sample.Service)) [] = None
  /\ refl.convert_probe sample.Service 0 (TRRef sample.Service) [] = None
  /\ refl.convert_probe sample.Service 0 sample.Service [] = None.
Proof.
  split; [reflexivity|].
  exact (proj1 (proj2 (C9_probe_never_converts_to_self sample.classes
                         sample.template_depth sample.Service))
           "Service"%string 0 [] eq_refl).
Defined.


(** The shorter constructor of [Widget] is found and the longer one, which
    two probes would also select, is not. *)
Example widget_arity :
  fst (refl.fields_number_ctor sample.classes sample.template_depth sample.Widget [] [])
  = Some 1
  /\ constructible sample.classes sample.Widget 2 = true.
Proof. split; reflexivity. Qed.

(** The scenario of the two services: one [Logger], one [Service] that holds
    it, two calls of [get<Service>()] with the same handle. *)
Example service_scenario :
  let r := di.run sample.classes sample.template_depth 5
             [di.Add1 sample.Logger; di.Add1 sample.Service;
              di.Get sample.Service; di.Get sample.Service; di.Get sample.Logger]
             di.init in
  fst r = di.returns tt
  /\ di.heap (snd r)
     = [ {| di.class_of := sample.Logger; di.ctor_args := [] |};
         {| di.class_of := sample.Service; di.ctor_args := [Some 0] |} ]
  /\ di.obj (di.statics (snd r) sample.Logger) = Some 0
  /\ di.obj (di.statics (snd r) sample.Service) = Some 1.
Proof. repeat split; reflexivity. Qed.

(** A dependency cycle blocks. *)
Example ping_pong_deadlock :
  fst (di.run sample.classes sample.template_depth 5
         [di.Add1 sample.Ping; di.Add1 sample.Pong; di.Get sample.Ping] di.init)
  = di.deadlock.
Proof. reflexivity. Qed.

(** ** Wiring of the constructed objects *)

Lemma holds_keeps (s s' : di.state) (P : ty) (h : di.handle) :
  (forall E, di.flag (di.statics s E) = di.called ->
             di.flag (di.statics s' E) = di.called
             /\ di.obj (di.statics s' E) = di.obj (di.statics s E)) ->
  holds s P h -> holds s' P h.
Proof.
  intros K H. destruct P; simpl in *; auto.
  destruct H as [F O]. destruct (K P F) as [F' O']. split; congruence.
Qed.

Lemma holds_all_keep (s s' : di.state) (l : list ty) (hs : list di.handle) :
  (forall E, di.flag (di.statics s E) = di.called ->
             di.flag (di.statics s' E) = di.called
             /\ di.obj (di.statics s' E) = di.obj (di.statics s E)) ->
  Forall2 (holds s) l hs -> Forall2 (holds s') l hs.
Proof.
  intros K H. eapply Forall2_impl; [|exact H].
  intros P h. now apply holds_keeps.
Qed.

Lemma wired_init (ct : class_table) (depth : nat) : wired ct depth di.init.
Proof.
  split; simpl.
  - intros X f a o H. discriminate.
  - intros a H. lia.
Qed.

Section Wiring.

Variable ct : class_table.
Variable depth : nat.

Local Abbreviation registry_get := (di.registry_get ct depth).

(** A filled tuple holds, position by position, what [holds] says. *)
Lemma construct_tuple_holds (fuel : nat) (l : list ty) :
  forall s args s',
    di.construct_tuple (registry_get fuel) l s = (di.returns args, s') ->
    Forall2 (holds s') l args.
Proof.
  induction l as [|P l IH]; intros s args s'; simpl.
  - intro H. inversion H. constructor.
  - unfold di.bind.
    assert (HP : forall h s1,
              di.construct_tuple_assign (registry_get fuel) P s = (di.returns h, s1) ->
              holds s1 P h).
    { intros h s1. destruct P; simpl; unfold di.ret;
        try (intro H; inversion H; reflexivity).
      intro H. apply (registry_get_returns ct depth) in H. exact H. }
    assert (HE : forall h s1,
              di.construct_tuple_assign (registry_get fuel) P s = (di.returns h, s1) ->
              extends s s1).
    { intros h s1 H.
      assert (X : extends s (snd (di.construct_tuple_assign (registry_get fuel) P s))).
      { destruct P; simpl; try apply extends_refl. apply registry_get_extends. }
      now rewrite H in X. }
    destruct (di.construct_tuple_assign (registry_get fuel) P s) as [[h| | |] s1];
      try discriminate.
    specialize (HP h s1 eq_refl).
    pose proof (construct_tuple_extends ct depth fuel l s1) as Ex.
    destruct (di.construct_tuple (registry_get fuel) l s1) as [[hs| | |] s2] eqn:R2;
      try discriminate.
    intro H. inversion H; subst. simpl in Ex. constructor.
    + eapply holds_keeps; [|exact HP]. apply (ext_called _ _ Ex).
    + eapply IH; eauto.
Qed.

Lemma consistent_below (s : di.state) (l : list ty) (args : list di.handle) :
  consistent s -> Forall2 (holds s) l args -> below (length (di.heap s)) args.
Proof.
  intros K H. induction H as [|P h l args HP _ IH]; intros h0 b I E.
  - contradiction.
  - destruct I as [<-|I]; [|eapply IH; eauto].
    subst h. destruct P; simpl in HP; try discriminate.
    destruct HP as [F O].
    destruct (cons_obj _ K P F) as (a & _ & o & H1 & _ & H3 & _).
    apply nth_error_Some. congruence.
Qed.

Lemma wired_set_flag (T : ty) (fl : di.once_flag) (s : di.state) :
  wired ct depth s ->
  di.flag (di.statics s T) <> di.called -> fl <> di.called ->
  wired ct depth (di.set_flag T fl s).
Proof.
  intros [A O] HT Hfl.
  assert (K : forall E, di.flag (di.statics s E) = di.called ->
              di.flag (di.statics (di.set_flag T fl s) E) = di.called
              /\ di.obj (di.statics (di.set_flag T fl s) E) = di.obj (di.statics s E)).
  { intros E HE. assert (E <> T) by congruence. st_simpl. auto. }
  split.
  - intros X f a o F C Ob N.
    assert (X <> T) by (intros ->; st_full).
    assert (FX : di.flag (di.statics s X) = di.called) by st_full.
    assert (CX : di.constructor (di.statics s X) = Some f) by st_full.
    assert (OX : di.obj (di.statics s X) = Some a) by st_full.
    destruct (A X f a o FX CX OX N) as [H1 H2]. split; auto.
    eapply holds_all_keep; eauto.
  - intros a Ha. destruct (O a Ha) as (X & F & Ob). exists X.
    destruct (K X F) as [F' O']. split; congruence.
Qed.

(** Storing the object just made from a filled tuple. *)
Lemma wired_store (T : ty) (f : di.factory) (args : list di.handle) (s : di.state) :
  consistent s -> wired ct depth s ->
  di.flag (di.statics s T) = di.active ->
  di.constructor (di.statics s T) = Some f ->
  Forall2 (holds s) (tuple_of ct depth f) args ->
  wired ct depth
    (di.log T (di.set_flag T di.called
       (di.set_obj T (Some (length (di.heap s)))
          (snd (di.make_shared (di.made_class f) args s))))).
Proof.
  intros K [A O] F C H.
  set (s' := di.log T _).
  assert (Kp : forall E, di.flag (di.statics s E) = di.called ->
              di.flag (di.statics s' E) = di.called
              /\ di.obj (di.statics s' E) = di.obj (di.statics s E)).
  { intros E HE. assert (E <> T) by congruence. unfold s'. st_simpl. auto. }
  assert (B : forall X a, di.flag (di.statics s X) = di.called ->
                          di.obj (di.statics s X) = Some a -> a < length (di.heap s)).
  { intros X a HX Ha. destruct (cons_obj _ K X HX) as (a' & _ & o & H1 & _ & H3 & _).
    apply nth_error_Some. congruence. }
  split.
  - intros X g a o FX CX OX N. destruct (ty_eq_dec X T) as [->|n].
    + assert (g = f) by (unfold s' in CX; st_full). subst g.
      assert (a = length (di.heap s)) by (unfold s' in OX; st_full). subst a.
      unfold s' in N. simpl in N. rewrite nth_error_app2, Nat.sub_diag in N by auto.
      inversion N; subst o. simpl. split.
      * eapply holds_all_keep; eauto.
      * eapply consistent_below; eauto.
    + assert (FX' : di.flag (di.statics s X) = di.called) by (unfold s' in FX; st_full).
      assert (CX' : di.constructor (di.statics s X) = Some g) by (unfold s' in CX; st_full).
      assert (OX' : di.obj (di.statics s X) = Some a) by (unfold s' in OX; st_full).
      assert (N' : nth_error (di.heap s) a = Some o).
      { unfold s' in N. simpl in N. rewrite nth_error_app1 in N; eauto. }
      destruct (A X g a o FX' CX' OX' N') as [H1 H2]. split; auto.
      eapply holds_all_keep; eauto.
  - intros a Ha. unfold s' in Ha. simpl in Ha. rewrite length_app in Ha. simpl in Ha.
    destruct (Nat.eq_dec a (length (di.heap s))) as [->|n].
    + exists T. unfold s'. split; st_simpl.
    + destruct (O a ltac:(lia)) as (X & FX & OX). exists X.
      destruct (Kp X FX) as [F' O']. split; congruence.
Qed.

Lemma registry_get_wired (fuel : nat) :
  forall T s, consistent s -> wired ct depth s ->
    wired ct depth (snd (registry_get fuel T s)).
Proof.
  induction fuel as [|fuel IH]; intros T s K W.
  - exact W.
  - destruct (di.flag (di.statics s T)) eqn:F.
    2: rewrite registry_get_active by assumption; exact W.
    2: rewrite registry_get_called by assumption; exact W.
    destruct (di.constructor (di.statics s T)) as [f|] eqn:C.
    2: rewrite registry_get_empty by assumption; exact W.
    rewrite (registry_get_unfold ct depth fuel T s f F C).
    set (s1 := di.set_flag T di.active s).
    assert (K1 : consistent s1) by (apply consistent_set_flag; congruence).
    assert (W1 : wired ct depth s1) by (apply wired_set_flag; congruence).
    pose (Q := fun (_ : di.outcome unit) (s' : di.state) =>
                 consistent s' /\ wired ct depth s').
    assert (G : forall E0 s0, In (TSharedPtr E0) (tuple_of ct depth f) ->
              Q (di.returns tt) s0 ->
              Q (forget (fst (registry_get fuel E0 s0))) (snd (registry_get fuel E0 s0))).
    { intros E0 s0 _ [K0 W0]. split.
      - now apply registry_get_consistent.
      - now apply IH. }
    pose proof (construct_tuple_post (registry_get fuel) Q (tuple_of ct depth f) G s1
                  (conj K1 W1)) as P.
    pose proof (construct_tuple_extends ct depth fuel (tuple_of ct depth f) s1) as Ex.
    assert (FA : di.flag (di.statics s1 T) = di.active) by (unfold s1; st_simpl).
    assert (CA : di.constructor (di.statics s1 T) = Some f) by (unfold s1; st_simpl).
    apply (ext_active _ _ Ex) in FA. rewrite <- (ext_constructor _ _ Ex) in CA.
    destruct (di.construct_tuple _ _ _) as [[args| | |] s2] eqn:R;
      simpl in P, FA, CA |- *; destruct P as [K2 W2]; auto.
    + apply wired_store; auto. eapply construct_tuple_holds; eauto.
    + apply wired_set_flag; congruence.
Qed.

Lemma add_wired (I T : ty) (s : di.state) :
  consistent s -> wired ct depth s -> wired ct depth (di.add ct I T s).
Proof.
  intros K [A O].
  destruct (add_frame ct I T s) as (Hh & _ & Hf & Ho & _).
  assert (Kp : forall E, di.flag (di.statics s E) = di.called ->
              di.flag (di.statics (di.add ct I T s) E) = di.called
              /\ di.obj (di.statics (di.add ct I T s) E) = di.obj (di.statics s E)).
  { intros E HE. rewrite Hf, Ho. auto. }
  split.
  - intros X f a o FX CX OX N. rewrite Hf in FX. rewrite Ho in OX. rewrite Hh in N.
    destruct (cons_obj _ K X FX) as (_ & g & _ & _ & Cg & _).
    pose proof (add_keeps_constructor ct I T X g s Cg) as Cg'.
    assert (g = f) by congruence. subst g.
    destruct (A X f a o FX Cg OX N) as [H1 H2]. split; auto.
    eapply holds_all_keep; eauto.
  - intros a Ha. rewrite Hh in Ha. destruct (O a Ha) as (X & FX & OX).
    exists X. rewrite Hf, Ho. auto.
Qed.

Lemma later_wired (s s' : di.state) :
  later ct depth s s' -> consistent s -> wired ct depth s -> wired ct depth s'.
Proof.
  intros L K W. induction L as [|s' I T L IH|s' fuel T L IH St]; auto.
  - apply add_wired; auto. eapply later_consistent; eauto.
  - unfold di.get. apply registry_get_wired; auto. eapply later_consistent; eauto.
Qed.

End Wiring.

(** ** What the registry guarantees to its clients *)

Lemma Forall2_nth_left {A B : Type} (R : A -> B -> Prop) (l : list A) (l' : list B) :
  Forall2 R l l' ->
  forall i x, nth_error l i = Some x -> exists y, nth_error l' i = Some y /\ R x y.
Proof.
  induction 1 as [|x0 y0 l l' H0 _ IH]; intros [|i] x; simpl; try discriminate.
  - intro E. inversion E; subst. eauto.
  - apply IH.
Qed.

Lemma Forall2_in_left {A B : Type} (R : A -> B -> Prop) (l : list A) (l' : list B) :
  Forall2 R l l' -> forall x, In x l -> exists y, In y l' /\ R x y.
Proof.
  induction 1 as [|x0 y0 l l' H0 _ IH]; intros x; simpl; [contradiction|].
  intros [<-|I]; eauto. destruct (IH x I) as (y & Iy & Ry). eauto.
Qed.

Section Guarantees.

Variable ct : class_table.
Variable depth : nat.

Local Abbreviation registry_get := (di.registry_get ct depth).

(** The singleton of a tuple element of a cached object is cached too, and
    was made earlier. *)
Lemma tuple_called (s : di.state) (X E : ty) (f : di.factory) :
  consistent s -> wired ct depth s ->
  di.flag (di.statics s X) = di.called ->
  di.constructor (di.statics s X) = Some f ->
  In (TSharedPtr E) (tuple_of ct depth f) ->
  di.flag (di.statics s E) = di.called
  /\ exists a e, di.obj (di.statics s X) = Some a
                 /\ di.obj (di.statics s E) = Some e /\ e < a.
Proof.
  intros K W F C I.
  destruct (cons_obj _ K X F) as (a & g & o & Oa & Cg & N & _).
  destruct (wired_args _ _ _ W X f a o F C Oa N) as [H B].
  destruct (Forall2_in_left _ _ _ H _ I) as (h & Ih & [FE OE]).
  split; auto.
  destruct (cons_obj _ K E FE) as (e & _ & _ & Oe & _).
  exists a, e. repeat split; auto. apply (B h e Ih). congruence.
Qed.

Lemma needs_called (s : di.state) (X Y : ty) :
  consistent s -> wired ct depth s ->
  needs ct depth s X Y ->
  di.flag (di.statics s X) = di.called ->
  di.flag (di.statics s Y) = di.called
  /\ exists a b, di.obj (di.statics s X) = Some a
                 /\ di.obj (di.statics s Y) = Some b /\ b <= a.
Proof.
  intros K W N. induction N as [X|X E Y f C I _ IH]; intro F.
  - split; auto. destruct (cons_obj _ K X F) as (a & _ & _ & Oa & _).
    exists a, a. auto.
  - destruct (tuple_called s X E f K W F C I) as (FE & a & e & Oa & Oe & L).
    destruct (IH FE) as (FY & e' & b & Oe' & Ob & L').
    split; auto. exists a, b. repeat split; auto.
    assert (e' = e) by congruence. lia.
Qed.

Lemma cyclic_not_called (s : di.state) (T : ty) :
  consistent s -> wired ct depth s -> cyclic ct depth s T ->
  di.flag (di.statics s T) <> di.called.
Proof.
  intros K W (f & E & C & I & N) F.
  destruct (tuple_called s T E f K W F C I) as (FE & a & e & Oa & Oe & L).
  destruct (needs_called s E T K W N FE) as (_ & e' & a' & Oe' & Oa' & L').
  assert (e' = e) by congruence. assert (a' = a) by congruence. lia.
Qed.

Lemma needs_same_constructors (s s' : di.state) (X Y : ty) :
  (forall Z, di.constructor (di.statics s' Z) = di.constructor (di.statics s Z)) ->
  needs ct depth s X Y -> needs ct depth s' X Y.
Proof.
  intros E H. apply (needs_transfer ct depth s' s); auto.
Qed.

(** While [T] is being initialised, no tuple with an element that needs [T]
    is ever filled, and no type that needs [T] is ever resolved. *)
Lemma construct_tuple_stuck (fuel : nat) (T E : ty) :
  (forall X s, consistent s -> wired ct depth s ->
     di.flag (di.statics s T) = di.active -> needs ct depth s X T ->
     forall p s', registry_get fuel X s <> (di.returns p, s')) ->
  forall l, In (TSharedPtr E) l ->
    forall s, consistent s -> wired ct depth s ->
      di.flag (di.statics s T) = di.active -> needs ct depth s E T ->
      forall args s', di.construct_tuple (registry_get fuel) l s <> (di.returns args, s').
Proof.
  intros Stuck. induction l as [|P l IH]; intros I s K W A N args s'; [contradiction|].
  simpl. unfold di.bind.
  destruct (ty_eq_dec P (TSharedPtr E)) as [->|n].
  - simpl. pose proof (Stuck E s K W A N) as H.
    destruct (registry_get fuel E s) as [[h| | |] s1]; try discriminate.
    exfalso. eapply H. reflexivity.
  - destruct I as [I|I]; [congruence|].
    assert (X : extends s (snd (di.construct_tuple_assign (registry_get fuel) P s))
                /\ consistent (snd (di.construct_tuple_assign (registry_get fuel) P s))
                /\ wired ct depth (snd (di.construct_tuple_assign (registry_get fuel) P s))).
    { destruct P; simpl; try (split; [apply extends_refl|split; assumption]).
      split; [apply registry_get_extends|].
      split; [now apply registry_get_consistent|now apply registry_get_wired]. }
    destruct (di.construct_tuple_assign (registry_get fuel) P s) as [[h| | |] s1];
      try discriminate.
    simpl in X. destruct X as (Ex & K1 & W1).
    assert (N1 : needs ct depth s1 E T).
    { eapply needs_same_constructors; [|exact N]. apply (ext_constructor _ _ Ex). }
    specialize (IH I s1 K1 W1 (ext_active _ _ Ex T A) N1).
    destruct (di.construct_tuple (registry_get fuel) l s1) as [[hs| | |] s2];
      try discriminate.
    exfalso. eapply IH. reflexivity.
Qed.

Lemma registry_get_stuck (fuel : nat) (T : ty) :
  forall X s, consistent s -> wired ct depth s ->
    di.flag (di.statics s T) = di.active -> needs ct depth s X T ->
    forall p s', registry_get fuel X s <> (di.returns p, s').
Proof.
  induction fuel as [|fuel IH]; intros X s K W A N p s'; [discriminate|].
  destruct (di.flag (di.statics s X)) eqn:F.
  2: rewrite registry_get_active by assumption; discriminate.
  2: { destruct (needs_called s X T K W N F) as [FT _]. congruence. }
  destruct (di.constructor (di.statics s X)) as [f|] eqn:C.
  2: rewrite registry_get_empty by assumption; discriminate.
  rewrite (registry_get_unfold ct depth fuel X s f F C).
  destruct N as [X|X E T g Cg I N]; [congruence|].
  assert (g = f) by congruence. subst g.
  set (s1 := di.set_flag X di.active s).
  assert (K1 : consistent s1) by (apply consistent_set_flag; congruence).
  assert (W1 : wired ct depth s1) by (apply wired_set_flag; congruence).
  assert (A1 : di.flag (di.statics s1 T) = di.active) by (unfold s1; st_simpl).
  assert (N1 : needs ct depth s1 E T).
  { eapply needs_same_constructors; [|exact N]. intro Z. unfold s1. st_simpl. }
  pose proof (construct_tuple_stuck fuel T E IH _ I s1 K1 W1 A1 N1) as H.
  destruct (di.construct_tuple _ _ _) as [[args| | |] s2]; try discriminate.
  exfalso. eapply H. reflexivity.
Qed.

(** X1: in every state the client can reach, the cached object of a
    registry has the class its factory makes and holds, at each position of
    its tuple that is a [std::shared_ptr<E>], the very handle that
    [get<E>()] returns; that handle points to an object made earlier. *)
Theorem dependencies_are_the_singletons
  (s : di.state) (X : ty) (f : di.factory) (a : nat) :
  later ct depth di.init s ->
  di.flag (di.statics s X) = di.called ->
  di.constructor (di.statics s X) = Some f ->
  di.obj (di.statics s X) = Some a ->
  exists o,
    nth_error (di.heap s) a = Some o
    /\ di.class_of o = di.made_class f
    /\ length (di.ctor_args o) = length (tuple_of ct depth f)
    /\ forall i E, nth_error (tuple_of ct depth f) i = Some (TSharedPtr E) ->
         exists b, nth_error (di.ctor_args o) i = Some (Some b) /\ b < a
                   /\ forall fuel, di.get ct depth (S fuel) E s = (di.returns (Some b), s).
Proof.
  intros L F C O.
  pose proof (later_consistent ct depth _ _ L consistent_init) as K.
  pose proof (later_wired ct depth _ _ L consistent_init (wired_init ct depth)) as W.
  destruct (cons_obj _ K X F) as (a' & g & o & Oa & Cg & N & Cl).
  assert (a' = a) by congruence. assert (g = f) by congruence. subst a' g.
  destruct (wired_args _ _ _ W X f a o F C O N) as [H B].
  exists o. repeat split; auto.
  - symmetry. eapply Forall2_length; eauto.
  - intros i E Hi.
    destruct (Forall2_nth_left _ _ _ H i _ Hi) as (h & Nh & [FE OE]).
    destruct (cons_obj _ K E FE) as (b & _ & _ & Ob & _).
    assert (Hb : h = Some b) by congruence.
    exists b. split; [rewrite Nh, Hb; reflexivity|]. split.
    + apply (B h b); auto. eapply nth_error_In; eauto.
    + intro fuel. unfold di.get. rewrite registry_get_called by assumption.
      now rewrite Ob.
Qed.

(** X2: in every state the client can reach, each object on the heap is the
    cached object of exactly one registry: nothing is constructed that is
    not kept as a singleton, and no object is shared by two interfaces. *)
Theorem every_object_is_one_singleton (s : di.state) (a : nat) :
  later ct depth di.init s ->
  a < length (di.heap s) ->
  exists X,
    (di.flag (di.statics s X) = di.called /\ di.obj (di.statics s X) = Some a)
    /\ forall Y, di.flag (di.statics s Y) = di.called ->
                 di.obj (di.statics s Y) = Some a -> Y = X.
Proof.
  intros L Ha.
  pose proof (later_consistent ct depth _ _ L consistent_init) as K.
  pose proof (later_wired ct depth _ _ L consistent_init (wired_init ct depth)) as W.
  destruct (wired_owned _ _ _ W a Ha) as (X & F & O).
  exists X. split; auto.
  intros Y FY OY. apply (cons_inj _ K Y X FY F). congruence.
Qed.

(** X3: a type on a dependency cycle is never resolved: from any state the
    client can reach, [get<T>()] does not return, whatever the budget. *)
Theorem cycle_never_resolves (s : di.state) (T : ty) (fuel : nat) :
  later ct depth di.init s ->
  cyclic ct depth s T ->
  forall p s', di.get ct depth fuel T s <> (di.returns p, s').
Proof.
  intros L Cy p s'. unfold di.get.
  pose proof (later_consistent ct depth _ _ L consistent_init) as K.
  pose proof (later_wired ct depth _ _ L consistent_init (wired_init ct depth)) as W.
  pose proof (cyclic_not_called s T K W Cy) as NC.
  destruct Cy as (f & E & C & I & N).
  destruct fuel as [|fuel]; [discriminate|].
  destruct (di.flag (di.statics s T)) eqn:F; [|rewrite registry_get_active by assumption; discriminate|congruence].
  rewrite (registry_get_unfold ct depth fuel T s f F C).
  set (s1 := di.set_flag T di.active s).
  assert (K1 : consistent s1) by (apply consistent_set_flag; congruence).
  assert (W1 : wired ct depth s1) by (apply wired_set_flag; congruence).
  assert (A1 : di.flag (di.statics s1 T) = di.active) by (unfold s1; st_simpl).
  assert (N1 : needs ct depth s1 E T).
  { eapply needs_same_constructors; [|exact N]. intro Z. unfold s1. st_simpl. }
  pose proof (construct_tuple_stuck fuel T E (registry_get_stuck fuel T) _ I s1 K1 W1 A1 N1) as H.
  destruct (di.construct_tuple _ _ _) as [[args| | |] s2]; try discriminate.
  exfalso. eapply H. reflexivity.
Qed.

(** X4: a call of [registry<T>::get] that throws leaves the flag of [T]
    unset, so that a later call tries again; it leaves no initialisation
    running, keeps every stored factory and every cached singleton, and
    only adds objects to the heap. *)
Theorem throwing_get_can_be_retried
  (fuel : nat) (T E : ty) (s s' : di.state) :
  di.get ct depth fuel T s = (di.bad_function_call E, s') ->
  di.flag (di.statics s T) = di.not_called
  /\ di.flag (di.statics s' T) = di.not_called
  /\ (forall X, di.flag (di.statics s' X) = di.active ->
                di.flag (di.statics s X) = di.active)
  /\ extends s s'.
Proof.
  unfold di.get. intro R.
  assert (Ex := registry_get_extends ct depth fuel T s).
  assert (St := registry_get_settles ct depth fuel T s).
  rewrite R in Ex, St. simpl in Ex, St.
  destruct fuel as [|fuel]; [discriminate|].
  destruct (di.flag (di.statics s T)) eqn:F.
  - split; [reflexivity|]. split; [|split; auto].
    destruct (di.constructor (di.statics s T)) as [f|] eqn:C.
    + rewrite (registry_get_unfold ct depth fuel T s f F C) in R.
      destruct (di.construct_tuple _ _ _) as [[args| | |] s2]; try discriminate.
      inversion R; subst. st_simpl.
    + rewrite registry_get_empty in R by assumption. inversion R; subst. exact F.
  - rewrite registry_get_active in R by assumption. discriminate.
  - rewrite registry_get_called in R by assumption. discriminate.
Qed.

(** X5: a stored factory is never replaced or removed, and an object, once
    on the heap, stays at its address: after any calls of [add] and [get]
    the registry of a bound type has the factory it had, and every valid
    handle points to the object it pointed to. *)
Theorem bindings_and_objects_are_permanent (s s' : di.state) :
  later ct depth s s' ->
  (forall X f, di.constructor (di.statics s X) = Some f ->
               di.constructor (di.statics s' X) = Some f)
  /\ (forall a o, nth_error (di.heap s) a = Some o -> nth_error (di.heap s') a = Some o).
Proof.
  induction 1 as [|s' I T L [IH1 IH2]|s' fuel T L [IH1 IH2] St].
  - auto.
  - split.
    + intros X f C. apply add_keeps_constructor. auto.
    + intros a o N. destruct (add_frame ct I T s') as (Hh & _). rewrite Hh. auto.
  - pose proof (registry_get_extends ct depth fuel T s') as Ex. unfold di.get. split.
    + intros X f C. rewrite (ext_constructor _ _ Ex). auto.
    + intros a o N. destruct (ext_heap _ _ Ex) as [l Hl]. rewrite Hl.
      rewrite nth_error_app1; auto. apply nth_error_Some. rewrite (IH2 a o N). discriminate.
Qed.

(** X6: in a state the client can reach, [get<T>()] for a type whose factory
    has not been stored throws [std::bad_function_call] at once and changes
    nothing. *)
Theorem unbound_get_throws (s : di.state) (T : ty) (fuel : nat) :
  later ct depth di.init s ->
  di.constructor (di.statics s T) = None ->
  di.get ct depth (S fuel) T s = (di.bad_function_call T, s).
Proof.
  intros L C. unfold di.get.
  pose proof (later_consistent ct depth _ _ L consistent_init) as K.
  assert (Quiet : forall X, di.flag (di.statics s X) <> di.active).
  { apply (later_quiet ct depth _ _ L). intros X. simpl. discriminate. }
  destruct (di.flag (di.statics s T)) eqn:F.
  - now apply registry_get_empty.
  - destruct (Quiet T F).
  - destruct (cons_obj _ K T F) as (_ & f & _ & _ & Cf & _). congruence.
Qed.

End Guarantees.

(** ** Programs: what compiling in program order buys *)

Section Programs.

Variable ct : class_table.
Variable depth : nat.

Lemma implements_self (T : ty) : di.implements ct T T = true.
Proof. unfold di.implements. now rewrite is_same_refl. Qed.

(** Where an overload of [add] is found, the diagnostics come from its
    body. *)
Lemma instantiate_add_found (I T : ty) (l : type_registry.ledger) (I0 T0 : ty) :
  di.implements ct I T = true ->
  ~ In (di.no_matching_add I0 T0) (fst (di.instantiate_add ct depth I T l)).
Proof.
  intro H. unfold di.instantiate_add. rewrite H.
  assert (Cast : ~ In (di.no_matching_add I0 T0) (di.check_pointer_cast ct I T)).
  { unfold di.check_pointer_cast. destruct (is_same T I); [tauto|].
    destruct (remove_cv I); try tauto. destruct (remove_cv T); try tauto.
    destruct (unambiguous_base ct name name0); [tauto|].
    intros [E|[]]. discriminate. }
  destruct (is_default_constructible ct T); cbn [fst]; [exact Cast|].
  destruct (di.ctr_type ct depth T) as [sig|].
  - intro In0. apply in_app_or in In0. destruct In0 as [In0|In0].
    + unfold di.check_tuple in In0. apply in_flat_map in In0.
      destruct In0 as (P & _ & In0). unfold di.check_tuple_assign in In0.
      destruct (internal.is_shared_ptr P); [contradiction|].
      destruct In0 as [E|[]]. discriminate.
    + apply in_app_or in In0. destruct In0 as [In0|In0]; [|now apply Cast].
      unfold di.check_make_shared in In0.
      destruct (di.element_types sig); [|contradiction].
      destruct (is_constructible_from_handles ct T l0); [contradiction|].
      destruct In0 as [E|[]]. discriminate.
  - intros [E|[]]. discriminate.
Qed.

(** A translation without diagnostics has an overload for each [add]. *)
Lemma translate_clean_adds (p : list di.stmt) :
  forall l, di.translate ct depth p l = [] ->
    forall I T, In (di.Add I T) p -> di.implements ct I T = true.
Proof.
  induction p as [|c p IH]; intros l H I T In0; [contradiction|].
  rewrite translate_cons in H. apply app_eq_nil in H. destruct H as [H1 H2].
  destruct In0 as [->|In0]; [|eapply IH; eauto].
  simpl in H1. unfold di.instantiate_add in H1.
  destruct (di.implements ct I T); [reflexivity|discriminate].
Qed.

Lemma exec_keeps_bound (fuel : nat) (c : di.stmt) (s s' : di.state) (T : ty) :
  di.exec ct depth fuel c s = (di.returns tt, s') ->
  di.constructor (di.statics s T) <> None ->
  di.constructor (di.statics s' T) <> None.
Proof.
  intros R B. destruct (di.constructor (di.statics s T)) as [f|] eqn:C; [|congruence].
  destruct c as [I T'|T'|T']; simpl in R.
  - inversion R; subst. now rewrite (add_keeps_constructor ct I T' T f s C).
  - inversion R; subst. unfold di.add1.
    now rewrite (add_keeps_constructor ct T' T' T f s C).
  - unfold di.bind, di.get in R.
    pose proof (registry_get_extends ct depth fuel T' s) as Ex.
    destruct (di.registry_get ct depth fuel T' s) as [[h| | |] s1]; try discriminate.
    inversion R; subst. simpl in Ex. rewrite (ext_constructor _ _ Ex). congruence.
Qed.

Lemma exec_add_binds (fuel : nat) (c : di.stmt) (s s' : di.state) (T : ty) :
  registers c T ->
  (forall I T', c = di.Add I T' -> di.implements ct I T' = true) ->
  di.exec ct depth fuel c s = (di.returns tt, s') ->
  di.constructor (di.statics s' T) <> None.
Proof.
  intros Rg Ok R.
  destruct (di.constructor (di.statics s T)) as [f|] eqn:C.
  { eapply exec_keeps_bound; eauto. congruence. }
  destruct c as [I T'|T'|T']; simpl in Rg, R; [| |contradiction]; subst.
  - inversion R; subst.
    destruct (add_stores ct T T' s C (Ok T T' eq_refl)) as (f & Cf & _). congruence.
  - inversion R; subst. unfold di.add1.
    destruct (add_stores ct T T s C (implements_self T)) as (f & Cf & _). congruence.
Qed.

Lemma run_binds (fuel : nat) (pre : list di.stmt) (T : ty) :
  (forall I T', In (di.Add I T') pre -> di.implements ct I T' = true) ->
  forall s s',
    di.run ct depth fuel pre s = (di.returns tt, s') ->
    (di.constructor (di.statics s T) <> None \/ exists c, In c pre /\ registers c T) ->
    di.constructor (di.statics s' T) <> None.
Proof.
  induction pre as [|c pre IH]; intros Ok s s' R H.
  - simpl in R. inversion R; subst. destruct H as [H|(c & [] & _)]. exact H.
  - simpl in R. unfold di.bind in R.
    destruct (di.exec ct depth fuel c s) as [[[]| | |] s1] eqn:E; try discriminate.
    apply (IH (fun I T' HI => Ok I T' (or_intror HI)) s1 s' R).
    destruct H as [H|(c' & [<-|I'] & Rg)].
    + left. eapply exec_keeps_bound; eauto.
    + left. eapply exec_add_binds; eauto.
      intros I T' ->. apply Ok. now left.
    + right. eauto.
Qed.

(** X7: when a program compiles and its calls run in program order, each
    returning, the factory of [T] is stored by the time [get<T>()] is
    called; so if that call throws, the exception comes from a type [T]
    depends on, never from [registry<T>] itself. *)
Theorem program_order_binds_the_requested_type
  (p pre post : list di.stmt) (T : ty) (fuel : nat) (s : di.state) :
  di.translate ct depth p [] = [] ->
  p = pre ++ di.Get T :: post ->
  di.run ct depth fuel pre di.init = (di.returns tt, s) ->
  di.constructor (di.statics s T) <> None
  /\ forall fuel' E s',
       di.get ct depth fuel' T s = (di.bad_function_call E, s') ->
       E <> T /\ needs ct depth s T E
       /\ di.constructor (di.statics s E) = None.
Proof.
  intros Tr -> R.
  assert (B : di.constructor (di.statics s T) <> None).
  { eapply (run_binds fuel pre T); [|exact R|].
    - intros I T' HI. eapply translate_clean_adds; [exact Tr|].
      apply in_or_app. now left.
    - right. destruct (translate_clean ct depth pre post T [] Tr) as [[]|H]. exact H. }
  split; [exact B|].
  intros fuel' E s' Th. unfold di.get in Th.
  destruct (registry_get_throws ct depth fuel' T s E s' Th) as [CE NE].
  repeat split; auto. congruence.
Qed.

(** X8: [add<T>()] is [add<T, T>()]: instantiated at the same place it
    leaves the same ledger and the same diagnostics, it always finds an
    overload, and it runs the same code. *)
Theorem single_type_add_is_self_binding (T : ty) (l : type_registry.ledger) :
  di.instantiate ct depth (di.Add1 T) l = di.instantiate ct depth (di.Add T T) l
  /\ ~ In (di.no_matching_add T T) (fst (di.instantiate ct depth (di.Add1 T) l))
  /\ In T (snd (di.instantiate ct depth (di.Add1 T) l))
  /\ forall fuel s, di.exec ct depth fuel (di.Add1 T) s
                    = di.exec ct depth fuel (di.Add T T) s.
Proof.
  assert (E : di.instantiate ct depth (di.Add1 T) l
              = di.instantiate ct depth (di.Add T T) l).
  { simpl. unfold di.instantiate_add1, di.instantiate_add.
    rewrite implements_self.
    destruct (is_default_constructible ct T); now rewrite set_type_idempotent. }
  split; [exact E|]. rewrite E. simpl. split; [|split].
  - apply instantiate_add_found, implements_self.
  - unfold di.instantiate_add. rewrite implements_self.
    destruct (is_default_constructible ct T); cbn [snd]; apply set_type_spec; now left.
  - reflexivity.
Qed.

End Programs.

(** X9: marking a type in the ledger is idempotent, makes the check of that
    type succeed, and changes the check of no other type. *)
Theorem ledger_mark_then_check (T X : ty) (l : type_registry.ledger) :
  type_registry.set_type T (type_registry.set_type T l) = type_registry.set_type T l
  /\ type_registry.check_type T (type_registry.set_type T l) = true
  /\ (X <> T ->
      type_registry.check_type X (type_registry.set_type T l)
      = type_registry.check_type X l).
Proof.
  split; [apply set_type_idempotent|]. split.
  - apply check_type_spec, set_type_spec. now left.
  - intro n.
    destruct (type_registry.check_type X l) eqn:E.
    + apply check_type_spec. apply set_type_spec. right. now apply check_type_spec.
    + destruct (type_registry.check_type X (type_registry.set_type T l)) eqn:E'; auto.
      apply check_type_spec, set_type_spec in E'. destruct E' as [->|I]; [congruence|].
      apply check_type_spec in I. congruence.
Qed.

(** ** Discovery: which friends it reads and writes *)

Section DiscoveryFrame.

Variable ct : class_table.

Lemma c_op_same (T : ty) (N : nat) (U : ty) (st st0 : refl.loopholes) :
  same_tags T st st0 ->
  match refl.c_op T N U st, refl.c_op T N U st0 with
  | Some st', Some st0' => same_tags T st' st0'
  | None, None => True
  | _, _ => False
  end.
Proof.
  intro S. unfold refl.c_op, refl.fn_def, refl.ins, refl.cloophole.
  destruct (refl.fn_def_enabled T U); auto.
  rewrite (S N). destruct (refl.loophole st0 (T, N)); auto.
  intro M. rewrite !loophole_app, (S M). reflexivity.
Qed.

Lemma c_op_other (T T' : ty) (N N' : nat) (U : ty) (st st' : refl.loopholes) :
  T' <> T -> refl.c_op T N U st = Some st' ->
  refl.loophole st' (T', N') = refl.loophole st (T', N').
Proof.
  intros n. unfold refl.c_op, refl.fn_def.
  destruct (refl.fn_def_enabled T U); [|discriminate].
  destruct (refl.ins T U N st); intro H; inversion H; subst; auto.
  rewrite loophole_app. destruct (refl.loophole st (T', N')); auto.
  destruct (refl.tag_eq_dec (T', N') (T, N)) as [e|]; auto. inversion e. congruence.
Qed.

Lemma convert_probe_same (T : ty) (N : nat) (P : ty) (st st0 : refl.loopholes) :
  same_tags T st st0 ->
  match refl.convert_probe T N P st, refl.convert_probe T N P st0 with
  | Some (ok, st'), Some (ok0, st0') => ok = ok0 /\ same_tags T st' st0'
  | None, None => True
  | _, _ => False
  end.
Proof.
  intro S. unfold refl.convert_probe.
  pose proof (c_op_same T N (remove_cv (remove_reference P)) st st0 S) as H.
  destruct (refl.c_op T N (remove_cv (remove_reference P)) st),
           (refl.c_op T N (remove_cv (remove_reference P)) st0); auto.
Qed.

Lemma convert_probe_other (T T' : ty) (N N' : nat) (P : ty) (ok : bool)
  (st st' : refl.loopholes) :
  T' <> T -> refl.convert_probe T N P st = Some (ok, st') ->
  refl.loophole st' (T', N') = refl.loophole st (T', N').
Proof.
  intro n. unfold refl.convert_probe.
  destruct (refl.c_op T N (remove_cv (remove_reference P)) st) as [st1|] eqn:E;
    [|discriminate].
  intro H. inversion H; subst. eapply c_op_other; eauto.
Qed.

Lemma convert_args_same (T : ty) (Ns : list nat) (ps : list ty) :
  forall st st0, same_tags T st st0 ->
    same_tags T (snd (refl.convert_args T Ns ps st)) (snd (refl.convert_args T Ns ps st0)).
Proof.
  revert ps. induction Ns as [|N Ns IH]; intros [|P ps] st st0 S; simpl; auto.
  pose proof (convert_probe_same T N P st st0 S) as H.
  destruct (refl.convert_probe T N P st) as [[ok st1]|],
           (refl.convert_probe T N P st0) as [[ok0 st2]|]; try contradiction; auto.
  destruct H as [<- H]. destruct ok; simpl; auto.
Qed.

Lemma convert_args_other (T T' : ty) (N' : nat) (Ns : list nat) (ps : list ty) :
  T' <> T ->
  forall st, refl.loophole (snd (refl.convert_args T Ns ps st)) (T', N')
             = refl.loophole st (T', N').
Proof.
  intro n. revert ps. induction Ns as [|N Ns IH]; intros [|P ps] st; simpl; auto.
  destruct (refl.convert_probe T N P st) as [[ok st1]|] eqn:E; auto.
  pose proof (convert_probe_other T T' N N' P ok st st1 n E) as H.
  destruct ok; simpl; [rewrite IH|]; exact H.
Qed.

Lemma viable_same (T : ty) (Ns : list nat) (cands : list (list ty)) :
  forall st st0, same_tags T st st0 ->
    same_tags T (snd (refl.viable T Ns cands st)) (snd (refl.viable T Ns cands st0)).
Proof.
  induction cands as [|ps cands IH]; intros st st0 S; simpl; auto.
  destruct (length ps =? length Ns); auto.
  pose proof (convert_args_same T Ns ps st st0 S) as H.
  destruct (refl.convert_args T Ns ps st) as [ok st1].
  destruct (refl.convert_args T Ns ps st0) as [ok0 st2]. simpl in H.
  specialize (IH st1 st2 H).
  destruct (refl.viable T Ns cands st1), (refl.viable T Ns cands st2). exact IH.
Qed.

Lemma viable_other (T T' : ty) (N' : nat) (Ns : list nat) (cands : list (list ty)) :
  T' <> T ->
  forall st, refl.loophole (snd (refl.viable T Ns cands st)) (T', N')
             = refl.loophole st (T', N').
Proof.
  intro n. induction cands as [|ps cands IH]; intro st; simpl; auto.
  destruct (length ps =? length Ns); auto.
  pose proof (convert_args_other T T' N' Ns ps n st) as H.
  destruct (refl.convert_args T Ns ps st) as [ok st1]. simpl in H.
  specialize (IH st1).
  destruct (refl.viable T Ns cands st1). simpl in *. congruence.
Qed.

Lemma direct_init_same (T : ty) (Ns : list nat) (st st0 : refl.loopholes) :
  same_tags T st st0 ->
  same_tags T (snd (refl.direct_init ct T Ns st)) (snd (refl.direct_init ct T Ns st0)).
Proof.
  intro S. unfold refl.direct_init. destruct Ns as [|N Ns]; auto.
  destruct T; auto. destruct (find_class ct name) as [d|]; auto.
  pose proof (viable_same (TClass name) (N :: Ns) (refl.candidates (TClass name) d) st st0 S) as H.
  destruct (refl.viable _ _ _ st), (refl.viable _ _ _ st0). exact H.
Qed.

Lemma direct_init_other (T T' : ty) (N' : nat) (Ns : list nat) (st : refl.loopholes) :
  T' <> T ->
  refl.loophole (snd (refl.direct_init ct T Ns st)) (T', N') = refl.loophole st (T', N').
Proof.
  intro n. unfold refl.direct_init. destruct Ns as [|N Ns]; auto.
  destruct T; auto. destruct (find_class ct name) as [d|]; auto.
  pose proof (viable_other (TClass name) T' N' (N :: Ns)
                (refl.candidates (TClass name) d) n st) as H.
  destruct (refl.viable _ _ _ st). exact H.
Qed.

Lemma fields_number_ctor_same (depth : nat) (T : ty) :
  forall Ns st st0, same_tags T st st0 ->
    fst (refl.fields_number_ctor ct depth T Ns st)
    = fst (refl.fields_number_ctor ct depth T Ns st0)
    /\ same_tags T (snd (refl.fields_number_ctor ct depth T Ns st))
                   (snd (refl.fields_number_ctor ct depth T Ns st0)).
Proof.
  induction depth as [|depth IH]; intros Ns st st0 S; simpl; auto.
  pose proof (direct_init_verdict ct T Ns st st0) as V.
  pose proof (direct_init_same T Ns st st0 S) as H.
  destruct (refl.direct_init ct T Ns st) as [ok st1].
  destruct (refl.direct_init ct T Ns st0) as [ok0 st2]. simpl in V, H. subst ok0.
  destruct ok; simpl; auto.
Qed.

Lemma fields_number_ctor_other (depth : nat) (T T' : ty) (N' : nat) :
  T' <> T ->
  forall Ns st,
    refl.loophole (snd (refl.fields_number_ctor ct depth T Ns st)) (T', N')
    = refl.loophole st (T', N').
Proof.
  intro n. induction depth as [|depth IH]; intros Ns st; simpl; auto.
  pose proof (direct_init_other T T' N' Ns st n) as H.
  destruct (refl.direct_init ct T Ns st) as [ok st1]. simpl in H.
  destruct ok; simpl; auto. rewrite IH. exact H.
Qed.

Lemma loophole_tuple_same (T : ty) (Ns : list nat) (st st0 : refl.loopholes) :
  same_tags T st st0 -> refl.loophole_tuple T Ns st = refl.loophole_tuple T Ns st0.
Proof.
  intro S. induction Ns as [|N Ns IH]; simpl; auto. now rewrite (S N), IH.
Qed.

(** X10: [as_tuple<T>] reads and writes only the friends of the tags of
    [T]: two stores that agree on those tags give the same tuple, so friends
    defined for other types do not matter, and the friends of every other
    type are left as they were. *)
Theorem discovery_is_local_to_its_type
  (depth : nat) (T : ty) (st st0 : refl.loopholes) :
  same_tags T st st0 ->
  fst (refl.as_tuple ct depth T st) = fst (refl.as_tuple ct depth T st0)
  /\ forall T' N, T' <> T ->
       refl.loophole (snd (refl.as_tuple ct depth T st)) (T', N)
       = refl.loophole st (T', N).
Proof.
  intro S. unfold refl.as_tuple.
  destruct (fields_number_ctor_same depth T [] st st0 S) as [E H].
  pose proof (fun T' N n => fields_number_ctor_other depth T T' N n [] st) as O.
  destruct (refl.fields_number_ctor ct depth T [] st) as [[n|] st1].
  - destruct (refl.fields_number_ctor ct depth T [] st0) as [[m|] st2];
      simpl in E, H, O; [|discriminate].
    inversion E; subst m. simpl. split.
    + now apply loophole_tuple_same.
    + intros T' N n'. now apply O.
  - destruct (refl.fields_number_ctor ct depth T [] st0) as [[m|] st2];
      simpl in E, H, O; [discriminate|].
    simpl. split; auto.
Qed.

(** A probe whose tag is defined leaves the store as it is. *)
Lemma c_op_fixed (T : ty) (N : nat) (U : ty) (st st' : refl.loopholes) :
  refl.cloophole st (T, N) = true -> refl.c_op T N U st = Some st' -> st' = st.
Proof.
  unfold refl.c_op, refl.fn_def, refl.ins. intros D.
  rewrite D. destruct (refl.fn_def_enabled T U); [|discriminate]. congruence.
Qed.

Lemma convert_args_fixed (T : ty) (Ns : list nat) (ps : list ty) (st : refl.loopholes) :
  (forall N, In N Ns -> refl.cloophole st (T, N) = true) ->
  snd (refl.convert_args T Ns ps st) = st.
Proof.
  revert ps. induction Ns as [|N Ns IH]; intros [|P ps] D; simpl; auto.
  unfold refl.convert_probe.
  destruct (refl.c_op T N (remove_cv (remove_reference P)) st) as [st1|] eqn:E; auto.
  apply c_op_fixed in E; [|apply D; now left]. subst st1.
  destruct (refl.binds_prvalue P); auto.
  apply IH. intros M I. apply D. now right.
Qed.

Lemma viable_fixed (T : ty) (Ns : list nat) (cands : list (list ty)) (st : refl.loopholes) :
  (forall N, In N Ns -> refl.cloophole st (T, N) = true) ->
  snd (refl.viable T Ns cands st) = st.
Proof.
  intro D. induction cands as [|ps cands IH]; simpl; auto.
  destruct (length ps =? length Ns); auto.
  pose proof (convert_args_fixed T Ns ps st D) as H.
  destruct (refl.convert_args T Ns ps st) as [ok st1]. simpl in H. subst st1.
  destruct (refl.viable T Ns cands st). simpl in *. exact IH.
Qed.

Lemma direct_init_fixed (T : ty) (Ns : list nat) (st : refl.loopholes) :
  (forall N, In N Ns -> refl.cloophole st (T, N) = true) ->
  snd (refl.direct_init ct T Ns st) = st.
Proof.
  intro D. unfold refl.direct_init. destruct Ns as [|N Ns]; auto.
  destruct T; auto. destruct (find_class ct name) as [d|]; auto.
  pose proof (viable_fixed (TClass name) (N :: Ns) (refl.candidates (TClass name) d) st D) as H.
  destruct (refl.viable _ _ _ st). exact H.
Qed.

Lemma fields_number_ctor_lower (depth : nat) (T : ty) :
  forall k st n,
    fst (refl.fields_number_ctor ct depth T (seq 0 k) st) = Some n -> k <= n.
Proof.
  induction depth as [|depth IH]; intros k st n; simpl; [discriminate|].
  destruct (refl.direct_init ct T (seq 0 k) st) as [ok st1]. destruct ok; simpl.
  - rewrite length_seq. intro H. inversion H. lia.
  - rewrite seq_snoc. intro H. apply IH in H. lia.
Qed.

Lemma fields_number_ctor_rerun (depth : nat) (T : ty) (n : nat) :
  forall k st st',
    fst (refl.fields_number_ctor ct depth T (seq 0 k) st) = Some n ->
    (forall i, i < n -> refl.cloophole st' (T, i) = true) ->
    refl.fields_number_ctor ct depth T (seq 0 k) st' = (Some n, st').
Proof.
  induction depth as [|depth IH]; intros k st st' H D; simpl in *; [discriminate|].
  pose proof (fields_number_ctor_lower (S depth) T k st n) as L. simpl in L.
  specialize (L H).
  pose proof (direct_init_verdict ct T (seq 0 k) st st') as V.
  assert (Fx : snd (refl.direct_init ct T (seq 0 k) st') = st').
  { apply direct_init_fixed. intros N I. apply in_seq in I.
    destruct (refl.direct_init ct T (seq 0 k) st) as [ok st1]. destruct ok; simpl in H.
    - rewrite length_seq in H. inversion H; subst. apply D. lia.
    - rewrite seq_snoc in H. apply fields_number_ctor_lower in H. apply D. lia. }
  destruct (refl.direct_init ct T (seq 0 k) st) as [ok st1].
  destruct (refl.direct_init ct T (seq 0 k) st') as [ok' st2].
  simpl in V, Fx. subst ok' st2. destruct ok; simpl in *.
  - congruence.
  - rewrite seq_snoc in *. eapply IH; eauto.
Qed.

(** X11: discovery is idempotent: forming [as_tuple<T>] again on the store
    the first discovery left gives the same tuple and defines nothing
    new. *)
Theorem discovery_is_idempotent
  (depth : nat) (T : ty) (st : refl.loopholes) (sig : list ty) :
  fst (refl.as_tuple ct depth T st) = Some sig ->
  refl.as_tuple ct depth T (snd (refl.as_tuple ct depth T st))
  = (Some sig, snd (refl.as_tuple ct depth T st)).
Proof.
  unfold refl.as_tuple.
  destruct (fields_number_ctor_defines ct depth T 0 st) as (_ & _ & D). simpl in D.
  pose proof (fields_number_ctor_rerun depth T) as Re.
  destruct (refl.fields_number_ctor ct depth T [] st) as [[n|] st1] eqn:E;
    simpl in *; [|discriminate].
  intro H.
  assert (R2 : refl.fields_number_ctor ct depth T (seq 0 0) st1 = (Some n, st1)).
  { apply (Re n 0 st st1); [simpl; now rewrite E|intros i Hi; eapply D; eauto]. }
  simpl in R2. rewrite R2. simpl. now rewrite H.
Qed.

Lemma list_init_grows (T : ty) (Ns : list nat) (st : refl.loopholes) :
  grows st (snd (refl.list_init ct T Ns st)).
Proof.
  unfold refl.list_init. destruct T; try apply direct_init_defines.
  destruct (find_class ct name) as [d|]; [|apply grows_refl].
  destruct (ctors d); [|apply direct_init_defines].
  destruct (length Ns <=? length (refl.elements d)); [|apply grows_refl].
  pose proof (convert_args_defines (TClass name) Ns
                (firstn (length Ns) (refl.elements d)) st) as H.
  destruct (refl.convert_args _ _ _ st). apply H.
Qed.

Lemma fields_number_grows (depth : nat) (T : ty) :
  forall Ns st, grows st (snd (refl.fields_number ct depth T Ns st)).
Proof.
  induction depth as [|depth IH]; intros Ns st; simpl; [apply grows_refl|].
  pose proof (list_init_grows T Ns st) as G.
  destruct (refl.list_init ct T Ns st) as [ok st1]. simpl in G.
  destruct ok; simpl; auto. eapply grows_trans; eauto.
Qed.

(** X12: the first definition of a friend wins: whatever [fields_number] and
    [as_tuple] instantiate, for whatever type, a friend that had a body
    before keeps its return type. *)
Theorem friends_are_never_redefined
  (depth : nat) (T : ty) (st : refl.loopholes) (t : refl.tag) (V : ty) :
  refl.loophole st t = Some V ->
  refl.loophole (snd (refl.fields_number ct depth T [] st)) t = Some V
  /\ refl.loophole (snd (refl.as_tuple ct depth T st)) t = Some V.
Proof.
  intro H. split.
  - now apply fields_number_grows.
  - unfold refl.as_tuple.
    destruct (fields_number_ctor_defines ct depth T 0 st) as (G & _). simpl in G.
    destruct (refl.fields_number_ctor ct depth T [] st) as [[n|] st1]; simpl in *;
      now apply G.
Qed.

End DiscoveryFrame.

(** ** Discovery: what it finds *)

Section DiscoveryResults.

Variable ct : class_table.

Lemma convert_probe_converts (T : ty) (N : nat) (P : ty) (st : refl.loopholes) :
  match refl.convert_probe T N P st with
  | Some (ok, _) => ok = probe_converts T P
  | None => probe_converts T P = false
  end.
Proof.
  unfold refl.convert_probe, probe_converts, refl.c_op, refl.fn_def.
  destruct (refl.fn_def_enabled T _); simpl.
  - now rewrite andb_true_r.
  - apply andb_false_r.
Qed.

Lemma convert_args_length (T : ty) (Ns : list nat) (ps : list ty) :
  forall st, length Ns <> length ps -> fst (refl.convert_args T Ns ps st) = false.
Proof.
  revert ps. induction Ns as [|N Ns IH]; intros [|P ps] st; simpl; auto; try lia.
  intro H. destruct (refl.convert_probe T N P st) as [[[|] st1]|]; auto.
Qed.

Lemma convert_args_all (T : ty) (Ns : list nat) (ps : list ty) :
  forall st, length Ns = length ps ->
    forallb (probe_converts T) ps = true ->
    fst (refl.convert_args T Ns ps st) = true.
Proof.
  revert ps. induction Ns as [|N Ns IH]; intros [|P ps] st; simpl; auto; try discriminate.
  intros L A. apply andb_true_iff in A. destruct A as [A1 A2].
  pose proof (convert_probe_converts T N P st) as H.
  destruct (refl.convert_probe T N P st) as [[ok st1]|]; [|congruence].
  rewrite A1 in H. subst ok. apply IH; auto.
Qed.

Lemma in_skipn (A : Type) (n : nat) :
  forall (l : list A) (x : A), In x (skipn n l) -> In x l.
Proof.
  induction n as [|n IH]; intros [|y l] x; simpl; auto.
Qed.

Lemma in_firstn (A : Type) (n : nat) :
  forall (l : list A) (x : A), In x (firstn n l) -> In x l.
Proof.
  induction n as [|n IH]; intros [|y l] x; simpl; try contradiction.
  intros [H|H]; auto.
Qed.

(** X13: for a type that cannot be list-initialised from nothing (a
    reference, a class without default constructor), [fields_number<T>(0)]
    is [-1]: [sizeof...(Ns) - 1] wraps in [size_t] and comes back as the
    [int] minus one. *)
Theorem fields_number_of_uninitialisable
  (depth : nat) (T : ty) (st : refl.loopholes) :
  brace_initializable ct T 0 = false ->
  fst (refl.fields_number ct (S depth) T [] st) = Some (-1)%Z.
Proof.
  intro H. simpl.
  pose proof (list_init_verdict ct T [] st []) as V.
  unfold brace_initializable in H. simpl in H. rewrite H in V.
  destruct (refl.list_init ct T [] st) as [ok st1]. simpl in V. subst ok.
  reflexivity.
Qed.

(** X14: for an aggregate (a class without user-provided constructor),
    the elements that list-initialisation counts are its direct bases
    followed by its data members.  When a probe converts to each of them and
    each can be initialised from empty braces, [fields_number] is their
    number - base classes included -, given the instantiation depth allows
    two more probes than there are elements. *)
Theorem fields_number_of_aggregate
  (depth : nat) (c : string) (d : class_decl) (st : refl.loopholes) :
  find_class ct c = Some d ->
  ctors d = [] ->
  forallb (probe_converts (TClass c)) (refl.elements d) = true ->
  forallb (empty_initializable ct) (refl.elements d) = true ->
  length (refl.elements d) + 1 < depth ->
  (Z.of_nat depth < 2 ^ 31)%Z ->
  fst (refl.fields_number ct depth (TClass c) [] st)
  = Some (Z.of_nat (length (bases d) + length (fields d))).
Proof.
  intros Hc Hk Hf He Hd Hz.
  assert (Len : length (refl.elements d) = length (bases d) + length (fields d)).
  { unfold refl.elements. now rewrite length_app, length_map. }
  rewrite <- Len.
  assert (Yes : forall j, j <= length (refl.elements d) ->
                  brace_initializable ct (TClass c) j = true).
  { intros j Hj. unfold brace_initializable, refl.list_init. rewrite Hc, Hk, length_seq.
    destruct (j <=? length (refl.elements d)) eqn:E; [|apply Nat.leb_gt in E; lia].
    assert (A : fst (refl.convert_args (TClass c) (seq 0 j)
                       (firstn j (refl.elements d)) []) = true).
    { apply convert_args_all.
      - rewrite length_seq, length_firstn. lia.
      - apply forallb_forall. intros P HP.
        rewrite forallb_forall in Hf. apply Hf. eapply in_firstn; eauto. }
    destruct (refl.convert_args (TClass c) (seq 0 j) (firstn j (refl.elements d)) [])
      as [ok st1].
    simpl in *. rewrite A. simpl.
    apply forallb_forall. intros P HP.
    rewrite forallb_forall in He. apply He. eapply in_skipn; eauto. }
  assert (No : brace_initializable ct (TClass c) (S (length (refl.elements d))) = false).
  { unfold brace_initializable, refl.list_init. rewrite Hc, Hk, length_seq.
    destruct (S (length (refl.elements d)) <=? length (refl.elements d)) eqn:E; auto.
    apply Nat.leb_le in E. lia. }
  pose proof (fields_number_from ct (TClass c) depth 0 st) as H. simpl in H.
  destruct (fst (refl.fields_number ct depth (TClass c) [] st)) as [r|].
  - destruct H as (N & _ & B & C & D & E).
    assert (N = S (length (refl.elements d))).
    { destruct (Nat.lt_trichotomy N (S (length (refl.elements d)))) as [L|[L|L]]; auto.
      - rewrite Yes in D by lia. discriminate.
      - rewrite E in No by lia. discriminate. }
    subst N. rewrite C, to_int_size_t_sub by lia. f_equal. lia.
  - rewrite H in No by lia. discriminate.
Qed.

Lemma skipn_cons (A : Type) (a : nat) :
  forall (l : list A) (x : A) (rest : list A),
    skipn a l = x :: rest -> nth_error l a = Some x /\ skipn (S a) l = rest.
Proof.
  induction a as [|a IH]; intros [|y l] x rest; simpl; try discriminate.
  - intro H. inversion H. auto.
  - intro H. apply IH in H. exact H.
Qed.

Lemma c_op_agrees (T : ty) (Us : list ty) (N : nat) (U : ty) (st st' : refl.loopholes) :
  agrees T Us st -> nth_error Us N = Some U ->
  refl.c_op T N U st = Some st' -> agrees T Us st'.
Proof.
  intros A HN. unfold refl.c_op, refl.fn_def.
  destruct (refl.fn_def_enabled T U); [|discriminate].
  destruct (refl.ins T U N st); intro H; inversion H; subst; auto.
  intros i V. rewrite loophole_app.
  destruct (refl.loophole st (T, i)) as [W|] eqn:E.
  - intro HV. inversion HV; subst. now apply A.
  - destruct (refl.tag_eq_dec (T, i) (T, N)) as [e|]; [|discriminate].
    intro HV. inversion HV; subst. inversion e; subst. exact HN.
Qed.

Lemma convert_args_agrees (T : ty) (ps : list ty) (j : nat) :
  forall a st,
    agrees T (map (fun P => remove_cv (remove_reference P)) ps) st ->
    agrees T (map (fun P => remove_cv (remove_reference P)) ps)
      (snd (refl.convert_args T (seq a j) (skipn a ps) st)).
Proof.
  induction j as [|j IH]; intros a st A; simpl.
  - destruct (skipn a ps); exact A.
  - destruct (skipn a ps) as [|P rest] eqn:E; [exact A|].
    apply skipn_cons in E. destruct E as [HN HR].
    unfold refl.convert_probe.
    destruct (refl.c_op T a (remove_cv (remove_reference P)) st) as [st1|] eqn:C;
      [|exact A].
    assert (A1 : agrees T (map (fun P => remove_cv (remove_reference P)) ps) st1).
    { eapply c_op_agrees; [exact A| |exact C].
      exact (map_nth_error (fun P => remove_cv (remove_reference P)) a ps HN). }
    destruct (refl.binds_prvalue P); [|exact A1].
    rewrite <- HR. now apply IH.
Qed.

Lemma convert_args_self (c : string) (Ns : list nat) (P : ty) (st : refl.loopholes) :
  P = TLRef (TConst (TClass c)) \/ P = TRRef (TClass c) ->
  refl.convert_args (TClass c) Ns [P] st = (false, st).
Proof.
  intro H. destruct Ns as [|N Ns]; simpl; auto.
  assert (E : refl.convert_probe (TClass c) N P st = None).
  { unfold refl.convert_probe, refl.c_op, refl.fn_def, refl.fn_def_enabled.
    destruct H as [->| ->]; simpl; now rewrite is_same_refl. }
  now rewrite E.
Qed.

(** The copy and the move constructor take no probe. *)
Lemma viable_implicit (c : string) (Ns : list nat) (st : refl.loopholes) :
  refl.viable (TClass c) Ns [[TLRef (TConst (TClass c))]; [TRRef (TClass c)]] st
  = ([], st).
Proof.
  cbn [refl.viable length]. destruct (1 =? length Ns); [|reflexivity].
  rewrite !convert_args_self by auto. reflexivity.
Qed.

Lemma viable_cons (T : ty) (Ns : list nat) (ps : list ty) (cands : list (list ty))
  (st : refl.loopholes) :
  refl.viable T Ns (ps :: cands) st
  = if length ps =? length Ns
    then (if fst (refl.convert_args T Ns ps st)
          then ps :: fst (refl.viable T Ns cands (snd (refl.convert_args T Ns ps st)))
          else fst (refl.viable T Ns cands (snd (refl.convert_args T Ns ps st))),
          snd (refl.viable T Ns cands (snd (refl.convert_args T Ns ps st))))
    else refl.viable T Ns cands st.
Proof.
  cbn [refl.viable]. destruct (length ps =? length Ns); [|reflexivity].
  destruct (refl.convert_args T Ns ps st) as [ok st1]. cbn [fst snd].
  destruct (refl.viable T Ns cands st1). reflexivity.
Qed.

(** With one user-provided constructor, the probes are tried against it
    alone, when there are as many as it has parameters. *)
Lemma direct_init_single (c : string) (d : class_decl) (ps : list ty)
  (N : nat) (Ns : list nat) (st : refl.loopholes) :
  find_class ct c = Some d -> ctors d = [ps] ->
  refl.direct_init ct (TClass c) (N :: Ns) st
  = if length ps =? length (N :: Ns)
    then refl.convert_args (TClass c) (N :: Ns) ps st
    else (false, st).
Proof.
  intros Hc Hk. unfold refl.direct_init, refl.candidates. rewrite Hc, Hk.
  cbn [app]. rewrite viable_cons.
  destruct (length ps =? length (N :: Ns)).
  - rewrite viable_implicit. cbn [fst snd].
    destruct (refl.convert_args (TClass c) (N :: Ns) ps st) as [ok st1].
    destruct ok; reflexivity.
  - rewrite viable_implicit. reflexivity.
Qed.

Lemma fields_number_ctor_agrees (c : string) (d : class_decl) (ps : list ty) (depth : nat) :
  find_class ct c = Some d -> ctors d = [ps] ->
  forall k st,
    agrees (TClass c) (map (fun P => remove_cv (remove_reference P)) ps) st ->
    agrees (TClass c) (map (fun P => remove_cv (remove_reference P)) ps)
      (snd (refl.fields_number_ctor ct depth (TClass c) (seq 0 k) st)).
Proof.
  intros Hc Hk. induction depth as [|depth IH]; intros k st A; simpl; auto.
  assert (A1 : agrees (TClass c) (map (fun P => remove_cv (remove_reference P)) ps)
                 (snd (refl.direct_init ct (TClass c) (seq 0 k) st))).
  { destruct k as [|k]; [exact A|].
    change (seq 0 (S k)) with (0 :: seq 1 k).
    rewrite (direct_init_single c d ps 0 (seq 1 k) st Hc Hk).
    destruct (length ps =? length (0 :: seq 1 k)); [|exact A].
    apply (convert_args_agrees (TClass c) ps (S k) 0 st A). }
  destruct (refl.direct_init ct (TClass c) (seq 0 k) st) as [ok st1]. simpl in A1.
  destruct ok; simpl; auto. rewrite seq_snoc. now apply IH.
Qed.

Lemma nth_error_ext_length (A : Type) (l l' : list A) :
  length l = length l' ->
  (forall i, i < length l -> nth_error l i = nth_error l' i) -> l = l'.
Proof.
  revert l'. induction l as [|x l IH]; intros [|y l'] L H; simpl in *; try lia; auto.
  pose proof (H 0 ltac:(lia)) as H0. simpl in H0. inversion H0; subst. f_equal.
  apply IH; [lia|]. intros i Hi. apply (H (S i)). lia.
Qed.

Lemma forallb_mapped {A B : Type} (f : A -> B) (p : B -> bool) (l : list A) :
  forallb p (map f l) = forallb (fun x => p (f x)) l.
Proof. induction l as [|x l IH]; simpl; auto. now rewrite IH. Qed.

(** What [as_tuple] reads for a class with one constructor. *)
Lemma as_tuple_single (depth : nat) (c : string) (d : class_decl) (ps : list ty) :
  find_class ct c = Some d ->
  ctors d = [ps] ->
  ps <> [] ->
  forallb (probe_converts (TClass c)) ps = true ->
  length ps < depth ->
  fst (refl.as_tuple ct depth (TClass c) [])
  = Some (map (fun P => remove_cv (remove_reference P)) ps).
Proof.
  intros Hc Hk Hne Hf Hd.
  set (T := TClass c). set (Us := map (fun P => remove_cv (remove_reference P)) ps).
  assert (C0 : constructible ct T 0 = false).
  { unfold constructible. simpl. unfold known_as. simpl.
    assert (F : forall tbl, find_class tbl c = Some d ->
              exists f, facts tbl c = Some f /\ default_init f = false).
    { induction tbl as [|[c' d'] tbl IHt]; simpl; [discriminate|].
      destruct (String.eqb c c').
      - intro E. inversion E; subst d'. eexists. split; [reflexivity|].
        unfold facts_of. rewrite Hk. simpl. destruct ps; [congruence|reflexivity].
      - exact IHt. }
    destruct (F ct Hc) as (f & Ef & Df). now rewrite Ef. }
  assert (Cj : forall j, 0 < j -> constructible ct T j
               = if length ps =? j then fst (refl.convert_args T (seq 0 j) ps [])
                 else false).
  { intros [|j] Hj; [lia|]. unfold constructible.
    change (seq 0 (S j)) with (0 :: seq 1 j).
    unfold T. rewrite (direct_init_single c d ps 0 (seq 1 j) [] Hc Hk).
    simpl length. rewrite length_seq. destruct (length ps =? S j); reflexivity. }
  assert (Ck : constructible ct T (length ps) = true).
  { rewrite Cj by (destruct ps; [congruence|simpl; lia]).
    rewrite Nat.eqb_refl.
    apply convert_args_all; auto. apply length_seq. }
  assert (Cl : forall j, j < length ps -> constructible ct T j = false).
  { intros [|j] Hj; [exact C0|]. rewrite Cj by lia.
    destruct (length ps =? S j) eqn:E; [apply Nat.eqb_eq in E; lia|reflexivity]. }
  pose proof (fields_number_ctor_from ct T depth 0 []) as F. simpl in F.
  assert (F0 : forall j, j < 0 -> constructible ct T j = false) by (intros; lia).
  specialize (F F0).
  pose proof (as_tuple_spec ct depth T []) as S.
  assert (A : agrees T Us (snd (refl.as_tuple ct depth T []))).
  { unfold refl.as_tuple.
    pose proof (fields_number_ctor_agrees c d ps depth Hc Hk 0 []) as G. simpl in G.
    assert (A0 : agrees (TClass c) Us []) by (intros i U H; discriminate).
    specialize (G A0). fold T in G.
    destruct (refl.fields_number_ctor ct depth T [] []) as [[n|] st1]; exact G. }
  destruct (fst (refl.fields_number_ctor ct depth T [] [])) as [n|] eqn:E.
  - destruct F as (_ & Fn & Ft & Fl).
    assert (n = length ps).
    { destruct (Nat.lt_trichotomy n (length ps)) as [L|[L|L]]; auto.
      - rewrite Cl in Ft by assumption. discriminate.
      - rewrite Fl in Ck by assumption. discriminate. }
    subst n.
    destruct (fst (refl.as_tuple ct depth T [])) as [sig|]; [|discriminate].
    destruct S as (m & Em & Lm & Nth). injection Em as Em'.
    rewrite <- Em' in Lm, Nth. clear Em' m.
    f_equal. apply nth_error_ext_length.
    + unfold Us. now rewrite length_map.
    + intros i Hi. rewrite Lm in Hi.
      destruct (nth_error sig i) as [U|] eqn:EU.
      * rewrite Nth in EU by assumption. symmetry. now apply A.
      * apply nth_error_None in EU. lia.
  - rewrite F in Ck by assumption. discriminate.
Qed.

(** X15: for a class with exactly one user-provided constructor, with at
    least one parameter, to each of which a probe converts, the tuple of
    [ctr_type] lists the parameter types of that constructor, references
    and cv-qualifiers removed, in declaration order, provided each of these
    types can be initialised from empty braces (the friend that records it
    returns [U{}]).  When one of them cannot, [ctr_type] is not formed. *)
Theorem discovery_finds_the_constructor
  (depth : nat) (c : string) (d : class_decl) (ps : list ty) :
  find_class ct c = Some d ->
  ctors d = [ps] ->
  ps <> [] ->
  forallb (probe_converts (TClass c)) ps = true ->
  length ps < depth ->
  di.ctr_type ct depth (TClass c)
  = if forallb (fun P => empty_initializable ct (remove_cv (remove_reference P))) ps
    then Some (map (fun P => remove_cv (remove_reference P)) ps)
    else None.
Proof.
  intros Hc Hk Hne Hf Hd. unfold di.ctr_type, refl.loophole_bodies.
  rewrite (as_tuple_single depth c d ps Hc Hk Hne Hf Hd), forallb_mapped.
  reflexivity.
Qed.


End DiscoveryResults.

(** ** The tuple written in place *)

Lemma tuple_set_app (pre : list di.handle) (x v : di.handle) (rest : list di.handle) :
  di.tuple_set (length pre) v (pre ++ x :: rest) = pre ++ v :: rest.
Proof.
  induction pre as [|y pre IH]; simpl; auto. now rewrite IH.
Qed.

Lemma tuple_set_length (N : nat) (v : di.handle) :
  forall tuple, length (di.tuple_set N v tuple) = length tuple.
Proof.
  induction N as [|N IH]; intros [|x tuple]; simpl; auto.
Qed.

Lemma tuple_set_other (N : nat) (v : di.handle) :
  forall tuple i, i <> N -> nth_error (di.tuple_set N v tuple) i = nth_error tuple i.
Proof.
  induction N as [|N IH]; intros [|x tuple] [|i] H; simpl; auto; congruence.
Qed.

Lemma map_nth_all (l : list di.handle) :
  map (fun i => nth i l None) (seq 0 (length l)) = l.
Proof.
  induction l as [|x l IH]; simpl; auto. f_equal.
  rewrite <- seq_shift, map_map. exact IH.
Qed.

Section InPlace.

Variable ct : class_table.
Variable depth : nat.
Variable g : ty -> di.comp di.handle.

(** What the positional fill leaves in the positions that are not handles. *)
Lemma construct_tuple_shape (l : list ty) :
  forall s hs s',
    di.construct_tuple g l s = (di.returns hs, s') ->
    written l hs (repeat None (length l)) = hs.
Proof.
  induction l as [|P l IH]; intros s hs s'; cbn [di.construct_tuple].
  - unfold di.ret. intro H. inversion H. reflexivity.
  - unfold di.bind, di.ret.
    destruct (di.construct_tuple_assign g P s) as [[h| | |] s1] eqn:A; try discriminate.
    destruct (di.construct_tuple g l s1) as [[hs1| | |] s2] eqn:R; try discriminate.
    intro H. inversion H; subst. cbn [length repeat written].
    rewrite (IH _ _ _ R). destruct P; simpl; try reflexivity;
      simpl in A; unfold di.ret in A; congruence.
Qed.

(** Writing the positions of [l] one after the other, in a tuple that has
    [l] between its first positions and its last, assigns to these
    positions what the positional fill resolves, and to no other. *)
Lemma construct_tuple_indices_fill (l : list ty) :
  forall TPre TPost : list ty,
  exists fill,
    di.construct_tuple_indices g (TPre ++ l ++ TPost) (seq (length TPre) (length l))
    = Some fill
    /\ forall (pre mid post : list di.handle) (s : di.state),
         length pre = length TPre -> length mid = length l ->
         fill (pre ++ mid ++ post) s
         = map_result (fun hs : list di.handle => pre ++ written l hs mid ++ post)
             (di.construct_tuple g l s).
Proof.
  induction l as [|P l IH]; intros TPre TPost.
  - eexists. split; [reflexivity|].
    intros pre [|m mid] post s _ L; [reflexivity|discriminate].
  - destruct (IH (TPre ++ [P]) TPost) as (go_on & E & Hg).
    rewrite length_app, <- app_assoc in E. simpl in E. rewrite Nat.add_1_r in E.
    assert (Go : forall pre (h : di.handle) mid post s,
              length pre = length TPre -> length mid = length l ->
              go_on (pre ++ h :: mid ++ post) s
              = map_result (fun hs : list di.handle => pre ++ h :: written l hs mid ++ post)
                  (di.construct_tuple g l s)).
    { intros pre h mid post s Lp Lm.
      specialize (Hg (pre ++ [h]) mid post s).
      rewrite <- !app_assoc in Hg. simpl in Hg. rewrite Hg.
      - destruct (di.construct_tuple g l s) as [[hs| | |] s2]; simpl; auto.
        now rewrite <- app_assoc.
      - rewrite !length_app. simpl. lia.
      - exact Lm. }
    change ((P :: l) ++ TPost) with (P :: l ++ TPost).
    cbn [length seq di.construct_tuple_indices]. rewrite E.
    unfold di.construct_tuple_assign_at.
    rewrite nth_error_app2, Nat.sub_diag by auto. cbn [app nth_error].
    destruct P;
      (eexists; split; [reflexivity|];
       intros pre [|m mid] post s Lp Lm; [discriminate|];
       injection Lm as Lm;
       cbn [di.construct_tuple di.construct_tuple_assign written internal.is_shared_ptr app];
       unfold di.bind, di.ret;
       try (rewrite Go by assumption;
            destruct (di.construct_tuple g l s) as [[hs| | |] s2]; reflexivity)).
    destruct (g P s) as [[h| | |] s1]; try reflexivity.
    rewrite <- Lp, tuple_set_app, Go by auto.
    destruct (di.construct_tuple g l s1) as [[hs| | |] s2]; reflexivity.
Qed.

(** X17: the body of the tuple lambdas written statement by statement - a
    default tuple, [construct_tuple<T, 0, size>] assigning index after
    index, [make_shared_from_tuple] reading index after index - does what
    the positional fill does: same outcome, same state, same constructor
    arguments. *)
Theorem tuple_in_place_is_positional_fill (T BASE_T : ty) (s : di.state) :
  di.from_tuple_body ct depth g T BASE_T s = di.make_from_tuple ct depth g T BASE_T s.
Proof.
  unfold di.from_tuple_body, di.make_from_tuple.
  destruct (di.ctr_type ct depth BASE_T) as [l|]; auto.
  unfold di.construct_tuple_range, di.size_t_difference, di.tuple_default.
  cbv zeta. change (0 <=? length l) with true. cbv iota.
  rewrite Nat.sub_0_r, Z.leb_refl, Nat2Z.id.
  destruct (construct_tuple_indices_fill l [] []) as (fill & E & Hf).
  simpl in E. rewrite app_nil_r in E. rewrite E.
  specialize (Hf [] (repeat None (length l)) [] s eq_refl (repeat_length _ _)).
  simpl in Hf. rewrite app_nil_r in Hf.
  unfold di.bind. rewrite Hf.
  pose proof (construct_tuple_shape l s) as Sh.
  destruct (di.construct_tuple g l s) as [[hs| | |] s2]; simpl; auto.
  rewrite app_nil_r, (Sh hs s2 eq_refl).
  unfold di.make_shared_from_tuple. now rewrite map_nth_all.
Qed.


End InPlace.

(** ** What a call touches *)

Section Footprint.

Variable ct : class_table.
Variable depth : nat.

Local Abbreviation registry_get := (di.registry_get ct depth).

(** A resolution writes only registries of types the requested type needs. *)
Lemma registry_get_footprint (fuel : nat) (X : ty) :
  forall T s, ~ needs ct depth s T X ->
    di.statics (snd (registry_get fuel T s)) X = di.statics s X.
Proof.
  induction fuel as [|fuel IH]; intros T s NN; [reflexivity|].
  destruct (di.flag (di.statics s T)) eqn:F.
  2: rewrite registry_get_active by assumption; reflexivity.
  2: rewrite registry_get_called by assumption; reflexivity.
  destruct (di.constructor (di.statics s T)) as [f|] eqn:C.
  2: rewrite registry_get_empty by assumption; reflexivity.
  rewrite (registry_get_unfold ct depth fuel T s f F C).
  assert (XT : X <> T) by (intros ->; apply NN; constructor).
  set (s1 := di.set_flag T di.active s).
  pose (Q := fun (_ : di.outcome unit) (s' : di.state) =>
    di.statics s' X = di.statics s X
    /\ forall Y, di.constructor (di.statics s' Y) = di.constructor (di.statics s Y)).
  assert (G : forall E0 s0, In (TSharedPtr E0) (tuple_of ct depth f) ->
            Q (di.returns tt) s0 ->
            Q (forget (fst (registry_get fuel E0 s0))) (snd (registry_get fuel E0 s0))).
  { intros E0 s0 I0 [H1 H2]. split.
    - rewrite IH; auto. intro N0. apply NN.
      econstructor; eauto. eapply needs_transfer; eauto.
    - intro Y. rewrite (ext_constructor _ _ (registry_get_extends ct depth fuel E0 s0)).
      apply H2. }
  assert (Q1 : Q (di.returns tt) s1).
  { split; [|intro Y]; unfold s1; st_simpl. }
  pose proof (construct_tuple_post (registry_get fuel) Q (tuple_of ct depth f) G s1 Q1) as P.
  destruct (di.construct_tuple _ _ _) as [[args| | |] s2]; simpl in P |- *;
    destruct P as [P _]; rewrite <- P; st_simpl.
Qed.

(** X19: a call of [add<Interface, T>()] constructs nothing and resolves
    nothing: heap, log, every flag and every cached handle stay as they
    are, and no registry other than that of [Interface] is written. *)
Theorem add_only_writes_its_constructor (Interface T : ty) (s : di.state) :
  di.heap (di.add ct Interface T s) = di.heap s
  /\ di.evaluated (di.add ct Interface T s) = di.evaluated s
  /\ (forall X, di.flag (di.statics (di.add ct Interface T s) X) = di.flag (di.statics s X)
                /\ di.obj (di.statics (di.add ct Interface T s) X) = di.obj (di.statics s X))
  /\ (forall X, X <> Interface ->
                di.statics (di.add ct Interface T s) X = di.statics s X).
Proof.
  destruct (add_frame ct Interface T s) as (Hh & He & Hf & Ho & Hx).
  repeat split; auto.
Qed.

(** X20: a call of [get<T>()] that returns has resolved everything [T]
    needs: each such type has its flag set and its singleton cached, at an
    address not above that of the object returned. *)
Theorem get_resolves_the_dependency_closure
  (s s' : di.state) (T X : ty) (fuel : nat) (p : di.handle) :
  later ct depth di.init s ->
  di.get ct depth fuel T s = (di.returns p, s') ->
  needs ct depth s T X ->
  di.flag (di.statics s' X) = di.called
  /\ exists a b, p = Some a /\ di.obj (di.statics s' X) = Some b /\ b <= a.
Proof.
  intros L R N. unfold di.get in R.
  pose proof (later_consistent ct depth _ _ L consistent_init) as K.
  pose proof (later_wired ct depth _ _ L consistent_init (wired_init ct depth)) as W.
  pose proof (registry_get_consistent ct depth fuel T s K) as K'.
  pose proof (registry_get_wired ct depth fuel T s K W) as W'.
  pose proof (registry_get_extends ct depth fuel T s) as Ex.
  rewrite R in K', W', Ex. simpl in K', W', Ex.
  destruct (registry_get_returns ct depth _ _ _ _ _ R) as [F O].
  assert (N' : needs ct depth s' T X).
  { eapply needs_same_constructors; [|exact N]. apply (ext_constructor _ _ Ex). }
  destruct (needs_called ct depth s' T X K' W' N' F) as (FX & a & b & Oa & Ob & Le).
  split; auto. exists a, b. repeat split; auto. congruence.
Qed.

(** X21: a call of [get<T>()] writes no registry of a type that [T] does
    not need: bindings outside the dependencies of [T] are neither resolved
    nor changed, however the call ends. *)
Theorem get_leaves_unrelated_types_alone
  (s : di.state) (T X : ty) (fuel : nat) :
  ~ needs ct depth s T X ->
  di.statics (snd (di.get ct depth fuel T s)) X = di.statics s X.
Proof.
  intro NN. unfold di.get. now apply registry_get_footprint.
Qed.

End Footprint.

(** ** Resolution that is bound to succeed *)

Section Resolution.

Variable ct : class_table.
Variable depth : nat.

Local Abbreviation registry_get := (di.registry_get ct depth).

(** A run whose calls all return leads to a state the client can reach. *)
Lemma run_later (fuel : nat) (p : list di.stmt) :
  forall s s', di.run ct depth fuel p s = (di.returns tt, s') -> later ct depth s s'.
Proof.
  induction p as [|c p IH]; intros s s'; simpl.
  - unfold di.ret. intro H. inversion H. constructor.
  - unfold di.bind.
    destruct (di.exec ct depth fuel c s) as [[[]| | |] s1] eqn:E; try discriminate.
    intro R. apply (later_trans ct depth s s1 s'); [|now apply IH].
    destruct c as [I T|T|T]; simpl in E.
    + inversion E. apply later_add, later_refl.
    + inversion E. apply later_add, later_refl.
    + unfold di.bind, di.ret in E.
      destruct (di.get ct depth fuel T s) as [[h| | |] s2] eqn:G; try discriminate.
      inversion E; subst.
      replace s1 with (snd (di.get ct depth fuel T s)) by now rewrite G.
      apply later_get; [apply later_refl|]. now rewrite G.
Qed.

(** Calls of [add] need no budget. *)
Lemma run_adds_fuel (adds : list di.stmt) :
  Forall is_add adds ->
  forall fuel fuel' s, di.run ct depth fuel adds s = di.run ct depth fuel' adds s.
Proof.
  induction 1 as [|c adds Hc _ IH]; intros fuel fuel' s; [reflexivity|].
  destruct c as [I T|T|T]; [| |contradiction]; simpl; unfold di.bind; apply IH.
Qed.

(** From a state the client can reach, [get<T>()] returns a handle that is
    not null, given enough budget, when every type [T] needs has a stored
    factory and none is on a cycle. *)
Lemma resolution_succeeds (s : di.state) (T : ty) :
  later ct depth di.init s ->
  exists n, forall fuel, n < fuel ->
    (forall E, needs ct depth s T E -> di.constructor (di.statics s E) <> None) ->
    (forall X, needs ct depth s T X -> ~ cyclic ct depth s X) ->
    exists a s', di.get ct depth fuel T s = (di.returns (Some a), s').
Proof.
  intro L.
  assert (Quiet : forall X, di.flag (di.statics s X) <> di.active).
  { apply (later_quiet ct depth _ _ L). intros X. simpl. discriminate. }
  destruct (later_bound ct depth s L) as (ks & N & B).
  pose proof (later_consistent ct depth _ _ L consistent_init) as K.
  exists (length ks). intros fuel Hf Bound Acyclic. unfold di.get.
  assert (M : length (filter (pending s) ks) < fuel).
  { eapply Nat.le_lt_trans; [apply List.filter_length_le|exact Hf]. }
  destruct (registry_get_terminates ct depth ks N fuel T s B M) as [NF _].
  pose proof (registry_get_consistent ct depth fuel T s K) as K'.
  destruct (registry_get fuel T s) as [[p|E| |] s'] eqn:R; simpl in *.
  - destruct (registry_get_returns ct depth _ _ _ _ _ R) as [F O].
    destruct (cons_obj _ K' T F) as (a & f & o & H1 & _).
    exists a, s'. replace p with (Some a) by congruence. reflexivity.
  - destruct (registry_get_throws ct depth fuel _ _ _ _ R) as [CE NE].
    destruct (Bound E NE CE).
  - destruct (registry_get_deadlocks ct depth fuel _ _ _ R) as (X & NX & [A|Cy]).
    + destruct (Quiet X A).
    + destruct (Acyclic X NX Cy).
  - congruence.
Qed.

(** C3: calls of [add] construct nothing: after any sequence of them on the
    freshly started program the heap is empty and the count of every class
    is zero.  When the sequence compiles and registers [T], a factory for
    [T] is stored; and when every type [T] needs has a stored factory and
    none is on a dependency cycle, any number [k + 1] of calls of
    [get<T>()] in a row return, given enough budget, and leave the count of
    the class that the factory of [T] makes at exactly one. *)
Theorem C3_lazy_construction (adds : list di.stmt) (T : ty) :
  Forall is_add adds ->
  exists s1,
    (forall fuel, di.run ct depth fuel adds di.init = (di.returns tt, s1))
    /\ di.heap s1 = []
    /\ (forall C, di.constructed C s1 = 0)
    /\ (di.translate ct depth adds [] = [] ->
        (exists c, In c adds /\ registers c T) ->
        exists f,
          di.constructor (di.statics s1 T) = Some f
          /\ ((forall E, needs ct depth s1 T E ->
                         di.constructor (di.statics s1 E) <> None) ->
              (forall X, needs ct depth s1 T X -> ~ cyclic ct depth s1 X) ->
              exists n, forall fuel, n < fuel ->
                exists a s2,
                  di.get ct depth fuel T s1 = (di.returns (Some a), s2)
                  /\ forall k,
                       di.run ct depth fuel (repeat (di.Get T) (S k)) s1
                       = (di.returns tt, s2)
                       /\ di.constructed (di.made_class f) s2 = 1)).
Proof.
  intro A. destruct (run_adds ct depth 0 adds A di.init) as (s1 & R & Hh & Hf & Hw).
  exists s1. split; [|split; [exact Hh|]].
  { intro fuel. now rewrite (run_adds_fuel adds A fuel 0). }
  assert (Z : forall C, di.constructed C s1 = 0).
  { intro C. unfold di.constructed. now rewrite Hh. }
  split; [exact Z|].
  intros Tr Rg.
  assert (B : di.constructor (di.statics s1 T) <> None).
  { eapply (run_binds ct depth 0 adds T); [|exact R|right; exact Rg].
    intros I T' HI. eapply translate_clean_adds; eauto. }
  destruct (di.constructor (di.statics s1 T)) as [f|] eqn:C; [|congruence].
  exists f. split; [reflexivity|]. intros Bound Acyclic.
  pose proof (run_later 0 adds _ _ R) as L.
  destruct (resolution_succeeds s1 T L) as (n & Res).
  exists n. intros fuel Hn.
  destruct (Res fuel Hn Bound Acyclic) as (a & s2 & G).
  exists a, s2. split; [exact G|]. intro k.
  assert (W : well_kinded ct s1).
  { apply Hw. intros X g H. simpl in H. discriminate. }
  assert (F : di.flag (di.statics s1 T) = di.not_called) by (rewrite Hf; reflexivity).
  unfold di.get in G.
  pose proof (registry_get_builds_once ct depth fuel T f s1 s2 (Some a) W F C G) as Once.
  rewrite Z in Once. split; [|exact Once].
  destruct (registry_get_returns ct depth _ _ _ _ _ G) as [F2 O2].
  assert (Again : forall m, di.run ct depth fuel (repeat (di.Get T) m) s2
                            = (di.returns tt, s2)).
  { induction m as [|m IHm]; [reflexivity|].
    simpl. unfold di.bind, di.get.
    destruct fuel as [|fuel']; [discriminate|].
    rewrite registry_get_called by assumption. simpl. exact IHm. }
  simpl. unfold di.bind at 1. unfold di.bind at 1. unfold di.get. rewrite G. simpl.
  apply Again.
Qed.

End Resolution.


(** ** The parameters of a discovered constructor *)

Lemma Forall2_impl_in {A B : Type} (R R' : A -> B -> Prop) (l : list A) (l' : list B) :
  (forall x y, In x l -> R x y -> R' x y) -> Forall2 R l l' -> Forall2 R' l l'.
Proof.
  intros H F. induction F as [|x y l l' Rxy _ IH]; constructor.
  - apply H; [now left|exact Rxy].
  - apply IH. intros x0 y0 I0. apply H. now right.
Qed.

Section Handles.

Variable ct : class_table.
Variable depth : nat.

(** [construct_tuple] reports [fail_type<BASE_T, P>] for the elements [P]
    that are no [std::shared_ptr], and nothing else. *)
Lemma check_tuple_reports (BASE_T : ty) (TUPLE_T : list ty) (d : di.diagnostic) :
  In d (di.check_tuple BASE_T TUPLE_T)
  <-> exists P, In P TUPLE_T /\ internal.is_shared_ptr P = false
                /\ d = di.fail_type BASE_T P.
Proof.
  unfold di.check_tuple. rewrite in_flat_map. unfold di.check_tuple_assign. split.
  - intros (P & I & H). exists P. destruct (internal.is_shared_ptr P); [destruct H|].
    destruct H as [<-|[]]. auto.
  - intros (P & I & N & ->). exists P. rewrite N. split; [exact I|now left].
Qed.

(** What instantiating [add] reports for a class with a discovered tuple. *)
Lemma instantiate_add_reports (Interface T : ty) (sig : list ty)
  (l : type_registry.ledger) (d : di.diagnostic) :
  di.implements ct Interface T = true ->
  di.ctr_type ct depth T = Some sig ->
  In d (fst (di.instantiate_add ct depth Interface T l))
  <-> In d (di.check_tuple T sig) \/ In d (di.check_make_shared ct T sig)
      \/ In d (di.check_pointer_cast ct Interface T).
Proof.
  intros H Sg. unfold di.instantiate_add. rewrite H, Sg.
  destruct (is_default_constructible ct T) eqn:D; cbn [fst].
  - rewrite (ctr_type_default ct depth T sig D Sg).
    unfold di.check_make_shared. simpl. rewrite D. simpl. tauto.
  - rewrite !in_app_iff. tauto.
Qed.

(** C8, as the code has it: let [add<Interface, T>] be instantiated for a class [T]
    with the discovered tuple [sig].  The build reports [fail_type<C, P>]
    exactly for [C = T] and the elements [P] of [sig] that are no
    [std::shared_ptr]; it never reports an element type as missing from the
    container, the factory resolving its parameters through
    [registry<E>::get()] and not through [get<E>()].  When every element is
    a [std::shared_ptr]: after [add<Interface, T>()] has stored the factory,
    [get<Interface>()] returns, given enough budget and provided every type
    [Interface] needs has a stored factory and none is on a cycle, a handle
    to an object of class [T] whose constructor arguments are, position by
    position in the order of [sig], the handles that [registry<E>::get()]
    returns for the element types [E]. *)
Theorem C8_handle_parameters
  (Interface T : ty) (sig : list ty) (l : type_registry.ledger) :
  di.implements ct Interface T = true ->
  di.ctr_type ct depth T = Some sig ->
  (forall C P, In (di.fail_type C P) (fst (di.instantiate_add ct depth Interface T l))
               <-> C = T /\ In P sig /\ internal.is_shared_ptr P = false)
  /\ (forall E, ~ In (di.not_detected_in_di_container E)
                     (fst (di.instantiate_add ct depth Interface T l)))
  /\ ((forall P, In P sig -> internal.is_shared_ptr P = true) ->
      forall s,
        later ct depth di.init s ->
        di.constructor (di.statics s Interface) = None ->
        (forall E, needs ct depth (di.add ct Interface T s) Interface E ->
                   di.constructor (di.statics (di.add ct Interface T s) E) <> None) ->
        (forall X, needs ct depth (di.add ct Interface T s) Interface X ->
                   ~ cyclic ct depth (di.add ct Interface T s) X) ->
        exists n, forall fuel, n < fuel ->
          exists a args s',
            di.get ct depth fuel Interface (di.add ct Interface T s)
            = (di.returns (Some a), s')
            /\ nth_error (di.heap s') a
               = Some {| di.class_of := T; di.ctor_args := args |}
            /\ Forall2 (fun P h =>
                          exists E, P = TSharedPtr E
                                    /\ forall fuel', di.registry_get ct depth (S fuel') E s'
                                                     = (di.returns h, s'))
                       sig args).
Proof.
  intros H Sg.
  assert (Other : forall d,
            In d (di.check_make_shared ct T sig) \/ In d (di.check_pointer_cast ct Interface T) ->
            (forall C P, d <> di.fail_type C P)
            /\ forall E, d <> di.not_detected_in_di_container E).
  { intros d [I|I].
    - unfold di.check_make_shared in I. destruct (di.element_types sig); [|destruct I].
      destruct (is_constructible_from_handles ct T l0); [destruct I|].
      destruct I as [<-|[]]. split; discriminate.
    - unfold di.check_pointer_cast in I. destruct (is_same T Interface); [destruct I|].
      destruct (remove_cv Interface); try destruct I.
      destruct (remove_cv T); try destruct I.
      destruct (unambiguous_base ct name name0); [destruct I|].
      destruct I as [<-|[]]. split; discriminate. }
  split; [|split].
  - intros C P. rewrite (instantiate_add_reports Interface T sig l _ H Sg).
    rewrite check_tuple_reports. split.
    + intros [(Q & I & N & E)|I].
      * injection E as -> ->. auto.
      * destruct (Other _ I) as [O _]. destruct (O C P eq_refl).
    + intros (-> & I & N). left. exists P. auto.
  - intros E. rewrite (instantiate_add_reports Interface T sig l _ H Sg).
    rewrite check_tuple_reports. intros [(Q & _ & _ & D)|I]; [discriminate|].
    destruct (Other _ I) as [_ O]. destruct (O E eq_refl).
  - intros All s L C Bound Acyclic.
    set (s1 := di.add ct Interface T s) in *.
    assert (L1 : later ct depth di.init s1) by (apply later_add; exact L).
    destruct (add_stores_tuple ct depth Interface T sig s C H Sg) as (f & Cf & Mf & Tf).
    fold s1 in Cf.
    destruct (resolution_succeeds ct depth s1 Interface L1) as (n & Res).
    exists n. intros fuel Hn.
    destruct (Res fuel Hn Bound Acyclic) as (a & s' & G).
    assert (L' : later ct depth di.init s').
    { replace s' with (snd (di.get ct depth fuel Interface s1)) by now rewrite G.
      apply later_get; [exact L1|]. now rewrite G. }
    pose proof (later_consistent ct depth _ _ L' consistent_init) as K.
    pose proof (later_wired ct depth _ _ L' consistent_init (wired_init ct depth)) as W.
    destruct (registry_get_returns ct depth _ _ _ _ _ G) as [F O].
    destruct (cons_obj _ K Interface F) as (a' & g & o & Oa & Cg & N & Cl).
    assert (a' = a) by congruence. subst a'.
    assert (g = f).
    { pose proof (registry_get_extends ct depth fuel Interface s1) as Ex.
      unfold di.get in G. rewrite G in Ex. simpl in Ex.
      rewrite (ext_constructor _ _ Ex) in Cg. congruence. }
    subst g.
    destruct (wired_args _ _ _ W Interface f a o F Cg O N) as [Hd _].
    exists a, (di.ctor_args o), s'. split; [exact G|]. split.
    + rewrite N. destruct o as [c args]. cbn [di.class_of di.ctor_args] in *.
      rewrite Cl, Mf. reflexivity.
    + rewrite Tf in Hd. eapply Forall2_impl_in; [|exact Hd].
      intros P h I Hh. specialize (All P I).
      destruct P; try discriminate. destruct Hh as [FE OE].
      exists P. split; [reflexivity|]. intro fuel'.
      rewrite registry_get_called by assumption. now rewrite OE.
Qed.

End Handles.

(** C8, as worded, fails on [Service], whose constructor takes a
    [std::shared_ptr<Logger>]: were the parameter resolved through
    [get<Logger>()], instantiating the factory would check the ledger for
    [Logger].  The code calls [registry<Logger>::get()]: [add<Service>]
    builds without a diagnostic while [Logger] is in no ledger, and the
    program [add<Service>(); get<Service>();] compiles and throws
    [std::bad_function_call] for [Logger] when it runs. *)
Lemma C8_counterexample :
  ~ resolved_through_get sample.classes sample.template_depth
  /\ di.ctr_type sample.classes sample.template_depth sample.Service
     = Some [TSharedPtr sample.Logger]
  /\ di.instantiate_add sample.classes sample.template_depth
       sample.Service sample.Service []
     = ([], [sample.Service])
  /\ di.translate sample.classes sample.template_depth
       [di.Add1 sample.Service; di.Get sample.Service] [] = []
  /\ forall fuel,
       fst (di.run sample.classes sample.template_depth (S (S fuel))
              [di.Add1 sample.Service; di.Get sample.Service] di.init)
       = di.bad_function_call sample.Logger.
Proof.
  split; [|split; [reflexivity|split; [reflexivity|split; [reflexivity|]]]].
  - intro H.
    specialize (H sample.Service sample.Service [] [TSharedPtr sample.Logger]
                  sample.Logger eq_refl eq_refl (or_introl eq_refl) eq_refl).
    exact H.
  - intro fuel. reflexivity.
Qed.

(** ** The further properties on the sample client *)

Lemma dependencies_are_the_singletons_witness :
  let ct := sample.classes in
  let depth := sample.template_depth in
  let s := snd (di.get ct depth 3 sample.Wide
                  (di.add ct sample.Wide sample.Wide
                     (di.add ct sample.Service sample.Service
                        (di.add ct sample.Logger sample.Logger di.init)))) in
  later ct depth di.init s
  /\ di.obj (di.statics s sample.Service) = None
  /\ exists o,
       nth_error (di.heap s) 1 = Some o
       /\ di.class_of o = sample.Wide
       /\ length (di.ctor_args o) = 1
       /\ forall i E,
            nth_error [TSharedPtr sample.Logger] i = Some (TSharedPtr E) ->
            exists b, nth_error (di.ctor_args o) i = Some (Some b) /\ b < 1
                      /\ forall fuel, di.get ct depth (S fuel) E s = (di.returns (Some b), s).
Proof.
  intros ct depth s.
  assert (L : later ct depth di.init s)
    by (apply later_get; [apply later_add, later_add, later_add, later_refl | exact I]).
  split; [exact L|]. split; [reflexivity|].
  exact (dependencies_are_the_singletons ct depth s sample.Wide
           (di.from_tuple_self sample.Wide) 1 L eq_refl eq_refl eq_refl).
Defined.

Lemma every_object_is_one_singleton_witness :
  let ct := sample.classes in
  let depth := sample.template_depth in
  let s := snd (di.get ct depth 3 sample.Service
                  (di.add ct sample.Service sample.Service
                     (di.add ct sample.Logger sample.Logger di.init))) in
  0 < length (di.heap s)
  /\ exists X,
       (di.flag (di.statics s X) = di.called /\ di.obj (di.statics s X) = Some 0)
       /\ forall Y, di.flag (di.statics s Y) = di.called ->
                    di.obj (di.statics s Y) = Some 0 -> Y = X.
Proof.
  intros ct depth s.
  assert (L : later ct depth di.init s)
    by (apply later_get; [apply later_add, later_add, later_refl | exact I]).
  assert (H : 0 < length (di.heap s)) by (simpl; lia).
  split; [exact H|].
  exact (every_object_is_one_singleton ct depth s 0 L H).
Defined.

Lemma cycle_never_resolves_witness :
  let ct := sample.classes in
  let depth := sample.template_depth in
  let s := di.add ct sample.Pong sample.Pong (di.add ct sample.Ping sample.Ping di.init) in
  cyclic ct depth s sample.Ping
  /\ forall p s', di.get ct depth 7 sample.Ping s <> (di.returns p, s').
Proof.
  intros ct depth s.
  assert (L : later ct depth di.init s) by (apply later_add, later_add, later_refl).
  assert (C : cyclic ct depth s sample.Ping).
  { exists (di.from_tuple_self sample.Ping), sample.Pong.
    split; [reflexivity|]. split; [left; reflexivity|].
    apply (needs_step ct depth s sample.Pong sample.Ping sample.Ping
             (di.from_tuple_self sample.Pong)); [reflexivity|left; reflexivity|].
    apply needs_refl. }
  split; [exact C|].
  exact (cycle_never_resolves ct depth s sample.Ping 7 L C).
Defined.

Lemma throwing_get_can_be_retried_witness :
  let ct := sample.classes in
  let depth := sample.template_depth in
  let s := di.add ct sample.Service sample.Service di.init in
  let s' := snd (di.get ct depth 3 sample.Service s) in
  di.get ct depth 3 sample.Service s = (di.bad_function_call sample.Logger, s')
  /\ di.flag (di.statics s sample.Service) = di.not_called
  /\ di.flag (di.statics s' sample.Service) = di.not_called
  /\ (forall X, di.flag (di.statics s' X) = di.active ->
                di.flag (di.statics s X) = di.active)
  /\ extends s s'.
Proof.
  intros ct depth s s'.
  split; [reflexivity|].
  exact (throwing_get_can_be_retried ct depth 3 sample.Service sample.Logger s s' eq_refl).
Defined.

Lemma bindings_and_objects_are_permanent_witness :
  let ct := sample.classes in
  let depth := sample.template_depth in
  let s := di.add ct sample.Logger sample.Logger di.init in
  let s' := di.add ct sample.Logger sample.Service (snd (di.get ct depth 3 sample.Logger s)) in
  later ct depth s s'
  /\ (forall X f, di.constructor (di.statics s X) = Some f ->
                  di.constructor (di.statics s' X) = Some f)
  /\ (forall a o, nth_error (di.heap s) a = Some o -> nth_error (di.heap s') a = Some o).
Proof.
  intros ct depth s s'.
  assert (L : later ct depth s s')
    by (apply later_add, later_get; [apply later_refl | exact I]).
  split; [exact L|].
  exact (bindings_and_objects_are_permanent ct depth s s' L).
Defined.

Lemma unbound_get_throws_witness :
  later sample.classes sample.template_depth di.init di.init
  /\ di.get sample.classes sample.template_depth 1 sample.Logger di.init
     = (di.bad_function_call sample.Logger, di.init).
Proof.
  assert (L : later sample.classes sample.template_depth di.init di.init)
    by apply later_refl.
  split; [exact L|].
  exact (unbound_get_throws sample.classes sample.template_depth di.init
           sample.Logger 0 L eq_refl).
Defined.

Lemma program_order_binds_the_requested_type_witness :
  let ct := sample.classes in
  let depth := sample.template_depth in
  let s := di.add1 ct sample.Service di.init in
  di.translate ct depth [di.Add1 sample.Service; di.Get sample.Service] [] = []
  /\ di.constructor (di.statics s sample.Service) <> None
  /\ forall fuel' E s',
       di.get ct depth fuel' sample.Service s = (di.bad_function_call E, s') ->
       E <> sample.Service /\ needs ct depth s sample.Service E
       /\ di.constructor (di.statics s E) = None.
Proof.
  intros ct depth s. split; [reflexivity|].
  exact (program_order_binds_the_requested_type ct depth
           [di.Add1 sample.Service; di.Get sample.Service]
           [di.Add1 sample.Service] [] sample.Service 3 s eq_refl eq_refl eq_refl).
Defined.

Lemma ledger_mark_then_check_witness :
  sample.Logger <> sample.Service
  /\ type_registry.check_type sample.Logger (type_registry.set_type sample.Service [])
     = type_registry.check_type sample.Logger [].
Proof.
  assert (D : sample.Logger <> sample.Service) by discriminate.
  split; [exact D|].
  exact (proj2 (proj2 (ledger_mark_then_check sample.Service sample.Logger [])) D).
Defined.

Lemma discovery_is_local_to_its_type_witness :
  let st := [((sample.Logger, 0), TInt)] in
  same_tags sample.Service st []
  /\ fst (refl.as_tuple sample.classes sample.template_depth sample.Service st)
     = fst (refl.as_tuple sample.classes sample.template_depth sample.Service [])
  /\ forall T' N, T' <> sample.Service ->
       refl.loophole
         (snd (refl.as_tuple sample.classes sample.template_depth sample.Service st)) (T', N)
       = refl.loophole st (T', N).
Proof.
  intro st.
  assert (ST : same_tags sample.Service st []).
  { intro N. simpl.
    destruct (refl.tag_eq_dec (sample.Service, N) (sample.Logger, 0)) as [e|];
      [discriminate e | reflexivity]. }
  split; [exact ST|].
  exact (discovery_is_local_to_its_type sample.classes sample.template_depth
           sample.Service st [] ST).
Defined.

Lemma discovery_is_idempotent_witness :
  let ct := sample.classes in
  let depth := sample.template_depth in
  fst (refl.as_tuple ct depth sample.Service []) = Some [TSharedPtr sample.Logger]
  /\ refl.as_tuple ct depth sample.Service (snd (refl.as_tuple ct depth sample.Service []))
     = (Some [TSharedPtr sample.Logger], snd (refl.as_tuple ct depth sample.Service [])).
Proof.
  intros ct depth. split; [reflexivity|].
  exact (discovery_is_idempotent ct depth sample.Service [] [TSharedPtr sample.Logger] eq_refl).
Defined.

Lemma friends_are_never_redefined_witness :
  let st := [((sample.Service, 0), TInt)] in
  refl.loophole st (sample.Service, 0) = Some TInt
  /\ refl.loophole
       (snd (refl.fields_number sample.classes sample.template_depth sample.Service [] st))
       (sample.Service, 0) = Some TInt
  /\ refl.loophole
       (snd (refl.as_tuple sample.classes sample.template_depth sample.Service st))
       (sample.Service, 0) = Some TInt.
Proof.
  intro st. split; [reflexivity|].
  exact (friends_are_never_redefined sample.classes sample.template_depth sample.Service
           st (sample.Service, 0) TInt eq_refl).
Defined.

Lemma fields_number_of_uninitialisable_witness :
  brace_initializable sample.classes sample.Service 0 = false
  /\ fst (refl.fields_number sample.classes 16 sample.Service [] []) = Some (-1)%Z.
Proof.
  split; [reflexivity|].
  exact (fields_number_of_uninitialisable sample.classes 15 sample.Service [] eq_refl).
Defined.

Lemma fields_number_of_aggregate_witness :
  let d := {| bases := ["IShape"%string]; ctors := []; fields := [] |} in
  find_class sample.classes "Circle" = Some d
  /\ fst (refl.fields_number sample.classes sample.template_depth sample.Circle [] [])
     = Some 1%Z.
Proof.
  intro d. split; [reflexivity|].
  apply (fields_number_of_aggregate sample.classes sample.template_depth "Circle"%string d []);
    try reflexivity.
  unfold sample.template_depth. simpl. lia.
Defined.

Lemma discovery_finds_the_constructor_witness :
  (find_class sample.classes "Service"
   = Some {| bases := ["IService"%string]; ctors := [[TSharedPtr sample.Logger]];
             fields := [] |}
   /\ di.ctr_type sample.classes sample.template_depth sample.Service
      = Some [TSharedPtr sample.Logger])
  /\ (find_class sample.classes "Owner" = Some (sample.with_ctors [[sample.Service]])
      /\ di.ctr_type sample.classes sample.template_depth sample.Owner = None).
Proof.
  split; (split; [reflexivity|]).
  - apply (discovery_finds_the_constructor sample.classes sample.template_depth
             "Service"%string
             {| bases := ["IService"%string]; ctors := [[TSharedPtr sample.Logger]];
                fields := [] |}
             [TSharedPtr sample.Logger]);
      try reflexivity.
    + discriminate.
    + unfold sample.template_depth. simpl. lia.
  - apply (discovery_finds_the_constructor sample.classes sample.template_depth
             "Owner"%string (sample.with_ctors [[sample.Service]]) [sample.Service]);
      try reflexivity.
    + discriminate.
    + unfold sample.template_depth. simpl. lia.
Defined.



Lemma get_resolves_the_dependency_closure_witness :
  let ct := sample.classes in
  let depth := sample.template_depth in
  let s := di.add ct sample.Wide sample.Wide
             (di.add ct sample.Logger sample.Logger di.init) in
  let s' := snd (di.get ct depth 3 sample.Wide s) in
  needs ct depth s sample.Wide sample.Logger
  /\ di.flag (di.statics s' sample.Logger) = di.called
  /\ exists a b, Some 1 = Some a /\ di.obj (di.statics s' sample.Logger) = Some b /\ b <= a.
Proof.
  intros ct depth s s'.
  assert (L : later ct depth di.init s) by (apply later_add, later_add, later_refl).
  assert (N : needs ct depth s sample.Wide sample.Logger).
  { apply (needs_step ct depth s sample.Wide sample.Logger sample.Logger
             (di.from_tuple_self sample.Wide)); [reflexivity|left; reflexivity|].
    apply needs_refl. }
  split; [exact N|].
  exact (get_resolves_the_dependency_closure ct depth s s' sample.Wide sample.Logger
           3 (Some 1) L eq_refl N).
Defined.

Lemma get_leaves_unrelated_types_alone_witness :
  let ct := sample.classes in
  let depth := sample.template_depth in
  let s := di.add ct sample.IShape sample.Circle
             (di.add ct sample.Logger sample.Logger di.init) in
  ~ needs ct depth s sample.Logger sample.IShape
  /\ di.statics (snd (di.get ct depth 3 sample.Logger s)) sample.IShape
     = di.statics s sample.IShape.
Proof.
  intros ct depth s.
  assert (N : ~ needs ct depth s sample.Logger sample.IShape).
  { intro H. inversion H as [|T E X f C I0 N0]; subst.
    compute in C. injection C as C. subst f.
    simpl in I0. exact I0. }
  split; [exact N|].
  exact (get_leaves_unrelated_types_alone ct depth s sample.Logger sample.IShape 3 N).
Defined.

(** ** The sample container *)

(** With the factories of [add<Logger>] and [add<IService, Service>]
    stored, resolving [IService] needs [Logger] and nothing more: every
    needed type is bound, and none is on a cycle. *)
Lemma service_closure (s : di.state) :
  let ct := sample.classes in
  let depth := sample.template_depth in
  di.constructor (di.statics s sample.IService)
  = Some (di.from_tuple_cast sample.IService sample.Service) ->
  di.constructor (di.statics s sample.Logger)
  = Some (di.make_shared_self sample.Logger) ->
  (forall E, needs ct depth s sample.IService E ->
             di.constructor (di.statics s E) <> None)
  /\ (forall X, needs ct depth s sample.IService X -> ~ cyclic ct depth s X).
Proof.
  intros ct depth C CL.
  assert (NL : forall X, needs ct depth s sample.Logger X -> X = sample.Logger).
  { intros X H. inversion H as [|T E X' g Cg Ig Ng]; subst; [reflexivity|].
    rewrite CL in Cg. injection Cg as Cg. subst g. destruct Ig. }
  assert (NI : forall X, needs ct depth s sample.IService X ->
                         X = sample.IService \/ X = sample.Logger).
  { intros X H. inversion H as [|T E X' g Cg Ig Ng]; subst; [now left|].
    rewrite C in Cg. injection Cg as Cg. subst g.
    destruct Ig as [Ig|[]]. injection Ig as Ig. subst E. right. now apply NL. }
  split.
  - intros E H. destruct (NI E H) as [-> | ->]; congruence.
  - intros X H (g & E & Cg & Ig & Ng). destruct (NI X H) as [-> | ->].
    + rewrite C in Cg. injection Cg as Cg. subst g.
      destruct Ig as [Ig|[]]. injection Ig as Ig. subst E.
      apply NL in Ng. discriminate Ng.
    + rewrite CL in Cg. injection Cg as Cg. subst g. destruct Ig.
Qed.

(** The tuple is read off the constructor that one probe fits: the
    two-parameter constructor of [Wide], declared first, takes no part with
    one probe. *)
Example wide_tuple :
  di.ctr_type sample.classes sample.template_depth sample.Wide
  = Some [TSharedPtr sample.Logger].
Proof. reflexivity. Qed.

(** The probe does not bind to the [std::shared_ptr<Logger>&] of the first
    constructor of [Keeper], but trying it has defined the friend: the tuple
    holds [Logger], though it is the second constructor that the probe
    fits.  The handle of the tuple, an lvalue, then goes to the first. *)
Example keeper_tuple :
  di.ctr_type sample.classes sample.template_depth sample.Keeper
  = Some [TSharedPtr sample.Logger]
  /\ fst (di.instantiate_add sample.classes sample.template_depth
            sample.Keeper sample.Keeper []) = [].
Proof. split; reflexivity. Qed.

(** [Holder] has a member without default constructor and no constructor of
    its own: it is not default-constructible, no probe count constructs it,
    and [add<Holder>] does not build. *)
Example holder_does_not_build :
  is_default_constructible sample.classes sample.Holder = false
  /\ fst (refl.fields_number sample.classes sample.template_depth sample.Holder [] [])
     = Some (-1)%Z
  /\ fst (di.instantiate_add sample.classes sample.template_depth
            sample.Holder sample.Holder []) = [di.no_ctr_type sample.Holder].
Proof. repeat split; reflexivity. Qed.

(** The base of [Circle] is an element of the aggregate. *)
Example circle_fields :
  fst (refl.fields_number sample.classes sample.template_depth sample.Circle [] [])
  = Some 1%Z.
Proof. reflexivity. Qed.

(** [Owner(Service)]: the friend returns [Service{}], which is ill-formed. *)
Example owner_tuple :
  fst (refl.as_tuple sample.classes sample.template_depth sample.Owner [])
  = Some [sample.Service]
  /\ di.ctr_type sample.classes sample.template_depth sample.Owner = None.
Proof. split; reflexivity. Qed.

(** [Taker(std::shared_ptr<Logger>&&)] is found by the probe; the lvalue
    that [make_shared_from_tuple] passes does not bind to it. *)
Example taker_does_not_build :
  di.ctr_type sample.classes sample.template_depth sample.Taker
  = Some [TSharedPtr sample.Logger]
  /\ fst (di.instantiate_add sample.classes sample.template_depth
            sample.Taker sample.Taker [])
     = [di.not_constructible sample.Taker [TSharedPtr sample.Logger]].
Proof. split; reflexivity. Qed.

Lemma C3_witness :
  let ct := sample.classes in
  let depth := sample.template_depth in
  let adds := [di.Add1 sample.Logger; di.Add sample.IService sample.Service] in
  Forall is_add adds
  /\ di.translate ct depth adds [] = []
  /\ exists s1 n,
       (forall fuel, di.run ct depth fuel adds di.init = (di.returns tt, s1))
       /\ di.heap s1 = []
       /\ di.constructed sample.Service s1 = 0
       /\ di.constructor (di.statics s1 sample.IService)
          = Some (di.from_tuple_cast sample.IService sample.Service)
       /\ forall fuel, n < fuel ->
            exists a s2,
              di.get ct depth fuel sample.IService s1 = (di.returns (Some a), s2)
              /\ forall k,
                   di.run ct depth fuel (repeat (di.Get sample.IService) (S k)) s1
                   = (di.returns tt, s2)
                   /\ di.constructed sample.Service s2 = 1.
Proof.
  intros ct depth adds.
  assert (A : Forall is_add adds) by (repeat constructor).
  split; [exact A|]. split; [reflexivity|].
  destruct (C3_lazy_construction ct depth adds sample.IService A)
    as (s1 & R & Hh & Z & Rest).
  assert (Rg : exists c, In c adds /\ registers c sample.IService).
  { exists (di.Add sample.IService sample.Service). split; [right; left|]; reflexivity. }
  destruct (Rest eq_refl Rg) as (f & C & Res).
  pose proof (R 0) as R0. simpl in R0. unfold di.bind, di.ret in R0. simpl in R0.
  injection R0 as R0.
  assert (Cf : f = di.from_tuple_cast sample.IService sample.Service).
  { rewrite <- R0 in C. compute in C. injection C as C. now symmetry. }
  subst f.
  assert (CL : di.constructor (di.statics s1 sample.Logger)
               = Some (di.make_shared_self sample.Logger)).
  { rewrite <- R0. reflexivity. }
  clear R0.
  destruct (service_closure s1 C CL) as [Bound Acyclic].
  destruct (Res Bound Acyclic) as (n & Ret).
  exists s1, n. split; [exact R|]. split; [exact Hh|]. split; [apply Z|].
  split; [exact C|].
  intros fuel Hn. destruct (Ret fuel Hn) as (a & s2 & G & Rep).
  exists a, s2. split; [exact G|]. intro k. exact (Rep k).
Defined.

Lemma C8_witness :
  let ct := sample.classes in
  let depth := sample.template_depth in
  let s1 := di.add ct sample.IService sample.Service (di.add1 ct sample.Logger di.init) in
  di.ctr_type ct depth sample.Counter = Some [TInt]
  /\ In (di.fail_type sample.Counter TInt)
        (fst (di.instantiate_add ct depth sample.Counter sample.Counter []))
  /\ di.ctr_type ct depth sample.Service = Some [TSharedPtr sample.Logger]
  /\ (forall C P, ~ In (di.fail_type C P)
                       (fst (di.instantiate_add ct depth sample.IService sample.Service [])))
  /\ exists n, forall fuel, n < fuel ->
       exists a h s',
         di.get ct depth fuel sample.IService s1 = (di.returns (Some a), s')
         /\ nth_error (di.heap s') a
            = Some {| di.class_of := sample.Service; di.ctor_args := [h] |}
         /\ forall fuel', di.registry_get ct depth (S fuel') sample.Logger s'
                          = (di.returns h, s').
Proof.
  intros ct depth s1.
  split; [reflexivity|]. split.
  { apply (proj1 (C8_handle_parameters ct depth sample.Counter sample.Counter [TInt] []
                    eq_refl eq_refl)).
    split; [reflexivity|]. split; [now left|reflexivity]. }
  split; [reflexivity|].
  destruct (C8_handle_parameters ct depth sample.IService sample.Service
              [TSharedPtr sample.Logger] [] eq_refl eq_refl) as (Fail & _ & Run).
  split.
  { intros C P I. apply Fail in I. destruct I as (_ & [<-|[]] & N). discriminate N. }
  assert (All : forall P, In P [TSharedPtr sample.Logger] ->
                          internal.is_shared_ptr P = true).
  { intros P [<-|[]]. reflexivity. }
  assert (L : later ct depth di.init (di.add1 ct sample.Logger di.init)).
  { apply later_add, later_refl. }
  destruct (service_closure s1 eq_refl eq_refl) as [Bound Acyclic].
  destruct (Run All (di.add1 ct sample.Logger di.init) L eq_refl Bound Acyclic)
    as (n & Ret).
  exists n. intros fuel Hn.
  destruct (Ret fuel Hn) as (a & args & s' & G & N & F2).
  inversion F2 as [|P h sig' args' (E & PE & Hh) F3]; subst.
  inversion F3; subst. injection PE as <-.
  exists a, h, s'. split; [exact G|]. split; [exact N|exact Hh].
Defined.
